(** * Verification of the targz core: tarfs, gsip and the flate decoder

    The development follows the three Go packages of the repository:

    - [GoPath] and [Tarfs]: [tarfs/tarfs.go], the tar directory view ([New],
      [Entry], [open], [ReadDir], the paginated [File_ReadDir]);
    - [Flate]: [gsip/internal/flate], the DEFLATE decoder that sends
      checkpoints ([init], [huffSym], [finishBlock], [Read],
      [NewReaderWithSpans], [Continue]), as methods over a state that holds
      the decoder, a store of byte arrays and the channel;
    - [Gsip]: [gsip/gsip.go], the index reader ([acquireReader], [ReadAt]).

    The facts follow in [TarfsFacts], [GsipFacts] and [FlateFacts], further
    ones in [TarfsMore], [GsipMore] and [FlateMore], and the soundness of
    resuming from a checkpoint in [FlateResume].

    Go strings are byte strings, modelled by Rocq [string]s; Go maps are
    [gmap]s; Go slices that are only appended to are lists; [int64]
    arithmetic wraps around ([wrap64]). *)

From Stdlib Require Import ZArith Lia List Ascii String Sorted Permutation Bool.
From stdpp Require Import base option list gmap strings sorting.
From Equations Require Import Equations.

Local Open Scope string_scope.
Local Open Scope list_scope.
Local Open Scope Z_scope.

(** ** Go's [strings] and [path] helpers used by tarfs *)

Module GoPath.

(** [strings.HasPrefix] *)
Fixpoint HasPrefix (s p : string) : bool :=
  match p, s with
  | EmptyString, _ => true
  | String c p', String d s' => if Ascii.eqb c d then HasPrefix s' p' else false
  | String _ _, EmptyString => false
  end.

Fixpoint str_drop (n : nat) (s : string) : string :=
  match n, s with
  | O, _ => s
  | S n', String _ s' => str_drop n' s'
  | S _, EmptyString => EmptyString
  end.

Fixpoint str_take (n : nat) (s : string) : string :=
  match n, s with
  | O, _ => EmptyString
  | S n', String c s' => String c (str_take n' s')
  | S _, EmptyString => EmptyString
  end.

(** [strings.TrimPrefix] *)
Definition TrimPrefix (s p : string) : string :=
  if HasPrefix s p then str_drop (String.length p) s else s.

(** [strings.HasSuffix] *)
Definition HasSuffix (s p : string) : bool :=
  (String.length p <=? String.length s)%nat &&
  String.eqb (str_drop (String.length s - String.length p) s) p.

(** [strings.TrimSuffix] *)
Definition TrimSuffix (s p : string) : string :=
  if HasSuffix s p then str_take (String.length s - String.length p) s else s.

(** [strings.Split(s, "/")]: the components between slashes, at least one. *)
Fixpoint split_slash (s : string) : list string :=
  match s with
  | EmptyString => [EmptyString]
  | String c s' =>
      if Ascii.eqb c "/" then EmptyString :: split_slash s'
      else match split_slash s' with
           | x :: xs => String c x :: xs
           | [] => [String c EmptyString]
           end
  end.

(** [strings.Join(l, "/")] *)
Fixpoint join_slash (l : list string) : string :=
  match l with
  | [] => EmptyString
  | [x] => x
  | x :: xs => x +:+ "/" +:+ join_slash xs
  end.

(** [path.IsAbs] *)
Definition IsAbs (p : string) : bool :=
  match p with
  | String c _ => Ascii.eqb c "/"
  | EmptyString => false
  end.

(** One element of [path.Clean]'s scan; [stack] holds the kept elements,
    last one first. *)
Definition clean_elem (rooted : bool) (stack : list string) (e : string)
  : list string :=
  if String.eqb e "" || String.eqb e "." then stack
  else if String.eqb e ".." then
    match stack with
    | top :: rest =>
        if String.eqb top ".." then (if rooted then stack else e :: stack)
        else rest
    | [] => if rooted then [] else [e]
    end
  else e :: stack.

(** [path.Clean], by its four documented rules. *)
Definition Clean (p : string) : string :=
  if String.eqb p "" then "."
  else
    let rooted := IsAbs p in
    let out := join_slash (rev (fold_left (clean_elem rooted) (split_slash p) [])) in
    if rooted then "/" +:+ out
    else if String.eqb out "" then "." else out.

(** [path.Join] *)
Definition Join (elem : list string) : string :=
  let buf :=
    fold_left (fun buf e =>
      if negb (String.eqb buf "") || negb (String.eqb e "")
      then (if negb (String.eqb buf "") then buf +:+ "/" else buf) +:+ e
      else buf) elem "" in
  if (fold_left (fun n e => n + String.length e)%nat elem 0%nat =? 0)%nat
  then "" else Clean buf.

(** [path.Split]: the directory part ends with the last slash. *)
Definition Split (p : string) : string * string :=
  let cs := split_slash p in
  match rev cs with
  | file :: rdir =>
      (match rdir with
       | [] => ""
       | _ => join_slash (rev rdir) +:+ "/"
       end, file)
  | [] => ("", "")
  end.

(** [path.Dir] *)
Definition Dir (p : string) : string := Clean (fst (Split p)).

Fixpoint strip_trailing_slashes (fuel : nat) (p : string) : string :=
  match fuel with
  | O => p
  | S fuel' =>
      if HasSuffix p "/" && negb (String.eqb p "")
      then strip_trailing_slashes fuel' (str_take (String.length p - 1) p)
      else p
  end.

(** [path.Base] *)
Definition Base (p : string) : string :=
  if String.eqb p "" then "."
  else
    let p1 := strip_trailing_slashes (String.length p) p in
    let p2 := snd (Split p1) in
    if String.eqb p2 "" then "/" else p2.

End GoPath.

(** ** Errors and results shared by the three packages

    Go's [error] values that the modelled code creates or passes on, and a
    result type that also records a run-time panic (index out of range, nil
    dereference, or an explicit [panic]). *)

Inductive error : Type :=
| EOF                                   (* io.EOF *)
| ErrUnexpectedEOF                      (* io.ErrUnexpectedEOF *)
| ErrNotExist                           (* fs.ErrNotExist *)
| ErrTooManySymlinks (name : string)    (* "opening %s: chased too many (%d) symlinks" *)
| ErrNotLink (name : string)            (* "Readlink(%q): file is not a link" *)
| ErrNoCheckpoint (off : Z)             (* "could not find any checkpoints or readers for offset %d" *)
| ErrContinue (e : error)               (* "continue: %w" *)
| CorruptInputError (off : Z)           (* flate.CorruptInputError *)
| InternalError (msg : string)          (* flate.InternalError *)
| ErrOther (msg : string).              (* an error of the transport *)

Inductive result (A : Type) : Type :=
| Ok (a : A)
| Err (e : error)
| Panic (msg : string).
Arguments Ok {A} a.
Arguments Err {A} e.
Arguments Panic {A} msg.

(** ** Package tarfs *)

Module Tarfs.
Import GoPath.

(** The fields of [tar.Header] that tarfs reads. *)
Record Header : Type := mkHeader {
  Typeflag : ascii;
  Name : string;
  Linkname : string;
  Size : Z;
  Mode : Z
}.

Definition TypeReg : ascii := "0".
Definition TypeLink : ascii := "1".
Definition TypeSymlink : ascii := "2".
Definition TypeDir : ascii := "5".

(** [fs.FileInfo] has two implementations here: the one [hdr.FileInfo()]
    returns, and the synthetic [root{}]. *)
Inductive FileInfo : Type :=
| headerFileInfo (h : Header)
| root.

(** [headerFileInfo.Mode().IsDir()] of archive/tar: the directory bit comes
    from the mode's file-type bits ([c_ISDIR] = 040000) or from the type
    flag. *)
Definition header_IsDir (h : Header) : bool :=
  (Z.ldiff (Mode h) 4095 =? 16384) || Ascii.eqb (Typeflag h) TypeDir.

Definition fi_IsDir (fi : FileInfo) : bool :=
  match fi with
  | headerFileInfo h => header_IsDir h
  | root => true
  end.

(** [headerFileInfo.Name()] of archive/tar. *)
Definition fi_Name (fi : FileInfo) : string :=
  match fi with
  | headerFileInfo h =>
      if header_IsDir h then Base (Clean (Name h)) else Base (Name h)
  | root => "."
  end.

Record Entry : Type := mkEntry {
  eHeader : Header;
  Offset : Z;
  Filename : string;
  dir : string;
  fi : FileInfo
}.

(** [Entry.Name], [Entry.Size], [Entry.IsDir] *)
Definition Entry_Name (e : Entry) : string := fi_Name (fi e).
Definition Entry_Size (e : Entry) : Z := Size (eHeader e).
Definition Entry_IsDir (e : Entry) : bool := fi_IsDir (fi e).

(** [FS]; [ra] is the transport and plays no part in the directory view. *)
Record FS : Type := mkFS {
  files : list Entry;
  index : gmap string Z;
  dirs : gmap string (list Entry)
}.

(** An open [File]: the entry, the section [(offset, size)] of the
    transport it reads, and the cursor of its directory listing. *)
Record File : Type := mkFile {
  fEntry : Entry;
  sr : Z * Z;
  cursor : Z
}.

(** [normalize] *)
Definition normalize (s : string) : string :=
  TrimPrefix (TrimPrefix (TrimSuffix s "/") "/") "./".

(** [cmp.Compare(a.Name(), b.Name())] as used by the sort in [New]. *)
Definition cmp_Name (a b : Entry) : comparison :=
  String.compare (Entry_Name a) (Entry_Name b).

Definition name_le (a b : Entry) : Prop :=
  String.leb (Entry_Name a) (Entry_Name b) = true.

Fixpoint sort_insert (x : Entry) (l : list Entry) : list Entry :=
  match l with
  | [] => [x]
  | y :: l' =>
      match cmp_Name x y with
      | Gt => y :: sort_insert x l'
      | _ => x :: l
      end
  end.

(** [slices.SortFunc(files, cmp)]: the standard library's sort, which
    rearranges the slice into non-decreasing order of [cmp] and does not
    promise an order among equal elements.  It is modelled by an insertion
    sort; the results below use only that its output is a sorted
    permutation. *)
Definition SortFunc (l : list Entry) : list Entry :=
  fold_right sort_insert [] l.

(** The body of the scanning loop of [New], for one header returned by
    [tr.Next()] together with [cr.n], the bytes consumed so far. *)
Definition New_scan (st : FS * gmap string Z) (next : Header * Z)
  : FS * gmap string Z :=
  let '(fsys, dirCount) := st in
  let '(hdr, n) := next in
  let normalized := normalize (Name hdr) in
  let d := Dir normalized in
  ({| files := files fsys ++
               [{| eHeader := hdr; Offset := n; Filename := normalized;
                   dir := d; fi := headerFileInfo hdr |}];
      index := <[normalized := Z.of_nat (length (files fsys))]> (index fsys);
      dirs := dirs fsys |},
   <[d := default 0 (dirCount !! d) + 1]> dirCount).

(** [fsys.dirs[f.dir] = append(fsys.dirs[f.dir], f)] *)
Definition New_append (ds : gmap string (list Entry)) (f : Entry)
  : gmap string (list Entry) :=
  <[dir f := default [] (ds !! dir f) ++ [f]]> ds.

(** [New]: [hdrs] are the headers the tar reader yields before [io.EOF];
    [fail] is the error it ends with instead, if any. *)
Definition New (hdrs : list (Header * Z)) (fail : option error) : result FS :=
  let '(fsys, dirCount) :=
    fold_left New_scan hdrs
      ({| files := []; index := ∅; dirs := ∅ |}, ∅) in
  match fail with
  | Some err => Err err
  | None =>
      let ds0 : gmap string (list Entry) := (fun _ => []) <$> dirCount in
      let ds1 := fold_left New_append (files fsys) ds0 in
      Ok {| files := files fsys; index := index fsys;
            dirs := SortFunc <$> ds1 |}
  end.

(** The entry that the scanning loop records for one header. *)
Definition entry_of (next : Header * Z) : Entry :=
  {| eHeader := fst next; Offset := snd next;
     Filename := normalize (Name (fst next));
     dir := Dir (normalize (Name (fst next)));
     fi := headerFileInfo (fst next) |}.

(** [FS.Entry] *)
Definition FS_Entry (fsys : FS) (name : string) : result Entry :=
  match index fsys !! name with
  | None => Err ErrNotExist
  | Some i =>
      if i <? 0 then Panic "index out of range"
      else match files fsys !! Z.to_nat i with
           | Some e => Ok e
           | None => Panic "index out of range"
           end
  end.

(** [FS.ReadDir] *)
Definition ReadDir (fsys : FS) (name : string) : list Entry * option error :=
  match dirs fsys !! name with
  | None => ([], None)
  | Some ds => (ds, None)
  end.

(** [FS.Readlink] *)
Definition Readlink (fsys : FS) (name : string) : result string :=
  match FS_Entry fsys name with
  | Ok e =>
      if Ascii.eqb (Typeflag (eHeader e)) TypeSymlink
         || Ascii.eqb (Typeflag (eHeader e)) TypeLink
      then Ok (Linkname (eHeader e))
      else Err (ErrNotLink name)
  | Err err => Err err
  | Panic m => Panic m
  end.

(** The iterator [dirs(name)]: [name[0:i]] for every slash at [i], in
    increasing order of [i]. *)
Fixpoint dirs_from (pre : string) (rest : string) : list string :=
  match rest with
  | EmptyString => []
  | String c rest' =>
      (if Ascii.eqb c "/" then [pre] else []) ++
      dirs_from (pre +:+ String c EmptyString) rest'
  end.

Definition dirs_of (name : string) : list string := dirs_from "" name.

Definition maxHops : Z := 255.

(** The loop of [open] over [dirs(name)]: the first prefix that is indexed
    as a symlink decides the name to open next. *)
Fixpoint symlinked_dir (fsys : FS) (name : string) (ds : list string)
  : result (option string) :=
  match ds with
  | [] => Ok None
  | d :: ds' =>
      match FS_Entry fsys d with
      | Panic m => Panic m
      | Err _ => symlinked_dir fsys name ds'
      | Ok e =>
          if negb (Ascii.eqb (Typeflag (eHeader e)) TypeSymlink)
          then symlinked_dir fsys name ds'
          else
            let rest := TrimPrefix name d in
            let link := Linkname (eHeader e) in
            if IsAbs link
            then Ok (Some (normalize (Join [link; rest])))
            else Ok (Some (Join [dir e; link; rest]))
      end
  end.

(** Where a symlink or hard link entry sends [open]. *)
Definition link_target (e : Entry) : string :=
  let link := Linkname (eHeader e) in
  if IsAbs link || Ascii.eqb (Typeflag (eHeader e)) TypeLink
  then normalize link
  else Join [dir e; link].

Definition is_link (e : Entry) : bool :=
  Ascii.eqb (Typeflag (eHeader e)) TypeSymlink
  || Ascii.eqb (Typeflag (eHeader e)) TypeLink.

(** [FS.open]: the recursion is on the hop counter, which the guard bounds
    by [maxHops]. *)
Equations? open (fsys : FS) (name : string) (hops : Z) : result File
  by wf (Z.to_nat (maxHops + 1 - hops)) lt :=
  open fsys name hops with Z_gt_dec hops maxHops => {
    | left _ := Err (ErrTooManySymlinks name);
    | right _ with FS_Entry fsys name => {
      | Panic m := Panic m;
      | Err err with symlinked_dir fsys name (dirs_of name) => {
        | Panic m := Panic m;
        | Err err' := Err err';
        | Ok (Some target) := open fsys target (hops + 1);
        | Ok None := Err err };
      | Ok e with is_link e => {
        | true := open fsys (link_target e) (hops + 1);
        | false := Ok {| fEntry := e; sr := (Offset e, Size (eHeader e));
                         cursor := 0 |} } } }.
Proof. all: unfold maxHops in *; lia. Qed.

(** [FS.Open] *)
Definition Open (fsys : FS) (name : string) : result File :=
  if String.eqb name "."
  then Ok {| fEntry := {| eHeader := {| Typeflag := "000"%char; Name := ".";
                                         Linkname := ""; Size := 0; Mode := 0 |};
                          Offset := 0; Filename := "."; dir := ".";
                          fi := root |};
             sr := (0, 0); cursor := 0 |}
  else open fsys name 0.

(** [dir[lo:hi]] on a slice of length [len(dir)]; Go panics outside
    [0 <= lo <= hi <= len(dir)]. *)
Definition slice {A} (l : list A) (lo hi : Z) : result (list A) :=
  if (0 <=? lo) && (lo <=? hi) && (hi <=? Z.of_nat (length l))
  then Ok (firstn (Z.to_nat (hi - lo)) (skipn (Z.to_nat lo) l))
  else Panic "slice bounds out of range".

(** [File.ReadDir]: the entries returned, the error, and the file with its
    cursor advanced. *)
Definition File_ReadDir (fsys : FS) (f : File) (n : Z)
  : result (list Entry * option error * File) :=
  if n =? 0 then Ok ([], None, f)
  else
    let '(ds, err) := ReadDir fsys (Filename (fEntry f)) in
    match err with
    | Some e => Ok ([], Some e, f)
    | None =>
        let len := Z.of_nat (length ds) in
        if cursor f >=? len then
          if n <? 0 then Ok ([], None, f) else Ok ([], Some EOF, f)
        else if (n >? 0) && (len - cursor f >? n) then
          match slice ds (cursor f) (cursor f + n) with
          | Ok ret => Ok (ret, None, {| fEntry := fEntry f; sr := sr f;
                                        cursor := cursor f + n |})
          | Err e => Err e
          | Panic m => Panic m
          end
        else
          match slice ds (cursor f) len with
          | Ok ret => Ok (ret, None, {| fEntry := fEntry f; sr := sr f;
                                        cursor := len |})
          | Err e => Err e
          | Panic m => Panic m
          end
    end.

(** [Decode]: the entries of the sidecar carry the exported fields
    [Header], [Offset] and [Filename]; [dir] keeps its zero value and
    [fsys.dirs] stays nil. *)
Definition Decode_entry (t : Header * Z * string) : Entry :=
  let '(hdr, off, filename) := t in
  {| eHeader := hdr; Offset := off; Filename := filename; dir := "";
     fi := headerFileInfo hdr |}.

Definition Decode (toc : list (Header * Z * string)) : FS :=
  let fs := map Decode_entry toc in
  {| files := fs;
     index := fst (fold_left (fun (ix : gmap string Z * Z) e =>
                                (<[Filename e := snd ix]> (fst ix), snd ix + 1))
                             fs (∅, 0));
     dirs := ∅ |}.

(** *** One call of [open], seen from outside the recursion

    [open_once] is what a call of [open] that passes the hop guard does
    before it either returns or calls itself with [hops+1]. *)
Inductive once : Type :=
| Hop (next : string)
| Done (r : result File).

Definition open_once (fsys : FS) (name : string) : once :=
  match FS_Entry fsys name with
  | Panic m => Done (Panic m)
  | Err err =>
      match symlinked_dir fsys name (dirs_of name) with
      | Panic m => Done (Panic m)
      | Err err' => Done (Err err')
      | Ok (Some target) => Hop target
      | Ok None => Done (Err err)
      end
  | Ok e =>
      if is_link e then Hop (link_target e)
      else Done (Ok {| fEntry := e; sr := (Offset e, Size (eHeader e));
                       cursor := 0 |})
  end.

(** The name reached from [name] after [k] link indirections, if the chain
    is that long. *)
Fixpoint chase (fsys : FS) (k : nat) (name : string) : option string :=
  match k with
  | O => Some name
  | S k' =>
      match open_once fsys name with
      | Hop next => chase fsys k' next
      | Done _ => None
      end
  end.

(** *** Successive calls of [File.ReadDir]

    A caller that pages through a directory: one call per element of [ns],
    the slices collected in order. *)
Fixpoint ReadDir_pages (fsys : FS) (f : File) (ns : list Z)
  : result (list (list Entry) * File) :=
  match ns with
  | [] => Ok ([], f)
  | n :: ns' =>
      match File_ReadDir fsys f n with
      | Ok (ret, _, f') =>
          match ReadDir_pages fsys f' ns' with
          | Ok (pages, f'') => Ok (ret :: pages, f'')
          | Err e => Err e
          | Panic m => Panic m
          end
      | Err e => Err e
      | Panic m => Panic m
      end
  end.

(** *** Sample archives *)

Definition sample_header (t : ascii) (n l : string) : Header * Z :=
  ({| Typeflag := t; Name := n; Linkname := l; Size := 0; Mode := 0 |}, 512).

(** The archive of [TestSymlinkedDirs], with a self-referential link added. *)
Definition sample_hdrs : list (Header * Z) :=
  [ sample_header TypeDir "usr" "";
    sample_header TypeDir "usr/bin" "";
    ({| Typeflag := TypeReg; Name := "usr/bin/binary"; Linkname := "";
        Size := 24; Mode := 0 |}, 1536);
    sample_header TypeDir "weird" "";
    sample_header TypeSymlink "weird/linked" "/usr/bin";
    sample_header TypeDir "weird/absolute" "";
    sample_header TypeSymlink "weird/absolute/binary" "/weird/linked/binary";
    sample_header TypeDir "weird/relative" "";
    sample_header TypeSymlink "weird/relative/binary" "../linked/binary";
    sample_header TypeSymlink "loop" "loop" ].

Definition empty_FS : FS := {| files := []; index := ∅; dirs := ∅ |}.

Definition FS_of (r : result FS) : FS :=
  match r with Ok fsys => fsys | _ => empty_FS end.

Definition sample_FS : FS := FS_of (New sample_hdrs None).

(** An archive in which the member [a] occurs twice, as after
    [tar --append] of a changed file. *)
Definition colliding_hdrs : list (Header * Z) :=
  [ ({| Typeflag := TypeReg; Name := "a"; Linkname := ""; Size := 1;
        Mode := 0 |}, 512);
    ({| Typeflag := TypeReg; Name := "a"; Linkname := ""; Size := 2;
        Mode := 0 |}, 1536) ].

Definition colliding_FS : FS := FS_of (New colliding_hdrs None).

(** The handle [Open(".")] returns. *)
Definition root_File : File :=
  {| fEntry := {| eHeader := {| Typeflag := "000"%char; Name := ".";
                                Linkname := ""; Size := 0; Mode := 0 |};
                  Offset := 0; Filename := "."; dir := "."; fi := root |};
     sr := (0, 0); cursor := 0 |}.

(** *** The rest of the package *)

(** [FS.Stat].  The entries of [fsys.files] are never nil: [New] and
    [Index] append addresses of fresh entries, and [Decode] dereferences
    every entry it is given. *)
Definition FS_Stat (fsys : FS) (name : string) : result FileInfo :=
  match index fsys !! name with
  | Some i =>
      if i <? 0 then Panic "index out of range"
      else match files fsys !! Z.to_nat i with
           | Some f => Ok (fi f)
           | None => Panic "index out of range"
           end
  | None => if String.eqb name "." then Ok root else Err ErrNotExist
  end.

(** [Index]: the loop of [New] without the index; [hdrs] and [fail] are as
    for [New]. *)
Definition Index (hdrs : list (Header * Z)) (fail : option error)
  : result (list Entry) :=
  let files :=
    fold_left (fun (files : list Entry) (next : Header * Z) =>
                 files ++
                 [{| eHeader := fst next; Offset := snd next;
                     Filename := normalize (Name (fst next));
                     dir := Dir (normalize (Name (fst next)));
                     fi := headerFileInfo (fst next) |}])
              hdrs [] in
  match fail with
  | Some err => Err err
  | None => Ok files
  end.

(** The members of an archive that [New] files under [name]. *)
Definition named (name : string) (hdrs : list (Header * Z))
  : list (Header * Z) :=
  filter (fun next => normalize (Name (fst next)) = name) hdrs.

End Tarfs.

(** ** Package flate: the checkpointing DEFLATE decoder *)

Module Flate.

(** Byte slices live in a store of arrays; a slice value is the address of
    its backing array, so that two slices over one array are seen to share
    it and a copy into a fresh array is seen not to. *)
Definition loc : Type := nat.

(** 64-bit two's complement wrap-around of Go's [int64] arithmetic. *)
Definition wrap64 (z : Z) : Z := (z + 2 ^ 63) mod 2 ^ 64 - 2 ^ 63.

(** [Header]: the optional gzip header a checkpoint may carry. *)
Record Header : Type := mkHeader {
  Comment : string;
  Extra : list Z;
  ModTime : option Z;
  Name : string;
  OS : option Z
}.

(** [Checkpoint] *)
Record Checkpoint : Type := mkCheckpoint {
  In : Z;
  Out : Z;
  B : Z;
  NB : Z;
  Hist : loc;
  WrPos : Z;
  RdPos : Z;
  Full : bool;
  Empty : bool;
  GzipHeader : option Header
}.


(** *** Fixed-width integers *)

Definition uint8 (z : Z) : Z := z mod 2 ^ 8.
Definition uint16 (z : Z) : Z := z mod 2 ^ 16.
Definition uint32 (z : Z) : Z := z mod 2 ^ 32.

Fixpoint reverse_bits (w : nat) (x acc : Z) : Z :=
  match w with
  | O => acc
  | S w' => reverse_bits w' (Z.shiftr x 1) (Z.lor (Z.shiftl acc 1) (Z.land x 1))
  end.

(** [bits.Reverse16], [bits.Reverse8] *)
Definition Reverse16 (x : Z) : Z := reverse_bits 16 (uint16 x) 0.
Definition Reverse8 (x : Z) : Z := reverse_bits 8 (uint8 x) 0.

(** *** Panics and arrays

    Computations that can panic are in the [result] monad; an index outside
    an array or slice panics, as in Go. *)

#[global] Instance result_ret : MRet result := fun A a => Ok a.
#[global] Instance result_bind : MBind result := fun A B k m =>
  match m with
  | Ok a => k a
  | Err e => Err e
  | Panic msg => Panic msg
  end.

Definition at_index {A} (l : list A) (i : Z) : result A :=
  if i <? 0 then Panic "index out of range"
  else match l !! Z.to_nat i with
       | Some x => Ok x
       | None => Panic "index out of range"
       end.

Definition set_index {A} (l : list A) (i : Z) (x : A) : result (list A) :=
  if (0 <=? i) && (i <? Z.of_nat (length l))
  then Ok (<[Z.to_nat i := x]> l)
  else Panic "index out of range".

(** *** Constants *)

Definition endBlockMarker : Z := 256.
Definition maxMatchOffset : Z := 32768.
Definition maxCodeLen : Z := 16.
Definition maxNumLit : Z := 286.
Definition maxNumDist : Z := 30.
Definition numCodes : Z := 19.
Definition huffmanChunkBits : Z := 9.
Definition huffmanNumChunks : Z := 512.
Definition huffmanCountMask : Z := 15.
Definition huffmanValueShift : Z := 4.

(** [huffmanDecoder.init] is compiled with [const sanity = true]. *)
Definition sanity : bool := true.

(** *** The Huffman decoding tables *)

Record huffmanDecoder : Type := mkHuffman {
  hmin : Z;
  chunks : list Z;
  links : list (list Z);
  linkMask : Z
}.

(** The zero value [huffmanDecoder{}]. *)
Definition zero_huffmanDecoder : huffmanDecoder :=
  {| hmin := 0; chunks := repeat 0 (Z.to_nat huffmanNumChunks); links := [];
     linkMask := 0 |}.

(** The first loop of [init]: the number of codes of each length, and the
    minimum and maximum length. *)
Fixpoint init_count (lengths : list Z) (count : list Z) (min max : Z)
  : result (list Z * Z * Z) :=
  match lengths with
  | [] => Ok (count, min, max)
  | n :: lengths' =>
      if n =? 0 then init_count lengths' count min max
      else
        let min := if (min =? 0) || (n <? min) then n else min in
        let max := if n >? max then n else max in
        c ← at_index count n;
        count ← set_index count n (c + 1);
        init_count lengths' count min max
  end.

(** [for i := min; i <= max; i++ { code <<= 1; nextcode[i] = code;
    code += count[i] }], over the values [ivals] of [i]. *)
Fixpoint init_nextcode (ivals : list Z) (count nextcode : list Z) (code : Z)
  : result (list Z * Z) :=
  match ivals with
  | [] => Ok (nextcode, code)
  | i :: ivals' =>
      let code := Z.shiftl code 1 in
      nextcode ← set_index nextcode i code;
      c ← at_index count i;
      init_nextcode ivals' count nextcode (code + c)
  end.

(** The loop that creates the link tables, over the values [js] of [j]. *)
Fixpoint init_links (js : list Z) (link numLinks : Z) (h : huffmanDecoder)
  : result huffmanDecoder :=
  match js with
  | [] => Ok h
  | j :: js' =>
      let reverse := Z.shiftr (Reverse16 j) (16 - huffmanChunkBits) in
      let off := j - link in
      c ← at_index (chunks h) reverse;
      if sanity && negb (c =? 0)
      then Panic "impossible: overwriting existing chunk"
      else
        chunks' ← set_index (chunks h) reverse
                    (uint32 (Z.lor (Z.shiftl off huffmanValueShift)
                                   (huffmanChunkBits + 1)));
        links' ← set_index (links h) off (repeat 0 (Z.to_nat numLinks));
        init_links js' link numLinks
          {| hmin := hmin h; chunks := chunks'; links := links';
             linkMask := linkMask h |}
  end.

(** [for off := reverse; off < len(tab); off += step { tab[off] = chunk }],
    with the sanity check; [fuel] bounds the number of rounds. *)
Fixpoint init_fill (fuel : nat) (tab : list Z) (off step chunk : Z)
  : result (list Z) :=
  match fuel with
  | O => Ok tab
  | S fuel' =>
      if off <? Z.of_nat (length tab) then
        c ← at_index tab off;
        if sanity && negb (c =? 0)
        then Panic "impossible: overwriting existing chunk"
        else
          tab' ← set_index tab off chunk;
          init_fill fuel' tab' (off + step) step chunk
      else Ok tab
  end.

(** The main loop of [init], over the symbols [i] and their lengths [n]. *)
Fixpoint init_codes (lengths : list Z) (i : Z) (nextcode : list Z)
  (h : huffmanDecoder) : result huffmanDecoder :=
  match lengths with
  | [] => Ok h
  | n :: lengths' =>
      if n =? 0 then init_codes lengths' (i + 1) nextcode h
      else
        code ← at_index nextcode n;
        nextcode ← set_index nextcode n (code + 1);
        let chunk := uint32 (Z.lor (Z.shiftl i huffmanValueShift) n) in
        let reverse := Z.shiftr (Reverse16 code) (16 - n) in
        if n <=? huffmanChunkBits then
          chunks' ← init_fill (length (chunks h)) (chunks h) reverse
                      (Z.shiftl 1 n) chunk;
          init_codes lengths' (i + 1) nextcode
            {| hmin := hmin h; chunks := chunks'; links := links h;
               linkMask := linkMask h |}
        else
          let j := Z.land reverse (huffmanNumChunks - 1) in
          cj ← at_index (chunks h) j;
          if sanity && negb (Z.land cj huffmanCountMask =? huffmanChunkBits + 1)
          then Panic "impossible: not an indirect chunk"
          else
            let value := Z.shiftr cj huffmanValueShift in
            linktab ← at_index (links h) value;
            let reverse := Z.shiftr reverse huffmanChunkBits in
            linktab' ← init_fill (length linktab) linktab reverse
                         (Z.shiftl 1 (n - huffmanChunkBits)) chunk;
            links' ← set_index (links h) value linktab';
            init_codes lengths' (i + 1) nextcode
              {| hmin := hmin h; chunks := chunks h; links := links';
                 linkMask := linkMask h |}
  end.

(** The closing sanity loops of [init]. *)
Fixpoint init_check_chunks (cs : list Z) (i : Z) (code : Z) : result unit :=
  match cs with
  | [] => Ok tt
  | chunk :: cs' =>
      if (chunk =? 0) && negb ((code =? 1) && (i mod 2 =? 1))
      then Panic "impossible: missing chunk"
      else init_check_chunks cs' (i + 1) code
  end.

Fixpoint init_check_links (ls : list (list Z)) : result unit :=
  match ls with
  | [] => Ok tt
  | linktab :: ls' =>
      if existsb (fun chunk => chunk =? 0) linktab
      then Panic "impossible: missing chunk"
      else init_check_links ls'
  end.

(** [huffmanDecoder.init]: the value returned and the decoder afterwards,
    or the panic. *)
Definition init (h : huffmanDecoder) (lengths : list Z)
  : result (bool * huffmanDecoder) :=
  let h := if negb (hmin h =? 0) then zero_huffmanDecoder else h in
  '(count, min, max) ← init_count lengths (repeat 0 (Z.to_nat maxCodeLen)) 0 0;
  if max =? 0 then Ok (true, h)
  else
    '(nextcode, code) ← init_nextcode (seqZ min (max - min + 1)) count
                          (repeat 0 (Z.to_nat maxCodeLen)) 0;
    if negb (code =? Z.shiftl 1 max) && negb ((code =? 1) && (max =? 1))
    then (if sanity then Panic "coding incomplete" else Ok (false, h))
    else
      let h := {| hmin := min; chunks := chunks h; links := links h;
                  linkMask := linkMask h |} in
      h ← (if max >? huffmanChunkBits then
             let numLinks := Z.shiftl 1 (max - huffmanChunkBits) in
             link0 ← at_index nextcode (huffmanChunkBits + 1);
             let link := Z.shiftr link0 1 in
             if huffmanNumChunks - link <? 0
             then Panic "makeslice: len out of range"
             else
               init_links (seqZ link (huffmanNumChunks - link)) link numLinks
                 {| hmin := hmin h; chunks := chunks h;
                    links := repeat [] (Z.to_nat (huffmanNumChunks - link));
                    linkMask := uint32 (numLinks - 1) |}
           else Ok h);
      h ← init_codes lengths 0 nextcode h;
      _ ← (if sanity then
             _ ← init_check_chunks (chunks h) 0 code;
             init_check_links (links h)
           else Ok tt);
      Ok (true, h).


(** *** The decoder state *)

(** [dictDecoder]; [hist] is the address of the window's array. *)
Record dictDecoder : Type := mkDict {
  hist : loc;
  wrPos : Z;
  rdPos : Z;
  full : bool
}.

(** The three methods [f.step] can hold. *)
Inductive step_fn : Type :=
| step_nextBlock
| step_huffmanBlock
| step_copyData.

(** What [f.hl] and [f.hd] can point to. *)
Inductive huffman_ref : Type :=
| ref_nil
| ref_fixed
| ref_h1
| ref_h2.

(** [Decompressor].  [r] is the input that the reader [f.r] has yet to
    deliver (it ends with [io.EOF]); [toRead] is a slice of the window,
    kept as its two bounds; [updates] tells whether the channel is
    non-nil. *)
Record Decompressor : Type := mkDecompressor {
  r : list Z;
  roffset : Z;
  woffset : Z;
  b : Z;
  nb : Z;
  h1 : huffmanDecoder;
  h2 : huffmanDecoder;
  bits : list Z;
  codebits : list Z;
  dict : dictDecoder;
  buf : list Z;
  step : step_fn;
  stepState : Z;
  final : bool;
  err : option error;
  toRead : Z * Z;
  hl : huffman_ref;
  hd : huffman_ref;
  copyLen : Z;
  copyDist : Z;
  span : Z;
  last : Z;
  updates : bool
}.

(** Field updates. *)
Definition set_hist (v : loc) (x : dictDecoder) : dictDecoder :=
  {| hist := v; wrPos := wrPos x; rdPos := rdPos x; full := full x |}.
Definition set_wrPos (v : Z) (x : dictDecoder) : dictDecoder :=
  {| hist := hist x; wrPos := v; rdPos := rdPos x; full := full x |}.
Definition set_rdPos (v : Z) (x : dictDecoder) : dictDecoder :=
  {| hist := hist x; wrPos := wrPos x; rdPos := v; full := full x |}.
Definition set_full (v : bool) (x : dictDecoder) : dictDecoder :=
  {| hist := hist x; wrPos := wrPos x; rdPos := rdPos x; full := v |}.
Definition set_r (v : list Z) (x : Decompressor) : Decompressor :=
  {| r := v; roffset := roffset x; woffset := woffset x; b := b x; nb := nb
  x; h1 := h1 x; h2 := h2 x; bits := bits x; codebits := codebits x; dict :=
  dict x; buf := buf x; step := step x; stepState := stepState x; final :=
  final x; err := err x; toRead := toRead x; hl := hl x; hd := hd x; copyLen
  := copyLen x; copyDist := copyDist x; span := span x; last := last x;
  updates := updates x |}.
Definition set_roffset (v : Z) (x : Decompressor) : Decompressor :=
  {| r := r x; roffset := v; woffset := woffset x; b := b x; nb := nb x; h1
  := h1 x; h2 := h2 x; bits := bits x; codebits := codebits x; dict := dict
  x; buf := buf x; step := step x; stepState := stepState x; final := final
  x; err := err x; toRead := toRead x; hl := hl x; hd := hd x; copyLen :=
  copyLen x; copyDist := copyDist x; span := span x; last := last x; updates
  := updates x |}.
Definition set_woffset (v : Z) (x : Decompressor) : Decompressor :=
  {| r := r x; roffset := roffset x; woffset := v; b := b x; nb := nb x; h1
  := h1 x; h2 := h2 x; bits := bits x; codebits := codebits x; dict := dict
  x; buf := buf x; step := step x; stepState := stepState x; final := final
  x; err := err x; toRead := toRead x; hl := hl x; hd := hd x; copyLen :=
  copyLen x; copyDist := copyDist x; span := span x; last := last x; updates
  := updates x |}.
Definition set_b (v : Z) (x : Decompressor) : Decompressor :=
  {| r := r x; roffset := roffset x; woffset := woffset x; b := v; nb := nb
  x; h1 := h1 x; h2 := h2 x; bits := bits x; codebits := codebits x; dict :=
  dict x; buf := buf x; step := step x; stepState := stepState x; final :=
  final x; err := err x; toRead := toRead x; hl := hl x; hd := hd x; copyLen
  := copyLen x; copyDist := copyDist x; span := span x; last := last x;
  updates := updates x |}.
Definition set_nb (v : Z) (x : Decompressor) : Decompressor :=
  {| r := r x; roffset := roffset x; woffset := woffset x; b := b x; nb :=
  v; h1 := h1 x; h2 := h2 x; bits := bits x; codebits := codebits x; dict :=
  dict x; buf := buf x; step := step x; stepState := stepState x; final :=
  final x; err := err x; toRead := toRead x; hl := hl x; hd := hd x; copyLen
  := copyLen x; copyDist := copyDist x; span := span x; last := last x;
  updates := updates x |}.
Definition set_h1 (v : huffmanDecoder) (x : Decompressor) : Decompressor :=
  {| r := r x; roffset := roffset x; woffset := woffset x; b := b x; nb :=
  nb x; h1 := v; h2 := h2 x; bits := bits x; codebits := codebits x; dict :=
  dict x; buf := buf x; step := step x; stepState := stepState x; final :=
  final x; err := err x; toRead := toRead x; hl := hl x; hd := hd x; copyLen
  := copyLen x; copyDist := copyDist x; span := span x; last := last x;
  updates := updates x |}.
Definition set_h2 (v : huffmanDecoder) (x : Decompressor) : Decompressor :=
  {| r := r x; roffset := roffset x; woffset := woffset x; b := b x; nb :=
  nb x; h1 := h1 x; h2 := v; bits := bits x; codebits := codebits x; dict :=
  dict x; buf := buf x; step := step x; stepState := stepState x; final :=
  final x; err := err x; toRead := toRead x; hl := hl x; hd := hd x; copyLen
  := copyLen x; copyDist := copyDist x; span := span x; last := last x;
  updates := updates x |}.
Definition set_bits (v : list Z) (x : Decompressor) : Decompressor :=
  {| r := r x; roffset := roffset x; woffset := woffset x; b := b x; nb :=
  nb x; h1 := h1 x; h2 := h2 x; bits := v; codebits := codebits x; dict :=
  dict x; buf := buf x; step := step x; stepState := stepState x; final :=
  final x; err := err x; toRead := toRead x; hl := hl x; hd := hd x; copyLen
  := copyLen x; copyDist := copyDist x; span := span x; last := last x;
  updates := updates x |}.
Definition set_codebits (v : list Z) (x : Decompressor) : Decompressor :=
  {| r := r x; roffset := roffset x; woffset := woffset x; b := b x; nb :=
  nb x; h1 := h1 x; h2 := h2 x; bits := bits x; codebits := v; dict := dict
  x; buf := buf x; step := step x; stepState := stepState x; final := final
  x; err := err x; toRead := toRead x; hl := hl x; hd := hd x; copyLen :=
  copyLen x; copyDist := copyDist x; span := span x; last := last x; updates
  := updates x |}.
Definition set_dict (v : dictDecoder) (x : Decompressor) : Decompressor :=
  {| r := r x; roffset := roffset x; woffset := woffset x; b := b x; nb :=
  nb x; h1 := h1 x; h2 := h2 x; bits := bits x; codebits := codebits x; dict
  := v; buf := buf x; step := step x; stepState := stepState x; final :=
  final x; err := err x; toRead := toRead x; hl := hl x; hd := hd x; copyLen
  := copyLen x; copyDist := copyDist x; span := span x; last := last x;
  updates := updates x |}.
Definition set_buf (v : list Z) (x : Decompressor) : Decompressor :=
  {| r := r x; roffset := roffset x; woffset := woffset x; b := b x; nb :=
  nb x; h1 := h1 x; h2 := h2 x; bits := bits x; codebits := codebits x; dict
  := dict x; buf := v; step := step x; stepState := stepState x; final :=
  final x; err := err x; toRead := toRead x; hl := hl x; hd := hd x; copyLen
  := copyLen x; copyDist := copyDist x; span := span x; last := last x;
  updates := updates x |}.
Definition set_step (v : step_fn) (x : Decompressor) : Decompressor :=
  {| r := r x; roffset := roffset x; woffset := woffset x; b := b x; nb :=
  nb x; h1 := h1 x; h2 := h2 x; bits := bits x; codebits := codebits x; dict
  := dict x; buf := buf x; step := v; stepState := stepState x; final :=
  final x; err := err x; toRead := toRead x; hl := hl x; hd := hd x; copyLen
  := copyLen x; copyDist := copyDist x; span := span x; last := last x;
  updates := updates x |}.
Definition set_stepState (v : Z) (x : Decompressor) : Decompressor :=
  {| r := r x; roffset := roffset x; woffset := woffset x; b := b x; nb :=
  nb x; h1 := h1 x; h2 := h2 x; bits := bits x; codebits := codebits x; dict
  := dict x; buf := buf x; step := step x; stepState := v; final := final x;
  err := err x; toRead := toRead x; hl := hl x; hd := hd x; copyLen :=
  copyLen x; copyDist := copyDist x; span := span x; last := last x; updates
  := updates x |}.
Definition set_final (v : bool) (x : Decompressor) : Decompressor :=
  {| r := r x; roffset := roffset x; woffset := woffset x; b := b x; nb :=
  nb x; h1 := h1 x; h2 := h2 x; bits := bits x; codebits := codebits x; dict
  := dict x; buf := buf x; step := step x; stepState := stepState x; final
  := v; err := err x; toRead := toRead x; hl := hl x; hd := hd x; copyLen :=
  copyLen x; copyDist := copyDist x; span := span x; last := last x; updates
  := updates x |}.
Definition set_err (v : option error) (x : Decompressor) : Decompressor :=
  {| r := r x; roffset := roffset x; woffset := woffset x; b := b x; nb :=
  nb x; h1 := h1 x; h2 := h2 x; bits := bits x; codebits := codebits x; dict
  := dict x; buf := buf x; step := step x; stepState := stepState x; final
  := final x; err := v; toRead := toRead x; hl := hl x; hd := hd x; copyLen
  := copyLen x; copyDist := copyDist x; span := span x; last := last x;
  updates := updates x |}.
Definition set_toRead (v : Z * Z) (x : Decompressor) : Decompressor :=
  {| r := r x; roffset := roffset x; woffset := woffset x; b := b x; nb :=
  nb x; h1 := h1 x; h2 := h2 x; bits := bits x; codebits := codebits x; dict
  := dict x; buf := buf x; step := step x; stepState := stepState x; final
  := final x; err := err x; toRead := v; hl := hl x; hd := hd x; copyLen :=
  copyLen x; copyDist := copyDist x; span := span x; last := last x; updates
  := updates x |}.
Definition set_hl (v : huffman_ref) (x : Decompressor) : Decompressor :=
  {| r := r x; roffset := roffset x; woffset := woffset x; b := b x; nb :=
  nb x; h1 := h1 x; h2 := h2 x; bits := bits x; codebits := codebits x; dict
  := dict x; buf := buf x; step := step x; stepState := stepState x; final
  := final x; err := err x; toRead := toRead x; hl := v; hd := hd x; copyLen
  := copyLen x; copyDist := copyDist x; span := span x; last := last x;
  updates := updates x |}.
Definition set_hd (v : huffman_ref) (x : Decompressor) : Decompressor :=
  {| r := r x; roffset := roffset x; woffset := woffset x; b := b x; nb :=
  nb x; h1 := h1 x; h2 := h2 x; bits := bits x; codebits := codebits x; dict
  := dict x; buf := buf x; step := step x; stepState := stepState x; final
  := final x; err := err x; toRead := toRead x; hl := hl x; hd := v; copyLen
  := copyLen x; copyDist := copyDist x; span := span x; last := last x;
  updates := updates x |}.
Definition set_copyLen (v : Z) (x : Decompressor) : Decompressor :=
  {| r := r x; roffset := roffset x; woffset := woffset x; b := b x; nb :=
  nb x; h1 := h1 x; h2 := h2 x; bits := bits x; codebits := codebits x; dict
  := dict x; buf := buf x; step := step x; stepState := stepState x; final
  := final x; err := err x; toRead := toRead x; hl := hl x; hd := hd x;
  copyLen := v; copyDist := copyDist x; span := span x; last := last x;
  updates := updates x |}.
Definition set_copyDist (v : Z) (x : Decompressor) : Decompressor :=
  {| r := r x; roffset := roffset x; woffset := woffset x; b := b x; nb :=
  nb x; h1 := h1 x; h2 := h2 x; bits := bits x; codebits := codebits x; dict
  := dict x; buf := buf x; step := step x; stepState := stepState x; final
  := final x; err := err x; toRead := toRead x; hl := hl x; hd := hd x;
  copyLen := copyLen x; copyDist := v; span := span x; last := last x;
  updates := updates x |}.
Definition set_last (v : Z) (x : Decompressor) : Decompressor :=
  {| r := r x; roffset := roffset x; woffset := woffset x; b := b x; nb :=
  nb x; h1 := h1 x; h2 := h2 x; bits := bits x; codebits := codebits x; dict
  := dict x; buf := buf x; step := step x; stepState := stepState x; final
  := final x; err := err x; toRead := toRead x; hl := hl x; hd := hd x;
  copyLen := copyLen x; copyDist := copyDist x; span := span x; last := v;
  updates := updates x |}.

(** The world a decoder runs in: the decoder, the store of byte arrays, and
    the checkpoints sent on the [updates] channel so far, oldest first. *)
Record World : Type := mkWorld {
  dec : Decompressor;
  heap : gmap loc (list Z);
  chan : list Checkpoint
}.

(** Methods of [*Decompressor] are state transformers that may panic. *)
Definition M (A : Type) : Type := World -> result (A * World).

#[global] Instance M_ret : MRet M := fun A a w => Ok (a, w).
#[global] Instance M_bind : MBind M := fun A B k m w =>
  match m w with
  | Ok (a, w') => k a w'
  | Err e => Err e
  | Panic msg => Panic msg
  end.

Definition panic {A} (msg : string) : M A := fun _ => Panic msg.

(** Reading and updating the decoder. *)
Definition gets {A} (p : Decompressor -> A) : M A := fun w => Ok (p (dec w), w).

Definition modify (g : Decompressor -> Decompressor) : M unit :=
  fun w => Ok (tt, {| dec := g (dec w); heap := heap w; chan := chan w |}).

(** A pure computation that may panic, run as a method. *)
Definition lift {A} (x : result A) : M A := fun w =>
  match x with
  | Ok a => Ok (a, w)
  | Err e => Err e
  | Panic msg => Panic msg
  end.

(** The array at an address, and its replacement. *)
Definition load (a : loc) : M (list Z) := fun w =>
  match heap w !! a with
  | Some l => Ok (l, w)
  | None => Panic "nil slice"
  end.

Definition store (a : loc) (l : list Z) : M unit := fun w =>
  Ok (tt, {| dec := dec w; heap := <[a := l]> (heap w); chan := chan w |}).

(** [make([]byte, n)]: a fresh array of zeros. *)
Definition make (n : Z) : M loc := fun w =>
  let a := fresh (dom (heap w)) in
  Ok (a, {| dec := dec w; heap := <[a := repeat 0 (Z.to_nat n)]> (heap w);
            chan := chan w |}).

(** [f.updates <- checkpoint] *)
Definition send (checkpoint : Checkpoint) : M unit := fun w =>
  Ok (tt, {| dec := dec w; heap := heap w; chan := chan w ++ [checkpoint] |}).

Definition is_Some_b {A} (o : option A) : bool :=
  match o with Some _ => true | None => false end.

(** The code lengths of the fixed Huffman code (RFC 1951, section 3.2.6),
    and [fixedHuffmanDecoder] as [fixedHuffmanDecoderInit] leaves it. *)
Definition fixed_lengths : list Z :=
  repeat 8 144 ++ repeat 9 112 ++ repeat 7 24 ++ repeat 8 8.

Definition fixedHuffmanDecoder : huffmanDecoder :=
  Eval vm_compute in
    match init zero_huffmanDecoder fixed_lengths with
    | Ok (_, h) => h
    | _ => zero_huffmanDecoder
    end.

(** *** The sliding window

    Modelled from the spec: dict_decoder.go is not among the sources.  The
    window is the "32 KiB circular buffer with byte-wise and fast-copy
    paths" of section 4.1, with the cursor [wr_pos], [rd_pos], [full] of
    section 3, and the fields [finishBlock] and [Continue] read.  Its
    methods are the ones the decoder calls; they behave as those of the
    standard library's dictDecoder, of which the package is a copy. *)

Definition gets_dict {A} (p : dictDecoder -> A) : M A :=
  gets (fun f => p (dict f)).

Definition modify_dict (g : dictDecoder -> dictDecoder) : M unit :=
  modify (fun f => set_dict (g (dict f)) f).

(** [len(dd.hist)] *)
Definition hist_len : M Z :=
  a ← gets_dict hist;
  h ← load a;
  mret (Z.of_nat (length h)).

(** [dd.histSize()] *)
Definition histSize : M Z :=
  fl ← gets_dict full;
  if fl : bool then hist_len else gets_dict wrPos.

(** [dd.availRead()] *)
Definition availRead : M Z :=
  wr ← gets_dict wrPos;
  rd ← gets_dict rdPos;
  mret (wr - rd).

(** [dd.availWrite()] *)
Definition availWrite : M Z :=
  n ← hist_len;
  wr ← gets_dict wrPos;
  mret (n - wr).

(** [dd.writeByte(c)] *)
Definition writeByte (c : Z) : M unit :=
  a ← gets_dict hist;
  h ← load a;
  wr ← gets_dict wrPos;
  h' ← lift (set_index h wr c);
  store a h';;
  modify_dict (set_wrPos (wr + 1)).

(** [copy(h[dlo:dhi], h[slo:shi])] inside one array: the array afterwards
    and the number of bytes copied. *)
Definition copy_within (h : list Z) (dlo dhi slo shi : Z)
  : result (list Z * Z) :=
  if (0 <=? dlo) && (dlo <=? dhi) && (dhi <=? Z.of_nat (length h)) &&
     (0 <=? slo) && (slo <=? shi) && (shi <=? Z.of_nat (length h))
  then
    let n := Z.min (dhi - dlo) (shi - slo) in
    Ok (take (Z.to_nat dlo) h ++
        take (Z.to_nat n) (drop (Z.to_nat slo) h) ++
        drop (Z.to_nat (dlo + n)) h, n)
  else Panic "slice bounds out of range".

(** [for dstPos < endPos { dstPos += copy(dd.hist[dstPos:endPos],
    dd.hist[srcPos:dstPos]) }].  Every round copies at least one byte when
    [srcPos < dstPos], so [endPos - dstPos] rounds suffice; with
    [srcPos = dstPos] the Go loop would not end, and the bound is hit. *)
Fixpoint copy_forward (fuel : nat) (h : list Z) (dstPos endPos srcPos : Z)
  : result (list Z * Z) :=
  if dstPos <? endPos then
    match fuel with
    | O => Panic "loop bound"
    | S fuel' =>
        '(h', n) ← copy_within h dstPos endPos srcPos dstPos;
        copy_forward fuel' h' (dstPos + n) endPos srcPos
    end
  else Ok (h, dstPos).

(** [dd.writeCopy(dist, length)] *)
Definition writeCopy (dist length : Z) : M Z :=
  a ← gets_dict hist;
  h ← load a;
  dstBase ← gets_dict wrPos;
  let dstPos := dstBase in
  let srcPos := dstPos - dist in
  let endPos := dstPos + length in
  let endPos := if endPos >? Z.of_nat (Datatypes.length h)
                then Z.of_nat (Datatypes.length h) else endPos in
  '(h, dstPos, srcPos) ←
    (if srcPos <? 0 then
       let srcPos := srcPos + Z.of_nat (Datatypes.length h) in
       '(h', n) ← lift (copy_within h dstPos endPos srcPos
                          (Z.of_nat (Datatypes.length h)));
       mret (h', dstPos + n, 0)
     else mret (h, dstPos, srcPos));
  '(h, dstPos) ← lift (copy_forward (Z.to_nat (endPos - dstPos)) h dstPos
                         endPos srcPos);
  store a h;;
  modify_dict (set_wrPos dstPos);;
  mret (dstPos - dstBase).

(** [dd.tryWriteCopy(dist, length)] *)
Definition tryWriteCopy (dist length : Z) : M Z :=
  a ← gets_dict hist;
  h ← load a;
  dstPos ← gets_dict wrPos;
  let endPos := dstPos + length in
  if (dstPos <? dist) || (endPos >? Z.of_nat (Datatypes.length h))
  then mret 0
  else
    let dstBase := dstPos in
    let srcPos := dstPos - dist in
    '(h, dstPos) ← lift (copy_forward (Z.to_nat (endPos - dstPos)) h dstPos
                           endPos srcPos);
    store a h;;
    modify_dict (set_wrPos dstPos);;
    mret (dstPos - dstBase).

(** [dd.readFlush()]: the slice [dd.hist[dd.rdPos:dd.wrPos]], as its
    bounds. *)
Definition readFlush : M (Z * Z) :=
  n ← hist_len;
  rd ← gets_dict rdPos;
  wr ← gets_dict wrPos;
  if (0 <=? rd) && (rd <=? wr) && (wr <=? n) then
    modify_dict (set_rdPos wr);;
    (if wr =? n
     then modify_dict (fun dd => set_full true (set_rdPos 0 (set_wrPos 0 dd)))
     else mret tt);;
    mret (rd, wr)
  else panic "slice bounds out of range".

(** [len(f.toRead)] *)
Definition toRead_len (f : Decompressor) : Z := snd (toRead f) - fst (toRead f).

(** *** The decoder *)

(** [noEOF] *)
Definition noEOF (e : error) : error :=
  match e with
  | EOF => ErrUnexpectedEOF
  | _ => e
  end.

(** [f.moreBits()] *)
Definition moreBits : M (option error) :=
  inp ← gets r;
  match inp with
  | [] => mret (Some (noEOF EOF))
  | c :: inp' =>
      modify (set_r inp');;
      modify (fun f => set_roffset (wrap64 (roffset f + 1)) f);;
      modify (fun f => set_b (Z.lor (b f) (uint32 (Z.shiftl c (nb f)))) f);;
      modify (fun f => set_nb (nb f + 8) f);;
      mret None
  end.

(** [for f.nb < k { if err := f.moreBits(); err != nil { return err } }];
    every round adds eight bits. *)
Fixpoint fill_bits (fuel : nat) (k : Z) : M (option error) :=
  have ← gets nb;
  if have <? k then
    match fuel with
    | O => panic "loop bound"
    | S fuel' =>
        e ← moreBits;
        match e with
        | Some err => mret (Some err)
        | None => fill_bits fuel' k
        end
    end
  else mret None.

Definition need_bits (k : Z) : M (option error) :=
  fill_bits (Z.to_nat k) k.

(** [f.b & (1<<k - 1)], then [f.b >>= k; f.nb -= k]. *)
Definition take_bits (k : Z) : M Z :=
  v ← gets (fun f => Z.land (b f) (uint32 (Z.shiftl 1 k - 1)));
  modify (fun f => set_b (Z.shiftr (b f) k) f);;
  modify (fun f => set_nb (nb f - k) f);;
  mret v.

(** The decoder a [*huffmanDecoder] points to. *)
Definition deref (p : huffman_ref) : M huffmanDecoder :=
  match p with
  | ref_nil => panic "nil pointer dereference"
  | ref_fixed => mret fixedHuffmanDecoder
  | ref_h1 => gets h1
  | ref_h2 => gets h2
  end.

(** The inner loop of [huffSym]: [for nb < n { ... ReadByte ... }].  It
    returns the error, if any, with the local [nb] and [b]. *)
Fixpoint huffSym_fill (fuel : nat) (n nb0 b0 : Z) : M (option error * Z * Z) :=
  if nb0 <? n then
    match fuel with
    | O => panic "loop bound"
    | S fuel' =>
        inp ← gets r;
        match inp with
        | [] => mret (Some (noEOF EOF), nb0, b0)
        | c :: inp' =>
            modify (set_r inp');;
            modify (fun f => set_roffset (wrap64 (roffset f + 1)) f);;
            huffSym_fill fuel' n (nb0 + 8)
              (Z.lor b0 (uint32 (Z.shiftl c (Z.land nb0 31))))
        end
    end
  else mret (None, nb0, b0).

(** The outer loop of [huffSym]. *)
Fixpoint huffSym_loop (fuel : nat) (h : huffmanDecoder) (n nb0 b0 : Z)
  : M (Z * option error) :=
  match fuel with
  | O => panic "loop bound"
  | S fuel' =>
      '(e, nb0, b0) ← huffSym_fill (Z.to_nat n) n nb0 b0;
      match e with
      | Some err =>
          modify (set_b b0);; modify (set_nb nb0);;
          mret (0, Some err)
      | None =>
          chunk ← lift (at_index (chunks h) (Z.land b0 (huffmanNumChunks - 1)));
          let n := Z.land chunk huffmanCountMask in
          '(chunk, n) ←
            (if n >? huffmanChunkBits then
               linktab ← lift (at_index (links h) (Z.shiftr chunk huffmanValueShift));
               chunk ← lift (at_index linktab
                               (Z.land (Z.shiftr b0 huffmanChunkBits) (linkMask h)));
               mret (chunk, Z.land chunk huffmanCountMask)
             else mret (chunk, n));
          if n <=? nb0 then
            if n =? 0 then
              modify (set_b b0);; modify (set_nb nb0);;
              off ← gets roffset;
              modify (set_err (Some (CorruptInputError off)));;
              mret (0, Some (CorruptInputError off))
            else
              modify (set_b (Z.shiftr b0 (Z.land n 31)));;
              modify (set_nb (nb0 - n));;
              mret (Z.shiftr chunk huffmanValueShift, None)
          else huffSym_loop fuel' h n nb0 b0
      end
  end.

(** [f.huffSym(h)] *)
Definition huffSym (p : huffman_ref) : M (Z * option error) :=
  h ← deref p;
  nb0 ← gets nb;
  b0 ← gets b;
  huffSym_loop 4 h (hmin h) nb0 b0.

(** [f.finishBlock()], in its two parts.  The first flushes the window at
    the end of the final block and returns the local [woffset]. *)
Definition finishBlock_flush : M Z :=
  woffset0 ← gets woffset;
  fin ← gets final;
  if fin : bool then
    avail ← availRead;
    w ← (if avail >? 0 then
           tr ← readFlush;
           modify (set_toRead tr);;
           mret (wrap64 (woffset0 + (snd tr - fst tr)))
         else mret woffset0);
    modify (set_err (Some EOF));;
    mret w
  else mret woffset0.

(** The second sends the checkpoint:
    [if f.updates != nil && woffset-f.last > f.span { ... }]. *)
Definition finishBlock_send (woffset1 : Z) : M unit :=
  up ← gets updates;
  lst ← gets last;
  sp ← gets span;
  if (up : bool) && (wrap64 (woffset1 - lst) >? sp) then
    a ← gets_dict hist;
    h ← load a;
    c ← make (Z.of_nat (length h));
    store c h;;
    f ← gets id;
    let checkpoint :=
      {| In := roffset f; Out := woffset1; B := b f; NB := nb f; Hist := c;
         WrPos := wrPos (dict f); RdPos := rdPos (dict f);
         Full := full (dict f); Empty := false; GzipHeader := None |} in
    send checkpoint;;
    modify (set_last (Out checkpoint))
  else mret tt.

Definition finishBlock : M unit :=
  woffset1 ← finishBlock_flush;
  finishBlock_send woffset1;;
  modify (set_step step_nextBlock).

(** [io.ReadFull(f.r, buf)] for [len(buf) = n]: the bytes read and the
    error. *)
Definition ReadFull_input (n : Z) : M (list Z * option error) :=
  inp ← gets r;
  let got := take (Z.to_nat n) inp in
  modify (set_r (drop (Z.to_nat n) inp));;
  mret (got,
        if Z.of_nat (length got) <? n
        then Some (match got with [] => EOF | _ => ErrUnexpectedEOF end)
        else None).

(** [f.copyData()] *)
Definition copyData : M unit :=
  a ← gets_dict hist;
  h ← load a;
  wr ← gets_dict wrPos;
  cl ← gets copyLen;
  if (0 <=? wr) && (wr <=? Z.of_nat (length h)) then
    let blen := Z.of_nat (length h) - wr in
    if (blen >? cl) && (cl <? 0) then panic "slice bounds out of range"
    else
      let blen := if blen >? cl then cl else blen in
      '(got, e) ← ReadFull_input blen;
      let cnt := Z.of_nat (length got) in
      store a (take (Z.to_nat wr) h ++ got ++ drop (Z.to_nat (wr + cnt)) h);;
      modify (fun f => set_roffset (wrap64 (roffset f + cnt)) f);;
      modify (fun f => set_copyLen (copyLen f - cnt) f);;
      modify_dict (fun dd => set_wrPos (wrPos dd + cnt) dd);;
      match e with
      | Some err => modify (set_err (Some (noEOF err)))
      | None =>
          avail ← availWrite;
          cl ← gets copyLen;
          if (avail =? 0) || (cl >? 0) then
            tr ← readFlush;
            modify (set_toRead tr);;
            modify (set_step step_copyData)
          else finishBlock
      end
  else panic "slice bounds out of range".

(** [f.dataBlock()] *)
Definition dataBlock : M unit :=
  modify (set_nb 0);;
  modify (set_b 0);;
  '(got, e) ← ReadFull_input 4;
  modify (fun f => set_buf (got ++ drop (length got) (buf f)) f);;
  modify (fun f => set_roffset (wrap64 (roffset f + Z.of_nat (length got))) f);;
  match e with
  | Some err => modify (set_err (Some (noEOF err)))
  | None =>
      bf ← gets buf;
      b0 ← lift (at_index bf 0);
      b1 ← lift (at_index bf 1);
      b2 ← lift (at_index bf 2);
      b3 ← lift (at_index bf 3);
      let n := Z.lor b0 (Z.shiftl b1 8) in
      let nn := Z.lor b2 (Z.shiftl b3 8) in
      if negb (uint16 nn =? uint16 (Z.lnot n)) then
        off ← gets roffset;
        modify (set_err (Some (CorruptInputError off)))
      else if n =? 0 then
        tr ← readFlush;
        modify (set_toRead tr);;
        finishBlock
      else
        modify (set_copyLen n);;
        copyData
  end.

Definition codeOrder : list Z :=
  [16; 17; 18; 0; 8; 7; 9; 6; 10; 5; 11; 4; 12; 3; 13; 2; 14; 1; 15].

(** [for i := 0; i < nclen; i++ { ... }] of [readHuffman], over the entries
    [order] of [codeOrder]. *)
Fixpoint readHuffman_codebits (order : list Z) : M (option error) :=
  match order with
  | [] => mret None
  | o :: order' =>
      e ← need_bits 3;
      match e with
      | Some err => mret (Some err)
      | None =>
          v ← gets (fun f => Z.land (b f) 7);
          cb ← gets codebits;
          cb' ← lift (set_index cb o v);
          modify (set_codebits cb');;
          modify (fun f => set_b (Z.shiftr (b f) 3) f);;
          modify (fun f => set_nb (nb f - 3) f);;
          readHuffman_codebits order'
      end
  end.

(** [for i := nclen; i < len(codeOrder); i++ { f.codebits[codeOrder[i]] = 0 }] *)
Fixpoint readHuffman_zero (order : list Z) : M unit :=
  match order with
  | [] => mret tt
  | o :: order' =>
      cb ← gets codebits;
      cb' ← lift (set_index cb o 0);
      modify (set_codebits cb');;
      readHuffman_zero order'
  end.

(** [for j := 0; j < rep; j++ { f.bits[i] = b; i++ }] *)
Fixpoint readHuffman_repeat (rep : nat) (i v : Z) : M Z :=
  match rep with
  | O => mret i
  | S rep' =>
      bs ← gets bits;
      bs' ← lift (set_index bs i v);
      modify (set_bits bs');;
      readHuffman_repeat rep' (i + 1) v
  end.

(** [for i, n := 0, nlit+ndist; i < n; { ... }] of [readHuffman]; every
    round advances [i]. *)
Fixpoint readHuffman_lengths (fuel : nat) (i n : Z) : M (option error) :=
  if i <? n then
    match fuel with
    | O => panic "loop bound"
    | S fuel' =>
        '(x, e) ← huffSym ref_h1;
        match e with
        | Some err => mret (Some err)
        | None =>
            if x <? 16 then
              bs ← gets bits;
              bs' ← lift (set_index bs i x);
              modify (set_bits bs');;
              readHuffman_lengths fuel' (i + 1) n
            else
              sel ←
                (if x =? 16 then
                   if i =? 0 then
                     off ← gets roffset;
                     mret (inl (CorruptInputError off))
                   else
                     bs ← gets bits;
                     prev ← lift (at_index bs (i - 1));
                     mret (inr (3, 2, prev))
                 else if x =? 17 then mret (inr (3, 3, 0))
                 else if x =? 18 then mret (inr (11, 7, 0))
                 else mret (inl (InternalError "unexpected length code")));
              match sel with
              | inl err => mret (Some err)
              | inr (rep, nbits, v) =>
                  e ← need_bits nbits;
                  match e with
                  | Some err => mret (Some err)
                  | None =>
                      extra ← take_bits nbits;
                      let rep := rep + extra in
                      if i + rep >? n then
                        off ← gets roffset;
                        mret (Some (CorruptInputError off))
                      else
                        i' ← readHuffman_repeat (Z.to_nat rep) i v;
                        readHuffman_lengths fuel' i' n
                  end
              end
        end
    end
  else mret None.

(** [h.init(lengths)] on one of the decoder's two tables. *)
Definition init_h1 (lengths : list Z) : M bool :=
  h ← gets h1;
  '(ok, h') ← lift (init h lengths);
  modify (set_h1 h');;
  mret ok.

Definition init_h2 (lengths : list Z) : M bool :=
  h ← gets h2;
  '(ok, h') ← lift (init h lengths);
  modify (set_h2 h');;
  mret ok.

(** [f.bits[lo:hi]], [f.codebits[0:]] *)
Definition subslice (l : list Z) (lo hi : Z) : result (list Z) :=
  if (0 <=? lo) && (lo <=? hi) && (hi <=? Z.of_nat (length l))
  then Ok (take (Z.to_nat (hi - lo)) (drop (Z.to_nat lo) l))
  else Panic "slice bounds out of range".

(** [f.readHuffman()] *)
Definition readHuffman : M (option error) :=
  e ← need_bits (5 + 5 + 4);
  match e with
  | Some err => mret (Some err)
  | None =>
      nlit ← gets (fun f => Z.land (b f) 31 + 257);
      if nlit >? maxNumLit then
        off ← gets roffset; mret (Some (CorruptInputError off))
      else
        modify (fun f => set_b (Z.shiftr (b f) 5) f);;
        ndist ← gets (fun f => Z.land (b f) 31 + 1);
        if ndist >? maxNumDist then
          off ← gets roffset; mret (Some (CorruptInputError off))
        else
          modify (fun f => set_b (Z.shiftr (b f) 5) f);;
          nclen ← gets (fun f => Z.land (b f) 15 + 4);
          modify (fun f => set_b (Z.shiftr (b f) 4) f);;
          modify (fun f => set_nb (nb f - (5 + 5 + 4)) f);;
          e ← readHuffman_codebits (take (Z.to_nat nclen) codeOrder);
          match e with
          | Some err => mret (Some err)
          | None =>
              readHuffman_zero (drop (Z.to_nat nclen) codeOrder);;
              cb ← gets codebits;
              ok ← init_h1 cb;
              if negb ok then
                off ← gets roffset; mret (Some (CorruptInputError off))
              else
                e ← readHuffman_lengths (Z.to_nat (nlit + ndist)) 0 (nlit + ndist);
                match e with
                | Some err => mret (Some err)
                | None =>
                    bs ← gets bits;
                    lit ← lift (subslice bs 0 nlit);
                    ok1 ← init_h1 lit;
                    ok2 ← (if ok1 : bool then
                             dst ← lift (subslice bs nlit (nlit + ndist));
                             init_h2 dst
                           else mret false);
                    if negb ok1 || negb ok2 then
                      off ← gets roffset; mret (Some (CorruptInputError off))
                    else
                      eob ← lift (at_index bs endBlockMarker);
                      modify (fun f =>
                        if hmin (h1 f) <? eob
                        then set_h1 {| hmin := eob; chunks := chunks (h1 f);
                                       links := links (h1 f);
                                       linkMask := linkMask (h1 f) |} f
                        else f);;
                      mret None
                end
          end
  end.

(** The two labels of [huffmanBlock]. *)
Inductive label : Type :=
| readLiteral
| copyHistory.

Definition stateInit : Z := 0.
Definition stateDict : Z := 1.

(** The length a length symbol [257 <= v < maxNumLit] stands for, and the
    number of extra bits that follow it. *)
Definition length_code (v : Z) : option (Z * Z) :=
  if v <? 265 then Some (v - (257 - 3), 0)
  else if v <? 269 then Some (v * 2 - (265 * 2 - 11), 1)
  else if v <? 273 then Some (v * 4 - (269 * 4 - 19), 2)
  else if v <? 277 then Some (v * 8 - (273 * 8 - 35), 3)
  else if v <? 281 then Some (v * 16 - (277 * 16 - 67), 4)
  else if v <? 285 then Some (v * 32 - (281 * 32 - 131), 5)
  else if v <? maxNumLit then Some (258, 0)
  else None.

(** Setting [f.err] and returning. *)
Definition fail_with (err : error) : M unit := modify (set_err (Some err)).

Definition fail_corrupt : M unit :=
  off ← gets roffset;
  fail_with (CorruptInputError off).

(** The body of [huffmanBlock] from one of its labels on; every passage
    through [readLiteral] that does not return writes to the window, so the
    free space of the window bounds the number of rounds. *)
Fixpoint huffmanBlock_from (fuel : nat) (lbl : label) : M unit :=
  match fuel with
  | O => panic "loop bound"
  | S fuel' =>
      match lbl with
      | readLiteral =>
          p ← gets hl;
          '(v, e) ← huffSym p;
          match e with
          | Some err => fail_with err
          | None =>
              if v <? 256 then
                writeByte (uint8 v);;
                avail ← availWrite;
                if avail =? 0 then
                  tr ← readFlush;
                  modify (set_toRead tr);;
                  modify (set_step step_huffmanBlock);;
                  modify (set_stepState stateInit)
                else huffmanBlock_from fuel' readLiteral
              else if v =? 256 then finishBlock
              else
                match length_code v with
                | None => fail_corrupt
                | Some (len, n) =>
                    r1 ←
                      (if n >? 0 then
                         e ← need_bits n;
                         match e with
                         | Some err => mret (inl err)
                         | None => x ← take_bits n; mret (inr (len + x))
                         end
                       else mret (inr len));
                    match r1 with
                    | inl err => fail_with err
                    | inr len =>
                        pd ← gets hd;
                        r2 ←
                          (match pd with
                           | ref_nil =>
                               e ← need_bits 5;
                               match e with
                               | Some err => mret (inl err)
                               | None =>
                                   d ← gets (fun f =>
                                     Reverse8 (uint8 (Z.shiftl (Z.land (b f) 31) 3)));
                                   modify (fun f => set_b (Z.shiftr (b f) 5) f);;
                                   modify (fun f => set_nb (nb f - 5) f);;
                                   mret (inr d)
                               end
                           | _ =>
                               '(d, e) ← huffSym pd;
                               match e with
                               | Some err => mret (inl err)
                               | None => mret (inr d)
                               end
                           end);
                        match r2 with
                        | inl err => fail_with err
                        | inr d =>
                            r3 ←
                              (if d <? 4 then mret (inr (Some (d + 1)))
                               else if d <? maxNumDist then
                                 let nbits := Z.shiftr (d - 2) 1 in
                                 let extra := Z.shiftl (Z.land d 1) nbits in
                                 e ← need_bits nbits;
                                 match e with
                                 | Some err => mret (inl err)
                                 | None =>
                                     x ← take_bits nbits;
                                     mret (inr (Some (Z.shiftl 1 (nbits + 1) + 1
                                                      + Z.lor extra x)))
                                 end
                               else mret (inr None));
                            match r3 with
                            | inl err => fail_with err
                            | inr None => fail_corrupt
                            | inr (Some dist) =>
                                hs ← histSize;
                                if dist >? hs then fail_corrupt
                                else
                                  modify (set_copyLen len);;
                                  modify (set_copyDist dist);;
                                  huffmanBlock_from fuel' copyHistory
                            end
                        end
                    end
                end
          end
      | copyHistory =>
          cd ← gets copyDist;
          cl ← gets copyLen;
          cnt ← tryWriteCopy cd cl;
          cnt ← (if cnt =? 0 then writeCopy cd cl else mret cnt);
          modify (fun f => set_copyLen (copyLen f - cnt) f);;
          avail ← availWrite;
          cl ← gets copyLen;
          if (avail =? 0) || (cl >? 0) then
            tr ← readFlush;
            modify (set_toRead tr);;
            modify (set_step step_huffmanBlock);;
            modify (set_stepState stateDict)
          else huffmanBlock_from fuel' readLiteral
      end
  end.

(** [f.huffmanBlock()] *)
Definition huffmanBlock : M unit :=
  st ← gets stepState;
  avail ← availWrite;
  huffmanBlock_from (2 * Z.to_nat avail + 4)
    (if st =? stateDict then copyHistory else readLiteral).

(** [for f.nb < 1+2 { if f.err = f.moreBits(); f.err != nil { return } }];
    the result tells whether the loop ended without an error. *)
Fixpoint nextBlock_fill (fuel : nat) : M bool :=
  have ← gets nb;
  if have <? 1 + 2 then
    match fuel with
    | O => panic "loop bound"
    | S fuel' =>
        e ← moreBits;
        modify (set_err e);;
        match e with
        | Some _ => mret false
        | None => nextBlock_fill fuel'
        end
    end
  else mret true.

(** [f.nextBlock()] *)
Definition nextBlock : M unit :=
  ok ← nextBlock_fill 3;
  match ok : bool with
  | false => mret tt
  | true =>
      modify (fun f => set_final (Z.land (b f) 1 =? 1) f);;
      modify (fun f => set_b (Z.shiftr (b f) 1) f);;
      typ ← gets (fun f => Z.land (b f) 3);
      modify (fun f => set_b (Z.shiftr (b f) 2) f);;
      modify (fun f => set_nb (nb f - (1 + 2)) f);;
      if typ =? 0 then dataBlock
      else if typ =? 1 then
        modify (set_hl ref_fixed);;
        modify (set_hd ref_nil);;
        huffmanBlock
      else if typ =? 2 then
        e ← readHuffman;
        modify (set_err e);;
        match e with
        | Some _ => mret tt
        | None =>
            modify (set_hl ref_h1);;
            modify (set_hd ref_h2);;
            huffmanBlock
        end
      else fail_corrupt
  end.

(** [f.step(f)] *)
Definition run_step : M unit :=
  s ← gets step;
  match s with
  | step_nextBlock => nextBlock
  | step_huffmanBlock => huffmanBlock
  | step_copyData => copyData
  end.

(** The bytes of the slice [f.toRead[:n]]. *)
Definition toRead_bytes (n : Z) : M (list Z) :=
  a ← gets_dict hist;
  h ← load a;
  tr ← gets toRead;
  mret (take (Z.to_nat n) (drop (Z.to_nat (fst tr)) h)).

(** The loop of [Read] for a buffer of length [len]: the bytes copied into
    the buffer and the error.  A round that neither returns nor fails
    consumes input bits, so their number bounds the rounds. *)
Fixpoint Read_loop (fuel : nat) (len : Z) : M (list Z * option error) :=
  match fuel with
  | O => panic "loop bound"
  | S fuel' =>
      pending ← gets toRead_len;
      if pending >? 0 then
        let n := Z.min len pending in
        bytes ← toRead_bytes n;
        modify (fun f => set_toRead (fst (toRead f) + n, snd (toRead f)) f);;
        pending ← gets toRead_len;
        if pending =? 0 then
          e ← gets err;
          mret (bytes, e)
        else mret (bytes, None)
      else
        e ← gets err;
        match e with
        | Some err => mret ([], Some err)
        | None =>
            run_step;;
            modify (fun f => set_woffset (wrap64 (woffset f + toRead_len f)) f);;
            e ← gets err;
            pending ← gets toRead_len;
            (if is_Some_b e && (pending =? 0) then
               tr ← readFlush;
               modify (set_toRead tr);;
               modify (fun f => set_woffset (wrap64 (woffset f + toRead_len f)) f)
             else mret tt);;
            Read_loop fuel' len
        end
  end.

(** [f.Read(b)] for [len(b) = len]. *)
Definition Read (len : Z) : M (list Z * option error) :=
  inp ← gets r;
  have ← gets nb;
  Read_loop (8 * length inp + Z.to_nat have + 4) len.

(** [f.Woffset()] *)
Definition Woffset : M Z := gets woffset.

(** *** Constructors *)

(** The zero [Decompressor] with the allocations every constructor makes:
    [f.r = makeReader(r)], [f.bits], [f.codebits], [f.step = nextBlock]. *)
Definition blank (input : list Z) (window : loc) : Decompressor :=
  {| r := input; roffset := 0; woffset := 0; b := 0; nb := 0;
     h1 := zero_huffmanDecoder; h2 := zero_huffmanDecoder;
     bits := repeat 0 (Z.to_nat (maxNumLit + maxNumDist));
     codebits := repeat 0 (Z.to_nat numCodes);
     dict := {| hist := window; wrPos := 0; rdPos := 0; full := false |};
     buf := repeat 0 4; step := step_nextBlock; stepState := 0;
     final := false; err := None; toRead := (0, 0); hl := ref_nil;
     hd := ref_nil; copyLen := 0; copyDist := 0; span := 0; last := 0;
     updates := false |}.

(** [NewReaderWithSpans(r, span, start, updates)], in a store [hp] and with
    the channel holding [sent]; [f.dict.init(maxMatchOffset, nil)] makes the
    window. *)
Definition NewReaderWithSpans (input : list Z) (span0 start : Z)
  (updates0 : bool) (hp : gmap loc (list Z)) (sent : list Checkpoint) : World :=
  let a := fresh (dom hp) in
  let f := blank input a in
  {| dec := {| r := r f; roffset := start; woffset := woffset f; b := b f;
               nb := nb f; h1 := h1 f; h2 := h2 f; bits := bits f;
               codebits := codebits f; dict := dict f; buf := buf f;
               step := step f; stepState := stepState f; final := final f;
               err := err f; toRead := toRead f; hl := hl f; hd := hd f;
               copyLen := copyLen f; copyDist := copyDist f; span := span0;
               last := start; updates := updates0 |};
     heap := <[a := repeat 0 (Z.to_nat maxMatchOffset)]> hp;
     chan := sent |}.

(** [NewReader(r)] *)
Definition NewReader (input : list Z) (hp : gmap loc (list Z))
  (sent : list Checkpoint) : World :=
  NewReaderWithSpans input 0 0 false hp sent.

(** [copy(dst, src)] between two arrays: [dst] afterwards. *)
Definition copy_into (dst src : list Z) : list Z :=
  take (length dst) src ++ drop (length src) dst.

(** [Continue(r, from, span, updates)] *)
Definition Continue (input : list Z) (from : Checkpoint) (span0 : Z)
  (updates0 : bool) (hp : gmap loc (list Z)) (sent : list Checkpoint)
  : World :=
  let a := fresh (dom hp) in
  let f := blank input a in
  {| dec := {| r := r f; roffset := In from; woffset := Out from;
               b := B from; nb := NB from; h1 := h1 f; h2 := h2 f;
               bits := bits f; codebits := codebits f;
               dict := {| hist := a; wrPos := WrPos from; rdPos := RdPos from;
                          full := Full from |};
               buf := buf f; step := step f; stepState := stepState f;
               final := final f; err := err f; toRead := toRead f;
               hl := hl f; hd := hd f; copyLen := copyLen f;
               copyDist := copyDist f; span := span0; last := Out from;
               updates := updates0 |};
     heap := <[a := copy_into (repeat 0 (Z.to_nat maxMatchOffset))
                      (default [] (hp !! Hist from))]> hp;
     chan := sent |}.

(** *** Vocabulary for the statements about checkpoints *)

(** Checkpoints in the order they were sent: strictly increasing in [Out]
    and weakly increasing in [In]. *)
Definition increasing (cs : list Checkpoint) : Prop :=
  StronglySorted (fun c1 c2 => Out c1 < Out c2 /\ In c1 <= In c2) cs.

(** The uncompressed offset [finishBlock] compares with [f.last]:
    [f.woffset], plus, in the final block, the bytes it flushes itself. *)
Definition finish_offset (w : World) : Z :=
  if final (dec w) && (wrPos (dict (dec w)) - rdPos (dict (dec w)) >? 0)
  then woffset (dec w) + (wrPos (dict (dec w)) - rdPos (dict (dec w)))
  else woffset (dec w).

(** A frontier pass from [w0]: any number of calls of [Read], with buffers
    of any length, each starting below 2^62 bytes of output. *)
Inductive frontier_pass (w0 : World) : World -> Prop :=
| pass_start : frontier_pass w0 w0
| pass_Read w len res w' :
    frontier_pass w0 w ->
    woffset (dec w) < 2 ^ 62 ->
    0 <= len ->
    Read len w = Ok (res, w') ->
    frontier_pass w0 w'.

(** The state after one call of [Read] with a buffer of length [len], and
    after [n] of them. *)
Definition read_once (len : Z) (w : World) : World :=
  match Read len w with
  | Ok (_, w') => w'
  | _ => w
  end.

Definition reads (n : nat) (len : Z) (w : World) : World :=
  Nat.iter n (read_once len) w.

(** Whether these [n] calls all return, each starting below 2^62 bytes of
    output. *)
Fixpoint reads_ok (n : nat) (len : Z) (w : World) : bool :=
  match n with
  | O => true
  | S n' =>
      reads_ok n' len w &&
      (woffset (dec (reads n' len w)) <? 2 ^ 62) &&
      match Read len (reads n' len w) with Ok _ => true | _ => false end
  end.

(** What a method returns, without the state. *)
Definition returned {A} (x : result (A * World)) : result A :=
  match x with
  | Ok (a, _) => Ok a
  | Err e => Err e
  | Panic msg => Panic msg
  end.

(** What every step of the decoder keeps true.  The window stays the array
    at [hloc], of length [N], and its cursor stays inside it; the arrays of
    [keep], other than the window, keep their contents; the slice [f.toRead]
    lies in the window; the input left and the compressed offset add up to at
    most [C] ([d] counts the bytes taken from the input that [f.roffset] has
    yet to be advanced by); [f.woffset] is [W]; the channel has grown from
    [sent0], in increasing order, and none of its checkpoints lies beyond
    [f.last] or [f.roffset]. *)
Definition InvD (d : Z) (hloc : loc) (N : nat) (C : Z)
  (keep : gmap loc (list Z)) (sent0 : list Checkpoint) (W : Z) (w : World)
  : Prop :=
  hist (dict (dec w)) = hloc /\
  (exists h, heap w !! hloc = Some h /\ length h = N) /\
  (forall a v, keep !! a = Some v -> a <> hloc /\ heap w !! a = Some v) /\
  (0 <= rdPos (dict (dec w)) <= wrPos (dict (dec w)) /\
   wrPos (dict (dec w)) <= Z.of_nat N) /\
  (0 <= fst (toRead (dec w)) <= snd (toRead (dec w)) /\
   snd (toRead (dec w)) <= Z.of_nat N) /\
  (0 <= roffset (dec w) /\
   roffset (dec w) + d + Z.of_nat (length (r (dec w))) <= C) /\
  0 <= span (dec w) < 2 ^ 62 /\
  0 <= last (dec w) <= 2 ^ 62 + Z.of_nat N /\
  woffset (dec w) = W /\
  sent0 `prefix_of` chan w /\
  increasing (chan w) /\
  (forall ck, ck ∈ chan w ->
     Out ck <= last (dec w) /\ In ck <= roffset (dec w)) /\
  Z.of_nat N <= 2 ^ 32 /\ C < 2 ^ 63.

Definition Inv := InvD 0.

(** *** Reasoning about methods

    [hoare P m Q]: from a state where [P] holds, the method [m], if it
    returns, returns a value and a state related by [Q]. *)

Definition hoare {A} (P : World -> Prop) (m : M A) (Q : A -> World -> Prop)
  : Prop :=
  forall w a w', P w -> m w = Ok (a, w') -> Q a w'.

(** The decoder after [f = g(f)]. *)
Definition upd (g : Decompressor -> Decompressor) (w : World) : World :=
  {| dec := g (dec w); heap := heap w; chan := chan w |}.

(** Methods that keep [I] and return a value with the property [phi]. *)
Definition keeps {A} (I : World -> Prop) (m : M A) (phi : A -> Prop) : Prop :=
  hoare I m (fun a w => phi a /\ I w).

(** *** Sample streams *)

(** A dynamic-Huffman block, final, that codes the three literals [aaa]
    with the two-symbol code [a -> 0], [end of block -> 1]; its single
    distance code has length zero, so that its distance tree is empty. *)
Definition empty_distance_block : list Z :=
  [5; 192; 129; 8; 0; 0; 0; 0; 32; 214; 253; 37; 14; 1].

(** A dynamic-Huffman header whose code-length code has the two lengths
    1 and 2 only, an incomplete coding. *)
Definition incomplete_block : list Z :=
  [5; 192; 129; 8; 0; 0; 0; 0; 0; 0; 0; 0; 0].

(** Three blocks written by zlib with a sync flush and a full flush between
    them: 85 bytes in 55. *)
Definition flushed_stream : list Z :=
  [74; 203; 44; 42; 46; 81; 72; 202; 201; 79; 206; 86; 200; 79; 83; 72; 73;
   44; 73; 180; 86; 72; 195; 20; 4; 0; 0; 0; 255; 255; 42; 78; 77; 206; 207;
   75; 129; 136; 89; 43; 224; 230; 1; 0; 0; 0; 255; 255; 43; 201; 200; 44;
   74; 1; 0].

(** The frontier decoder of [flushed_stream] for a given [span], in an
    empty store and with an empty channel. *)
Definition flushed_frontier (span0 : Z) : World :=
  NewReaderWithSpans flushed_stream span0 0 true ∅ [].

(** After the first [Read] of the frontier decoder with [span = 40]: 40
    bytes are out, and no checkpoint has been sent. *)
Definition boundary_state : World := reads 1 100 (flushed_frontier 40).

(** The same with [span = 39]. *)
Definition emitting_state : World := reads 1 100 (flushed_frontier 39).

(** A decoder that has read nothing, and the decoder of
    [empty_distance_block] after its first [Read]. *)
Definition fresh_decoder : World := NewReader [] ∅ [].

Definition empty_distance_read : World :=
  read_once 10 (NewReader empty_distance_block ∅ []).

(** *** Vocabulary for resuming from a checkpoint *)

(** Two runs side by side: from states related by [P], the methods [m1]
    and [m2] end alike, with values related by [V] and states related by
    [Q], or with the same error or panic. *)
Definition rel {A} (P : World -> World -> Prop) (m1 m2 : M A)
  (V : A -> A -> Prop) (Q : World -> World -> Prop) : Prop :=
  forall w1 w2, P w1 w2 ->
    match m1 w1, m2 w2 with
    | Ok (x1, w1'), Ok (x2, w2') => V x1 x2 /\ Q w1' w2'
    | Err e1, Err e2 => e1 = e2
    | Panic s1, Panic s2 => s1 = s2
    | _, _ => False
    end.

(** The fields that the bit reader, the symbol decoder and the window
    work on, in two decoders whose windows are the arrays at [a1] and
    [a2]: the input left, the offsets, the bit buffer, the cursor and the
    contents of the window, the error, and the slice [f.toRead], which
    counts only while it is not empty. *)
Definition core (a1 a2 : loc) (w1 w2 : World) : Prop :=
  hist (dict (dec w1)) = a1 /\ hist (dict (dec w2)) = a2 /\
  heap w1 !! a1 = heap w2 !! a2 /\ is_Some (heap w1 !! a1) /\
  r (dec w1) = r (dec w2) /\ roffset (dec w1) = roffset (dec w2) /\
  woffset (dec w1) = woffset (dec w2) /\
  b (dec w1) = b (dec w2) /\ nb (dec w1) = nb (dec w2) /\
  wrPos (dict (dec w1)) = wrPos (dict (dec w2)) /\
  rdPos (dict (dec w1)) = rdPos (dict (dec w2)) /\
  full (dict (dec w1)) = full (dict (dec w2)) /\
  err (dec w1) = err (dec w2) /\
  snd (toRead (dec w1)) - fst (toRead (dec w1))
    = snd (toRead (dec w2)) - fst (toRead (dec w2)) /\
  (0 < snd (toRead (dec w1)) - fst (toRead (dec w1)) ->
   toRead (dec w1) = toRead (dec w2)).

(** The other fields of a decoder that its steps read, on their own. *)
Definition rest (f : Decompressor) : Decompressor :=
  {| r := []; roffset := 0; woffset := 0; b := 0; nb := 0;
     h1 := h1 f; h2 := h2 f; bits := bits f; codebits := codebits f;
     dict := {| hist := 0%nat; wrPos := 0; rdPos := 0; full := false |};
     buf := buf f; step := step f; stepState := stepState f;
     final := final f; err := None; toRead := (0, 0); hl := hl f;
     hd := hd f; copyLen := copyLen f; copyDist := copyDist f; span := 0;
     last := 0; updates := false |}.

(** A table is as [init] leaves it: when its [min] is 0 it is the zero
    table.  The scratch arrays have the lengths the constructors give
    them. *)
Definition hclean (h : huffmanDecoder) : Prop :=
  0 <= hmin h /\ (hmin h = 0 -> h = zero_huffmanDecoder).

Definition tables_ok (f : Decompressor) : Prop :=
  hclean (h1 f) /\ hclean (h2 f) /\
  length (codebits f) = Z.to_nat numCodes /\ length (buf f) = 4%nat.

(** The table a [*huffmanDecoder] of the decoder points to. *)
Definition tabs (t1 t2 : huffmanDecoder) (p : huffman_ref)
  : option huffmanDecoder :=
  match p with
  | ref_nil => None
  | ref_fixed => Some fixedHuffmanDecoder
  | ref_h1 => Some t1
  | ref_h2 => Some t2
  end.

Definition tab (f : Decompressor) (p : huffman_ref) : option huffmanDecoder :=
  tabs (h1 f) (h2 f) p.

(** Two decoders between two steps, of which the second may have been
    resumed from a checkpoint of the first: they are in the same block
    state, their tables and scratch arrays are well formed, and they hold
    the same tables while in a Huffman block, the same count while in a
    stored block, and the same copy while one is suspended.  What differs
    is what the next block overwrites before reading it. *)
Definition between (f1 f2 : Decompressor) : Prop :=
  step f1 = step f2 /\ stepState f1 = stepState f2 /\ final f1 = final f2 /\
  tables_ok f1 /\ tables_ok f2 /\ length (bits f1) = length (bits f2) /\
  (stepState f1 = stateDict ->
   copyLen f1 = copyLen f2 /\ copyDist f1 = copyDist f2) /\
  (step f1 = step_copyData -> copyLen f1 = copyLen f2) /\
  (step f1 = step_huffmanBlock ->
   hl f1 = hl f2 /\ hd f1 = hd f2 /\
   tab f1 (hl f1) = tab f2 (hl f2) /\ tab f1 (hd f1) = tab f2 (hd f2)).

(** The same inside a step: at the head of a block; in a Huffman block
    whose tables are those at [pl] and [pd]; during a copy from the
    window; in a stored block. *)
Definition in_header (f1 f2 : Decompressor) : Prop :=
  between f1 f2 /\ step f1 = step_nextBlock.

Definition in_huffman (pl pd : huffman_ref) (f1 f2 : Decompressor) : Prop :=
  between f1 f2 /\ hl f1 = pl /\ hl f2 = pl /\ hd f1 = pd /\ hd f2 = pd /\
  tab f1 pl = tab f2 pl /\ tab f1 pd = tab f2 pd.

Definition in_copy (pl pd : huffman_ref) (f1 f2 : Decompressor) : Prop :=
  in_huffman pl pd f1 f2 /\
  copyLen f1 = copyLen f2 /\ copyDist f1 = copyDist f2.

Definition in_stored (f1 f2 : Decompressor) : Prop :=
  between f1 f2 /\ copyLen f1 = copyLen f2.

(** While the tables of a dynamic block are read: the scratch arrays agree
    where the block has written, [f.codebits] on the entries [S] and
    [f.bits] below [i], and, once built, the code-length table is the
    same. *)
Definition on_codebits (S : list Z) (f1 f2 : Decompressor) : Prop :=
  in_header f1 f2 /\
  forall j : Z, j ∈ S -> codebits f1 !! Z.to_nat j = codebits f2 !! Z.to_nat j.

Definition on_bits (i : Z) (f1 f2 : Decompressor) : Prop :=
  in_header f1 f2 /\ h1 f1 = h1 f2 /\
  forall j : Z, 0 <= j < i -> bits f1 !! Z.to_nat j = bits f2 !! Z.to_nat j.

(** With both tables of a dynamic block built. *)
Definition with_tables (f1 f2 : Decompressor) : Prop :=
  in_header f1 f2 /\ h1 f1 = h1 f2 /\ h2 f1 = h2 f2.

(** Two decoders that read alike from now on. *)
Definition agree (w1 w2 : World) : Prop :=
  core (hist (dict (dec w1))) (hist (dict (dec w2))) w1 w2 /\
  between (dec w1) (dec w2).

(** What successive calls of [Read] return, for buffers of the lengths
    [lens], up to the first panic. *)
Fixpoint outputs (lens : list Z) (w : World)
  : list (result (list Z * option error)) :=
  match lens with
  | [] => []
  | len :: lens' =>
      match Read len w with
      | Ok (x, w') => Ok x :: outputs lens' w'
      | Err e => [Err e]
      | Panic msg => [Panic msg]
      end
  end.

(** The frontier decoder of [flushed_stream] with [span = 39] after its
    first [Read] and the [finishBlock] that follows: the checkpoint at 40
    bytes is in the channel. *)
Definition checkpointed_state : World :=
  match finishBlock emitting_state with
  | Ok (_, w') => w'
  | _ => emitting_state
  end.

End Flate.

(** ** Package gsip: the index reader *)

Module Gsip.
Import Flate.

(** Modelled from the spec: package gzip (the gzip framer, section 4.2) is
    not among the sources.  gsip uses a [*gzip.Reader] in three ways: it
    asks for [Offset()], the uncompressed position; it reads from it,
    through [io.CopyN] and [io.ReadFull]; and it makes new ones with
    [gzip.Continue].  The framer "exposes the same read interface as the
    decoder", whose errors are terminal, so a reader is described by its
    position, the bytes it has yet to produce, and the error that ends the
    stream ([io.EOF] after the final block). *)
Record gzReader : Type := mkReader {
  offset : Z;
  pending : list Z;
  final : error
}.

(** [zr.Offset()] *)
Definition Offset (zr : gzReader) : Z := offset zr.

(** The reader after [n] more bytes have been read from it. *)
Definition advance (zr : gzReader) (n : nat) : gzReader :=
  {| offset := offset zr + Z.of_nat n;
     pending := drop n (pending zr);
     final := final zr |}.

(** [io.CopyN(io.Discard, zr, n)], the error it returns and the reader
    afterwards: for [n <= 0] nothing is read and the error is nil; otherwise
    [n] bytes are read, or the stream's own error is returned when it ends
    first. *)
Definition CopyN_Discard (zr : gzReader) (n : Z) : gzReader * option error :=
  if n <=? 0 then (zr, None)
  else if n <=? Z.of_nat (length (pending zr))
  then (advance zr (Z.to_nat n), None)
  else (advance zr (length (pending zr)), Some (final zr)).

(** [io.ReadFull(zr, p)] for [len(p) = len]: the bytes placed in [p], the
    error, and the reader afterwards.  The error is [io.EOF] only if no
    byte was read, and [io.ErrUnexpectedEOF] if the stream ended cleanly
    after some but not all bytes. *)
Definition ReadFull (zr : gzReader) (len : nat)
  : list Z * option error * gzReader :=
  if (len <=? length (pending zr))%nat
  then (take len (pending zr), None, advance zr len)
  else (pending zr,
        Some (match pending zr, final zr with
              | _ :: _, EOF => ErrUnexpectedEOF
              | _, e => e
              end),
        advance zr (length (pending zr))).

(** [Reader].  The keys of the pool [readers] are pointers; [objs] holds
    the [gzip.Reader] each of them points to.  The transport [ra] enters
    only through [gzip.Continue], see [Continue] below. *)
Record Reader : Type := mkGsip {
  size : Z;
  checkpoints : list Checkpoint;
  objs : gmap nat gzReader;
  readers : gmap nat bool
}.

(** [NewReader], given the frontier decoder [gzip.NewReader] returned. *)
Definition NewReader (size : Z) (zr : gzReader) : Reader :=
  {| size := size; checkpoints := [];
     objs := {[ 0%nat := zr ]}; readers := {[ 0%nat := true ]} |}.

(** One iteration of the goroutine started by [NewReader]:
    [r.checkpoints = append(r.checkpoints, checkpoint)]. *)
Definition consume (r : Reader) (checkpoint : Checkpoint) : Reader :=
  {| size := size r; checkpoints := checkpoints r ++ [checkpoint];
     objs := objs r; readers := readers r |}.

(** [Decode], given the checkpoints of the decoded index. *)
Definition Decode (size : Z) (idx : list Checkpoint) : Reader :=
  {| size := size; checkpoints := idx; objs := ∅; readers := ∅ |}.

(** The first loop of [acquireReader], over the pool in the order [ord] in
    which [range] happens to visit the map. *)
Fixpoint find_exact (r : Reader) (off : Z) (ord : list nat) : option nat :=
  match ord with
  | [] => None
  | zr :: ord' =>
      match readers r !! zr, objs r !! zr with
      | Some true, Some o =>
          if Offset o =? off then Some zr else find_exact r off ord'
      | _, _ => find_exact r off ord'
      end
  end.

(** The loop over [r.checkpoints]: it stops at the first checkpoint beyond
    [off] and keeps the last one seen before. *)
Fixpoint find_highest (cs : list Checkpoint) (off : Z)
  (highest : option Checkpoint) : option Checkpoint :=
  match cs with
  | [] => highest
  | checkpoint :: cs' =>
      if Out checkpoint >? off then highest
      else find_highest cs' off (Some checkpoint)
  end.

(** The loop of the fallback, over the pool in the order [ord]: the first
    idle reader at or before [off]. *)
Fixpoint find_idle (r : Reader) (off : Z) (ord : list nat)
  : option (nat * gzReader) :=
  match ord with
  | [] => None
  | zr :: ord' =>
      match readers r !! zr, objs r !! zr with
      | Some true, Some o =>
          if Offset o >? off then find_idle r off ord' else Some (zr, o)
      | _, _ => find_idle r off ord'
      end
  end.

Section WithContinue.

(** Modelled from the spec: [gzip.Continue(sr, 0, highest, nil)] on the
    section of the transport that starts at [highest.In]; it "forwards to
    the decoder's resume" and may fail. *)
Variable Continue : Checkpoint -> result gzReader.

Definition set_busy (r : Reader) (zr : nat) (busy : bool) : Reader :=
  {| size := size r; checkpoints := checkpoints r; objs := objs r;
     readers := <[zr := negb busy]> (readers r) |}.

Definition set_obj (r : Reader) (zr : nat) (o : gzReader) : Reader :=
  {| size := size r; checkpoints := checkpoints r;
     objs := <[zr := o]> (objs r); readers := readers r |}.

(** [Reader.acquireReader]; [ord1] and [ord2] are the orders of the two
    [range] loops over the pool.  The result is the pointer of the acquired
    reader, or the error. *)
Definition acquireReader (ord1 ord2 : list nat) (r : Reader) (off : Z)
  : result nat * Reader :=
  match find_exact r off ord1 with
  | Some zr => (Ok zr, set_busy r zr true)
  | None =>
      match find_highest (checkpoints r) off None with
      | None =>
          match find_idle r off ord2 with
          | Some (zr, o) =>
              let r1 := set_busy r zr true in
              let '(o', err) := CopyN_Discard o (wrap64 (off - Offset o)) in
              match err with
              | Some e => (Err e, set_obj r1 zr o')
              | None => (Ok zr, set_obj r1 zr o')
              end
          | None => (Err (ErrNoCheckpoint off), r)
          end
      | Some highest =>
          match Continue highest with
          | Err e => (Err (ErrContinue e), r)
          | Panic m => (Panic m, r)
          | Ok o =>
              let discard := wrap64 (off - Out highest) in
              let '(o', err) := CopyN_Discard o discard in
              match err with
              | Some e => (Err e, r)
              | None =>
                  let zr := fresh (dom (objs r)) in
                  (Ok zr, set_busy (set_obj r zr o') zr true)
              end
          end
      end
  end.

(** [Reader.ReadAt] for a buffer of length [len]: the bytes placed in the
    buffer, the error, and the reader afterwards (the deferred function
    marks the acquired reader idle again). *)
Definition ReadAt (ord1 ord2 : list nat) (r : Reader) (len : nat) (off : Z)
  : result (list Z * option error) * Reader :=
  match acquireReader ord1 ord2 r off with
  | (Err e, r1) => (Ok ([], Some e), r1)
  | (Panic m, r1) => (Panic m, r1)
  | (Ok zr, r1) =>
      match objs r1 !! zr with
      | Some o =>
          let '(bytes, err, o') := ReadFull o len in
          (Ok (bytes, err), set_busy (set_obj r1 zr o') zr false)
      | None => (Panic "nil reader", r1)
      end
  end.

End WithContinue.

(** *** Vocabulary for the statements about the pool

    [idle r zr o]: the pool holds the pointer [zr], marked available, and it
    points to the reader [o]. *)
Definition idle (r : Reader) (zr : nat) (o : gzReader) : Prop :=
  readers r !! zr = Some true /\ objs r !! zr = Some o.

(** A [range] over the pool visits every key. *)
Definition visits_pool (ord : list nat) (r : Reader) : Prop :=
  forall zr, is_Some (readers r !! zr) -> List.In zr ord.


(** A decoder of the stream [data]: it stands at a position of the stream,
    will produce the rest of it, and then reports [io.EOF]. *)
Definition faithful (data : list Z) (o : gzReader) : Prop :=
  0 <= offset o /\ pending o = drop (Z.to_nat (offset o)) data /\ final o = EOF.

(** *** A sample blob

    A decoder standing at position [pos] of the uncompressed stream
    [data]. *)
Definition reader_at (data : list Z) (pos : Z) : gzReader :=
  {| offset := pos; pending := drop (Z.to_nat pos) data; final := EOF |}.

(** A [gzip.Continue] for the stream [data], as checkpoint soundness
    (section 8, property 3) describes it. *)
Definition Continue_from (data : list Z) (ck : Checkpoint) : result gzReader :=
  Ok (reader_at data (Out ck)).

Definition sample_data : list Z := [10; 20; 30; 40].

Definition sample_Reader : Reader := NewReader 4 (reader_at sample_data 0).

(** The reader after a first call [ReadAt(p, 0)] with [len(p) = 3], served
    by the frontier decoder. *)
Definition sample_after_read : Reader :=
  snd (ReadAt (Continue_from sample_data) [0%nat] [0%nat] sample_Reader 3 0).

Definition sample_checkpoint (out : Z) : Checkpoint :=
  {| In := 0; Out := out; B := 0; NB := 0; Hist := 0%nat; WrPos := 0;
     RdPos := 0; Full := false; Empty := false; GzipHeader := None |}.

(** The reader once the goroutine has appended two checkpoints. *)
Definition sample_indexed : Reader :=
  consume (consume sample_Reader (sample_checkpoint 0)) (sample_checkpoint 2).

End Gsip.
(** ** Properties of the tarfs directory view *)

Module TarfsFacts.
Import GoPath Tarfs.

(** *** The index built by [New] *)

Lemma New_scan_files hdrs fsys dc :
  files (fst (fold_left New_scan hdrs (fsys, dc))) =
  files fsys ++ map entry_of hdrs.
Proof.
  revert fsys dc. induction hdrs as [|[hdr n] hdrs IH]; intros fsys dc; simpl.
  - by rewrite app_nil_r.
  - rewrite IH. simpl. by rewrite <- app_assoc.
Qed.

Lemma New_scan_dirCount hdrs fsys dc d :
  is_Some (snd (fold_left New_scan hdrs (fsys, dc)) !! d) <->
  is_Some (dc !! d) \/ Exists (fun e => dir e = d) (map entry_of hdrs).
Proof.
  revert fsys dc. induction hdrs as [|[hdr n] hdrs IH]; intros fsys dc; simpl.
  - rewrite Exists_nil. tauto.
  - rewrite IH, Exists_cons. simpl.
    destruct (decide (Dir (normalize (Name hdr)) = d)) as [->|Hne].
    + rewrite lookup_insert_eq. split; [eauto|]. intros _. left. eauto.
    + rewrite lookup_insert_ne by done. tauto.
Qed.

Lemma New_append_lookup fs ds d :
  fold_left New_append fs ds !! d =
  if decide (is_Some (ds !! d) \/ Exists (fun e => dir e = d) fs)
  then Some (default [] (ds !! d) ++ filter (fun e => dir e = d) fs)
  else None.
Proof.
  revert ds. induction fs as [|f fs IH]; intros ds; simpl.
  - rewrite app_nil_r. case_decide as H.
    + destruct H as [[x Hx]|H]; [by rewrite Hx|by apply Exists_nil in H].
    + destruct (ds !! d) eqn:E; [|done]. exfalso. apply H. eauto.
  - rewrite IH.
    assert (Hl : New_append ds f !! d =
                 if decide (dir f = d) then Some (default [] (ds !! d) ++ [f])
                 else ds !! d).
    { unfold New_append. case_decide as Hd.
      - subst d. by rewrite lookup_insert_eq.
      - by rewrite lookup_insert_ne. }
    destruct (decide (dir f = d)) as [Heq|Hne].
    + rewrite filter_cons_True by done.
      rewrite decide_True; [|left; rewrite Hl; eauto].
      rewrite decide_True; [|right; by apply Exists_cons_hd].
      rewrite Hl. simpl. by rewrite <- app_assoc.
    + rewrite filter_cons_False by done. rewrite Hl.
      case_decide as H1; case_decide as H2; try done; exfalso.
      * apply H2. destruct H1 as [H1|H1]; [by left|right; by apply Exists_cons_tl].
      * apply H1. destruct H2 as [H2|H2]; [by left|].
        apply Exists_cons in H2 as [H2|H2]; [done|by right].
Qed.

(** What [New] leaves in [fsys.dirs]: a key for each parent directory of a
    member, holding the sorted members of that directory. *)
Lemma New_dirs hdrs fsys d :
  New hdrs None = Ok fsys ->
  files fsys = map entry_of hdrs /\
  dirs fsys !! d =
    if decide (Exists (fun e => dir e = d) (files fsys))
    then Some (SortFunc (filter (fun e => dir e = d) (files fsys)))
    else None.
Proof.
  unfold New.
  destruct (fold_left New_scan hdrs _) as [fs dc] eqn:E.
  intros [= <-]. simpl.
  pose proof (New_scan_files hdrs {| files := []; index := ∅; dirs := ∅ |} ∅) as Hf.
  pose proof (New_scan_dirCount hdrs {| files := []; index := ∅; dirs := ∅ |} ∅ d) as Hd.
  rewrite E in Hf, Hd. simpl in Hf, Hd. split; [done|].
  rewrite lookup_fmap, New_append_lookup, lookup_fmap.
  rewrite lookup_empty in Hd. rewrite <- Hf in Hd.
  assert (Hdc : is_Some (dc !! d) <-> Exists (fun e => dir e = d) (files fs)).
  { rewrite Hd. split; [intros [[? [=]]|]; done|by right]. }
  case_decide as H1; case_decide as H2; simpl.
  - apply Hdc in H2 as [c Hc]. by rewrite Hc.
  - exfalso. apply H2. destruct H1 as [H1|H1]; [|done].
    apply fmap_is_Some in H1. by apply Hdc.
  - exfalso. apply H1. by right.
  - done.
Qed.

(** *** The sort *)

Lemma sort_insert_perm x l : Permutation (sort_insert x l) (x :: l).
Proof.
  induction l as [|y l IH]; simpl; [done|].
  destruct (cmp_Name x y); try done.
  rewrite IH. apply perm_swap.
Qed.

Lemma SortFunc_perm l : Permutation (SortFunc l) l.
Proof.
  induction l as [|x l IH]; simpl; [done|].
  by rewrite sort_insert_perm, IH.
Qed.

Lemma name_le_total a b : name_le a b \/ name_le b a.
Proof. apply String.leb_total. Qed.

Lemma cmp_not_Gt_le a b : cmp_Name a b <> Gt -> name_le a b.
Proof.
  unfold name_le, String.leb, cmp_Name.
  by destruct (String.compare _ _).
Qed.

Lemma cmp_Gt_le a b : cmp_Name a b = Gt -> name_le b a.
Proof.
  unfold name_le, String.leb, cmp_Name. intros H.
  rewrite String.compare_antisym, H. done.
Qed.

Lemma sort_insert_hd x l a :
  name_le a x -> HdRel name_le a l -> HdRel name_le a (sort_insert x l).
Proof.
  intros Hax Hal. destruct l as [|y l]; simpl; [by constructor|].
  destruct (cmp_Name x y); constructor; try done; by inversion Hal.
Qed.

Lemma sort_insert_sorted x l :
  Sorted name_le l -> Sorted name_le (sort_insert x l).
Proof.
  induction 1 as [|y l Hs IH Hhd]; simpl; [by repeat constructor|].
  destruct (cmp_Name x y) eqn:E.
  - constructor; [by constructor|]. constructor. apply cmp_not_Gt_le. by rewrite E.
  - constructor; [by constructor|]. constructor. apply cmp_not_Gt_le. by rewrite E.
  - constructor; [done|]. apply sort_insert_hd; [|done]. by apply cmp_Gt_le.
Qed.

Lemma SortFunc_Sorted l : Sorted name_le (SortFunc l).
Proof.
  induction l as [|x l IH]; simpl; [constructor|by apply sort_insert_sorted].
Qed.

Lemma string_leb_trans (a b c : string) :
  String.leb a b = true -> String.leb b c = true -> String.leb a c = true.
Proof.
  unfold String.leb. revert b c.
  induction a as [|x a IH]; intros [|y b] [|z c]; simpl; try done.
  unfold Ascii.compare.
  destruct (N.compare_spec (N_of_ascii x) (N_of_ascii y)) as [E1|E1|E1];
    destruct (N.compare_spec (N_of_ascii y) (N_of_ascii z)) as [E2|E2|E2];
    destruct (N.compare_spec (N_of_ascii x) (N_of_ascii z)) as [E3|E3|E3];
    try done; try lia.
  apply IH.
Qed.

Lemma name_le_trans : Relations_1.Transitive name_le.
Proof. intros a b c. apply string_leb_trans. Qed.

Lemma SortFunc_sorted l : StronglySorted name_le (SortFunc l).
Proof.
  apply Sorted.Sorted_StronglySorted; [apply name_le_trans|apply SortFunc_Sorted].
Qed.



(** *** [FS.ReadDir] *)

Lemma filter_none {A} (P : A -> Prop) `{forall x, Decision (P x)} (l : list A) :
  (forall x, In x l -> ~ P x) -> filter P l = [].
Proof.
  induction l as [|x l IH]; intros Hl; [done|].
  rewrite filter_cons_False by (apply Hl; by left).
  apply IH. intros y Hy. apply Hl. by right.
Qed.

Lemma ReadDir_New hdrs fsys name :
  New hdrs None = Ok fsys ->
  ReadDir fsys name =
    (SortFunc (filter (fun e => dir e = name) (files fsys)), None).
Proof.
  intros H. destruct (New_dirs hdrs fsys name H) as [_ Hd].
  unfold ReadDir. rewrite Hd. case_decide as Hex; [done|].
  rewrite filter_none; [done|].
  rewrite Exists_exists in Hex. intros e Hin Heq. apply Hex.
  exists e. split; [by apply list_elem_of_In|done].
Qed.

(** X14.  For a file system built by [New], [ReadDir] of any path returns,
    with a nil error, the members of the archive filed under that
    directory: one entry for each header of the stream whose normalized name
    has that parent directory, shadowed members included, in non-decreasing
    lexicographic order of [Name()]. *)
Theorem ReadDir_sorted_members hdrs fsys name :
  New hdrs None = Ok fsys ->
  snd (ReadDir fsys name) = None /\
  StronglySorted name_le (fst (ReadDir fsys name)) /\
  Permutation (fst (ReadDir fsys name))
              (filter (fun e => dir e = name) (map entry_of hdrs)).
Proof.
  intros H. rewrite (ReadDir_New hdrs fsys name H). simpl.
  destruct (New_dirs hdrs fsys name H) as [<- _].
  split; [done|]. split; [apply SortFunc_sorted|apply SortFunc_perm].
Qed.

Lemma ReadDir_sorted_members_witness :
  StronglySorted name_le (fst (ReadDir sample_FS "weird")) /\
  length (fst (ReadDir sample_FS "weird")) = 3%nat.
Proof.
  destruct (ReadDir_sorted_members sample_hdrs sample_FS "weird")
    as (_ & Hs & Hp); [vm_compute; reflexivity|].
  split; [exact Hs|]. by rewrite (Permutation_length Hp).
Defined.

(** C8.  The claim fails on an archive in which a member occurs twice, as
    after [tar --append] of a changed file: [New] keeps the index
    last-wins, so that [Entry] reaches the second copy only, but it files
    both copies under their directory, and [ReadDir] lists the name [a]
    twice. *)
Lemma ReadDir_lists_colliding_members :
  New colliding_hdrs None = Ok colliding_FS /\
  map Entry_Name (fst (ReadDir colliding_FS ".")) = ["a"; "a"] /\
  map Offset (fst (ReadDir colliding_FS ".")) = [512; 1536] /\
  match FS_Entry colliding_FS "a" with
  | Ok e => Offset e = 1536
  | _ => False
  end /\
  ~ NoDup (map Entry_Name (fst (ReadDir colliding_FS "."))).
Proof.
  split; [by vm_compute|]. split; [by vm_compute|].
  split; [by vm_compute|]. split; [by vm_compute|].
  replace (map Entry_Name (fst (ReadDir colliding_FS "."))) with ["a"; "a"]
    by (by vm_compute).
  intros Hnd. apply NoDup_cons in Hnd as [Hnin _]. apply Hnin. constructor.
Qed.

(** C10: [ReadDir] of a name that is the parent directory of no indexed
    entry returns the empty list and a nil error, for a file system built by
    [New] as for one restored by [Decode]. *)
Theorem ReadDir_not_a_parent fsys name :
  (exists hdrs, New hdrs None = Ok fsys) \/ (exists toc, fsys = Decode toc) ->
  (forall e, In e (files fsys) -> dir e <> name) ->
  ReadDir fsys name = ([], None).
Proof.
  intros [[hdrs H]|[toc ->]] Hno.
  - rewrite (ReadDir_New hdrs fsys name H).
    rewrite filter_none; [done|]. intros e Hin Heq. by apply (Hno e).
  - unfold ReadDir, Decode. simpl. by rewrite lookup_empty.
Qed.

Lemma ReadDir_not_a_parent_witness :
  ReadDir sample_FS "usr/bin/binary" = ([], None) /\
  ReadDir sample_FS "no/such/path" = ([], None).
Proof.
  split.
  - apply (ReadDir_not_a_parent sample_FS "usr/bin/binary").
    + left. exists sample_hdrs. vm_compute. reflexivity.
    + intros e Hin. vm_compute in Hin.
      repeat (destruct Hin as [<-|Hin]; [vm_compute; discriminate|]).
      destruct Hin.
  - apply (ReadDir_not_a_parent sample_FS "no/such/path").
    + left. exists sample_hdrs. vm_compute. reflexivity.
    + intros e Hin. vm_compute in Hin.
      repeat (destruct Hin as [<-|Hin]; [vm_compute; discriminate|]).
      destruct Hin.
Defined.



(** *** [File.ReadDir] *)

Lemma ReadDir_nil_error fsys name : snd (ReadDir fsys name) = None.
Proof. unfold ReadDir. by destruct (dirs fsys !! name). Qed.

Lemma slice_in_range {A} (l : list A) lo hi :
  0 <= lo <= hi -> hi <= Z.of_nat (length l) ->
  slice l lo hi = Ok (take (Z.to_nat (hi - lo)) (drop (Z.to_nat lo) l)).
Proof.
  intros [H1 H2] H3. unfold slice.
  destruct (0 <=? lo) eqn:E1; [|lia].
  destruct (lo <=? hi) eqn:E2; [|lia].
  destruct (hi <=? Z.of_nat (length l)) eqn:E3; [done|lia].
Qed.

(** One call, for a cursor inside the listing. *)
Lemma File_ReadDir_call fsys f n :
  0 <= cursor f <= Z.of_nat (length (fst (ReadDir fsys (Filename (fEntry f))))) ->
  exists f',
    File_ReadDir fsys f n =
      Ok (if n =? 0 then []
          else if n <? 0
          then drop (Z.to_nat (cursor f)) (fst (ReadDir fsys (Filename (fEntry f))))
          else take (Z.to_nat n)
                 (drop (Z.to_nat (cursor f)) (fst (ReadDir fsys (Filename (fEntry f))))),
          if (0 <? n) &&
             (cursor f >=? Z.of_nat (length (fst (ReadDir fsys (Filename (fEntry f))))))
          then Some EOF else None,
          f') /\
    fEntry f' = fEntry f /\
    cursor f' =
      (if n =? 0 then cursor f
       else if n <? 0
       then Z.of_nat (length (fst (ReadDir fsys (Filename (fEntry f)))))
       else Z.min (cursor f + n)
                  (Z.of_nat (length (fst (ReadDir fsys (Filename (fEntry f))))))).
Proof.
  unfold File_ReadDir.
  pose proof (ReadDir_nil_error fsys (Filename (fEntry f))) as Herr.
  destruct (ReadDir fsys (Filename (fEntry f))) as [ds err]. simpl in *. subst err.
  intros Hc.
  destruct (n =? 0) eqn:E0; [apply Z.eqb_eq in E0; subst n; by exists f|].
  destruct (cursor f >=? Z.of_nat (length ds)) eqn:Ec.
  - assert (Hd : drop (Z.to_nat (cursor f)) ds = []) by (apply drop_ge; lia).
    rewrite Hd, take_nil.
    exists f. destruct (n <? 0) eqn:En.
    + replace (0 <? n) with false by lia. simpl. repeat split; lia.
    + replace (0 <? n) with true by lia. simpl. repeat split; lia.
  - rewrite andb_false_r.
    destruct ((n >? 0) && (Z.of_nat (length ds) - cursor f >? n)) eqn:Ep.
    + apply andb_true_iff in Ep as [Ep1 Ep2].
      rewrite slice_in_range by lia.
      replace (n <? 0) with false by lia.
      replace (cursor f + n - cursor f) with n by lia.
      exists {| fEntry := fEntry f; sr := sr f; cursor := cursor f + n |}.
      split; [reflexivity|]. simpl. split; [done|lia].
    + rewrite slice_in_range by lia.
      assert (Hall : take (Z.to_nat (Z.of_nat (length ds) - cursor f))
                       (drop (Z.to_nat (cursor f)) ds) =
                     drop (Z.to_nat (cursor f)) ds).
      { apply take_ge. rewrite length_drop. lia. }
      rewrite Hall.
      exists {| fEntry := fEntry f; sr := sr f; cursor := Z.of_nat (length ds) |}.
      split; [|simpl; split; [done|]].
      * destruct (n <? 0) eqn:En; [done|].
        rewrite take_ge; [done|]. rewrite length_drop.
        apply andb_false_iff in Ep as [Ep|Ep]; lia.
      * destruct (n <? 0) eqn:En; [done|].
        apply andb_false_iff in Ep as [Ep|Ep]; lia.
Qed.

Lemma take_window {A} (l : list A) (a b c : nat) :
  (a <= b)%nat -> (b <= c)%nat ->
  take (b - a) (drop a l) ++ take (c - b) (drop b l) = take (c - a) (drop a l).
Proof.
  intros Hab Hbc.
  replace (drop b l) with (drop (b - a) (drop a l))
    by (rewrite drop_drop; f_equal; lia).
  rewrite take_take_drop. f_equal. lia.
Qed.

(** Successive calls return consecutive windows of the listing. *)
Lemma ReadDir_pages_window fsys ns : forall f,
  0 <= cursor f <= Z.of_nat (length (fst (ReadDir fsys (Filename (fEntry f))))) ->
  exists pages f',
    ReadDir_pages fsys f ns = Ok (pages, f') /\
    fEntry f' = fEntry f /\
    cursor f <= cursor f' <= Z.of_nat (length (fst (ReadDir fsys (Filename (fEntry f))))) /\
    concat pages =
      take (Z.to_nat (cursor f' - cursor f))
           (drop (Z.to_nat (cursor f)) (fst (ReadDir fsys (Filename (fEntry f))))).
Proof.
  induction ns as [|n ns IH]; intros f Hc; simpl.
  - exists [], f. repeat split; try lia. by rewrite Z.sub_diag.
  - destruct (File_ReadDir_call fsys f n Hc) as (f1 & -> & He & Hc1).
    assert (Hc1' : cursor f <= cursor f1 <=
                   Z.of_nat (length (fst (ReadDir fsys (Filename (fEntry f)))))).
    { rewrite Hc1. destruct (n =? 0) eqn:E0; [lia|].
      destruct (n <? 0) eqn:En; lia. }
    destruct (IH f1) as (pages & f2 & -> & He2 & Hc2 & Hcat).
    { rewrite He. lia. }
    rewrite He in *. eexists _, _.
    split; [reflexivity|]. split; [congruence|]. split; [lia|].
    simpl. rewrite Hcat.
    set (ds := fst (ReadDir fsys (Filename (fEntry f)))) in *.
    assert (Hfirst :
      (if n =? 0 then []
       else if n <? 0 then drop (Z.to_nat (cursor f)) ds
       else take (Z.to_nat n) (drop (Z.to_nat (cursor f)) ds)) =
      take (Z.to_nat (cursor f1) - Z.to_nat (cursor f))
           (drop (Z.to_nat (cursor f)) ds)).
    { rewrite Hc1. destruct (n =? 0) eqn:E0.
      - by rewrite Nat.sub_diag.
      - destruct (n <? 0) eqn:En.
        + symmetry. apply take_ge. rewrite length_drop. lia.
        + destruct (Z.le_ge_cases (cursor f + n) (Z.of_nat (length ds))).
          * rewrite Z.min_l by done. f_equal. lia.
          * rewrite Z.min_r by lia.
            rewrite !take_ge; [done| |]; rewrite length_drop; lia. }
    rewrite Hfirst.
    replace (Z.to_nat (cursor f2 - cursor f1))
      with (Z.to_nat (cursor f2) - Z.to_nat (cursor f1))%nat by lia.
    replace (Z.to_nat (cursor f2 - cursor f))
      with (Z.to_nat (cursor f2) - Z.to_nat (cursor f))%nat by lia.
    apply take_window; lia.
Qed.

(** C9 (amended): for a handle whose cursor lies inside the listing,
    [ReadDir(n)] with [n > 0] returns the next [n] entries (fewer at the
    end) and [io.EOF] with no entries once the cursor is exhausted; with
    [n < 0] it returns all remaining entries; with [n = 0] it returns no
    entry and leaves the cursor where it is; and the slices returned by
    successive calls, concatenated, are the listing from the first cursor to
    the last, that is the whole listing once a fresh handle is exhausted. *)
Theorem File_ReadDir_pagination fsys f :
  0 <= cursor f <= Z.of_nat (length (fst (ReadDir fsys (Filename (fEntry f))))) ->
  (forall n, 0 < n -> exists f',
     File_ReadDir fsys f n =
       Ok (take (Z.to_nat n)
             (drop (Z.to_nat (cursor f)) (fst (ReadDir fsys (Filename (fEntry f))))),
           if cursor f >=? Z.of_nat (length (fst (ReadDir fsys (Filename (fEntry f)))))
           then Some EOF else None, f') /\
     cursor f' = Z.min (cursor f + n)
                   (Z.of_nat (length (fst (ReadDir fsys (Filename (fEntry f))))))) /\
  (forall n, n < 0 -> exists f',
     File_ReadDir fsys f n =
       Ok (drop (Z.to_nat (cursor f)) (fst (ReadDir fsys (Filename (fEntry f)))),
           None, f') /\
     cursor f' = Z.of_nat (length (fst (ReadDir fsys (Filename (fEntry f)))))) /\
  File_ReadDir fsys f 0 = Ok ([], None, f) /\
  (forall ns, exists pages f',
     ReadDir_pages fsys f ns = Ok (pages, f') /\
     concat pages =
       take (Z.to_nat (cursor f' - cursor f))
         (drop (Z.to_nat (cursor f)) (fst (ReadDir fsys (Filename (fEntry f))))) /\
     (cursor f = 0 ->
      cursor f' = Z.of_nat (length (fst (ReadDir fsys (Filename (fEntry f))))) ->
      concat pages = fst (ReadDir fsys (Filename (fEntry f))))).
Proof.
  intros Hc. repeat split.
  - intros n Hn. destruct (File_ReadDir_call fsys f n Hc) as (f' & Hr & _ & Hc').
    exists f'. rewrite Hr, Hc'.
    replace (n =? 0) with false by lia. replace (n <? 0) with false by lia.
    replace (0 <? n) with true by lia. done.
  - intros n Hn. destruct (File_ReadDir_call fsys f n Hc) as (f' & Hr & _ & Hc').
    exists f'. rewrite Hr, Hc'.
    replace (n =? 0) with false by lia. replace (n <? 0) with true by lia.
    replace (0 <? n) with false by lia. done.
  - intros ns.
    destruct (ReadDir_pages_window fsys ns f Hc) as (pages & f' & Hr & _ & Hc' & Hcat).
    exists pages, f'. split; [done|]. split; [done|].
    intros H0 Hend. rewrite Hcat, H0, Hend. simpl.
    rewrite Z.sub_0_r, Nat2Z.id. apply take_ge. done.
Qed.

Lemma File_ReadDir_pagination_witness :
  exists pages f',
    ReadDir_pages sample_FS root_File [2; 2; 2] = Ok (pages, f') /\
    concat pages = fst (ReadDir sample_FS ".").
Proof.
  destruct (File_ReadDir_pagination sample_FS root_File) as (_ & _ & _ & Hp).
  { vm_compute. split; discriminate. }
  destruct (Hp [2; 2; 2]) as (pages & f' & Hr & _ & Hall).
  exists pages, f'. split; [exact Hr|].
  apply Hall; [reflexivity|].
  vm_compute in Hr. injection Hr as <- <-. vm_compute. reflexivity.
Defined.

(** C9, as stated, fails for [n = 0]: the call returns no entry although
    three entries remain, and a caller repeating it never sees the
    listing. *)
Lemma File_ReadDir_zero_returns_nothing :
  File_ReadDir sample_FS root_File 0 = Ok ([], None, root_File) /\
  length (drop (Z.to_nat (cursor root_File)) (fst (ReadDir sample_FS "."))) = 3%nat /\
  (exists pages, ReadDir_pages sample_FS root_File [0; 0; 0] = Ok (pages, root_File) /\
                 concat pages <> fst (ReadDir sample_FS ".")).
Proof.
  split; [by vm_compute|]. split; [by vm_compute|].
  eexists. split; [by vm_compute|]. by vm_compute.
Qed.



(** *** [FS.open] and the hop counter *)

Lemma open_unfold fsys name hops :
  open fsys name hops =
  if hops >? maxHops then Err (ErrTooManySymlinks name)
  else match open_once fsys name with
       | Hop next => open fsys next (hops + 1)
       | Done r => r
       end.
Proof.
  rewrite open_equation_1. unfold open_once.
  destruct (Z_gt_dec hops maxHops) as [H|H]; simpl.
  - by replace (hops >? maxHops) with true by lia.
  - replace (hops >? maxHops) with false by lia.
    destruct (FS_Entry fsys name) as [e|err|m]; simpl.
    + by destruct (is_link e).
    + by destruct (symlinked_dir fsys name (dirs_of name)) as [[t|]|e'|m].
    + done.
Qed.

Lemma chase_split fsys a b name x :
  chase fsys (a + b) name = Some x <->
  exists y, chase fsys a name = Some y /\ chase fsys b y = Some x.
Proof.
  revert name. induction a as [|a IH]; intros name; simpl.
  - split; [eauto|]. by intros (y & [= ->] & H).
  - destruct (open_once fsys name) as [next|r]; [apply IH|].
    split; [done|]. by intros (y & [=] & _).
Qed.

Lemma chase_cycle fsys k name m :
  chase fsys k name = Some name -> chase fsys (m * k) name = Some name.
Proof.
  intros Hk. induction m as [|m IH]; [done|].
  simpl. apply chase_split. eauto.
Qed.

(** Either the chain of links ends within the budget, and [open] returns
    what the last call finds, or it is still going after the last permitted
    hop, and the next call fails on the guard. *)
Lemma open_dichotomy fsys (m : nat) : forall name hops,
  hops = 256 - Z.of_nat m -> (m <= 256)%nat ->
  (exists (k : nat) name' r,
      (k < m)%nat /\ chase fsys k name = Some name' /\
      open_once fsys name' = Done r /\ open fsys name hops = r) \/
  (exists name',
      chase fsys m name = Some name' /\
      open fsys name hops = Err (ErrTooManySymlinks name')).
Proof.
  induction m as [|m IH]; intros name hops Hh Hm; rewrite open_unfold.
  - right. exists name. split; [done|].
    by replace (hops >? maxHops) with true by (unfold maxHops; lia).
  - replace (hops >? maxHops) with false by (unfold maxHops; lia).
    destruct (open_once fsys name) as [next|r] eqn:E.
    + destruct (IH next (hops + 1)) as [(k & name' & r & Hk & Hc & Hd & Ho)|(name' & Hc & Ho)];
        [lia|lia| |].
      * left. exists (S k), name', r. simpl. rewrite E. repeat split; try done. lia.
      * right. exists name'. simpl. by rewrite E.
    + left. exists 0%nat, name, r. repeat split; try done. lia.
Qed.

(** C7: [open] follows at most [maxHops] = 255 link indirections to reach a
    file; a chain that is still a link after 256 indirections is abandoned
    with the too-many-symlinks error by the call whose hop counter is 256,
    so the recursion is never deeper than 256 calls below [Open]'s; in
    particular a cycle of links always ends in that error. *)
Theorem open_bounded_hops fsys name :
  ((exists (k : nat) name' r,
       (k <= 255)%nat /\ chase fsys k name = Some name' /\
       open_once fsys name' = Done r /\ open fsys name 0 = r) \/
   (exists name',
       chase fsys 256 name = Some name' /\
       open fsys name 0 = Err (ErrTooManySymlinks name'))) /\
  (forall f, open fsys name 0 = Ok f ->
     exists (k : nat) name',
       (k <= 255)%nat /\ chase fsys k name = Some name' /\
       open_once fsys name' = Done (Ok f)) /\
  (forall k : nat, (0 < k)%nat -> chase fsys k name = Some name ->
     exists name', open fsys name 0 = Err (ErrTooManySymlinks name')).
Proof.
  pose proof (open_dichotomy fsys 256 name 0 eq_refl (le_n _)) as Hd.
  split; [|split].
  - destruct Hd as [(k & name' & r & Hk & H)|H]; [left|by right].
    exists k, name', r. split; [lia|done].
  - intros f Hf.
    destruct Hd as [(k & name' & r & Hk & Hc & Ho & Hr)|(name' & _ & Hr)].
    + exists k, name'. split; [lia|]. split; [done|]. congruence.
    + congruence.
  - intros k Hk Hcyc.
    destruct Hd as [(j & name' & r & Hj & Hc & Ho & Hr)|(name' & _ & Hr)];
      [exfalso|by exists name'].
    pose proof (chase_cycle fsys k name 256 Hcyc) as Hlong.
    replace (256 * k)%nat with (j + (1 + (256 * k - j - 1)))%nat in Hlong by lia.
    apply chase_split in Hlong as (y & Hy & Hrest).
    rewrite Hc in Hy. injection Hy as <-.
    apply chase_split in Hrest as (z & Hz & _).
    simpl in Hz. by rewrite Ho in Hz.
Qed.

Lemma open_bounded_hops_witness :
  exists name', open sample_FS "loop" 0 = Err (ErrTooManySymlinks name').
Proof.
  destruct (open_bounded_hops sample_FS "loop") as (_ & _ & Hcycle).
  apply (Hcycle 1%nat); [lia|]. vm_compute. reflexivity.
Defined.

End TarfsFacts.

(** ** Properties of the index reader *)

Module GsipFacts.
Import Flate Gsip.

Lemma wrap64_id z : - 2 ^ 63 <= z < 2 ^ 63 -> wrap64 z = z.
Proof.
  intros H. unfold wrap64. rewrite Z.mod_small; lia.
Qed.

Lemma advance_0 o : advance o 0 = o.
Proof. destruct o. unfold advance. simpl. f_equal. lia. Qed.

Lemma advance_offset o n : offset (advance o n) = offset o + Z.of_nat n.
Proof. done. Qed.

(** *** The three searches of [acquireReader] *)

Lemma find_exact_Some r off ord zr :
  find_exact r off ord = Some zr ->
  List.In zr ord /\ exists o, idle r zr o /\ offset o = off.
Proof.
  induction ord as [|k ord IH]; simpl; [done|].
  destruct (readers r !! k) as [[|]|] eqn:Ek;
    try (intros H; destruct (IH H) as [? ?]; by auto).
  destruct (objs r !! k) as [o|] eqn:Eo;
    try (intros H; destruct (IH H) as [? ?]; by auto).
  unfold Offset. destruct (offset o =? off) eqn:E.
  - intros [= <-]. split; [by left|]. exists o. repeat split; try done. lia.
  - intros H; destruct (IH H) as [? ?]; by auto.
Qed.


Lemma find_idle_Some r off ord zr o :
  find_idle r off ord = Some (zr, o) ->
  List.In zr ord /\ idle r zr o /\ offset o <= off.
Proof.
  induction ord as [|k ord IH]; simpl; [done|].
  destruct (readers r !! k) as [[|]|] eqn:Ek;
    try (intros H; destruct (IH H) as [? ?]; by auto).
  destruct (objs r !! k) as [o'|] eqn:Eo;
    try (intros H; destruct (IH H) as [? ?]; by auto).
  unfold Offset. destruct (offset o' >? off) eqn:E.
  - intros H; destruct (IH H) as [? ?]; by auto.
  - intros [= <- <-]. split; [by left|]. repeat split; try done. lia.
Qed.

Lemma find_idle_None r off ord :
  find_idle r off ord = None ->
  forall zr o, List.In zr ord -> idle r zr o -> off < offset o.
Proof.
  induction ord as [|k ord IH]; simpl; [done|].
  intros H zr o [->|Hin] [Hr Ho].
  - rewrite Hr, Ho in H. unfold Offset in H.
    destruct (offset o >? off) eqn:E; [lia|done].
  - destruct (readers r !! k) as [[|]|]; try (by eapply IH).
    destruct (objs r !! k) as [o'|]; try (by eapply IH).
    destruct (Offset o' >? off); [by eapply IH|done].
Qed.

(** The checkpoint scan returns the last checkpoint of the longest prefix
    that lies at or before [off]. *)
Lemma find_highest_prefix cs off h :
  exists pre post,
    cs = pre ++ post /\
    Forall (fun c => Out c <= off) pre /\
    (match post with c :: _ => off < Out c | [] => True end) /\
    find_highest cs off h = list.last (option_list h ++ pre).
Proof.
  revert h. induction cs as [|c cs IH]; intros h; simpl.
  - exists [], []. repeat split; try done. rewrite app_nil_r. by destruct h.
  - destruct (Out c >? off) eqn:E.
    + exists [], (c :: cs). repeat split; try done; [lia|].
      rewrite app_nil_r. by destruct h.
    + destruct (IH (Some c)) as (pre & post & -> & Hpre & Hpost & Hres).
      exists (c :: pre), post. repeat split; try done.
      * constructor; [lia|done].
      * rewrite Hres. simpl. by destruct h.
Qed.

Lemma find_highest_None cs off :
  find_highest cs off None = None <->
  match cs with c :: _ => off < Out c | [] => True end.
Proof.
  destruct cs as [|c cs]; simpl; [done|].
  destruct (Out c >? off) eqn:E; [split; [lia|done]|].
  split; [|lia]. intros H.
  destruct (find_highest_prefix cs off (Some c)) as (pre & post & _ & _ & _ & Hres).
  rewrite H in Hres. simpl in Hres.
  by destruct pre using rev_ind; [|rewrite app_comm_cons, last_snoc in Hres].
Qed.






(** *** [io.CopyN] into [io.Discard] *)

Lemma CopyN_Discard_spec o n :
  0 <= n ->
  CopyN_Discard o n =
    if n <=? Z.of_nat (length (pending o))
    then (advance o (Z.to_nat n), None)
    else (advance o (length (pending o)), Some (final o)).
Proof.
  intros Hn. unfold CopyN_Discard.
  destruct (n <=? 0) eqn:E; [|done].
  assert (n = 0) as -> by lia.
  destruct (Z.leb_spec 0 (Z.of_nat (length (pending o)))); [|lia].
  by rewrite advance_0.
Qed.

(** *** [acquireReader], search by search *)

Section Acquire.
Variable Continue : Checkpoint -> result gzReader.
Variables ord1 ord2 : list nat.

Lemma acquire_exact r off zr :
  find_exact r off ord1 = Some zr ->
  acquireReader Continue ord1 ord2 r off = (Ok zr, set_busy r zr true).
Proof. intros H. unfold acquireReader. by rewrite H. Qed.

Lemma acquire_resume r off highest :
  find_exact r off ord1 = None ->
  find_highest (checkpoints r) off None = Some highest ->
  0 <= off - Out highest < 2 ^ 63 ->
  acquireReader Continue ord1 ord2 r off =
    match Continue highest with
    | Ok o =>
        if off - Out highest <=? Z.of_nat (length (pending o))
        then (Ok (fresh (dom (objs r))),
              set_busy (set_obj r (fresh (dom (objs r)))
                          (advance o (Z.to_nat (off - Out highest))))
                       (fresh (dom (objs r))) true)
        else (Err (final o), r)
    | Err e => (Err (ErrContinue e), r)
    | Panic m => (Panic m, r)
    end.
Proof.
  intros H1 H2 Hr. unfold acquireReader. rewrite H1, H2.
  destruct (Continue highest) as [o|e|m]; try done.
  rewrite wrap64_id by lia. rewrite CopyN_Discard_spec by lia.
  by destruct (off - Out highest <=? Z.of_nat (length (pending o))).
Qed.

Lemma acquire_fallback r off zr o :
  find_exact r off ord1 = None ->
  find_highest (checkpoints r) off None = None ->
  find_idle r off ord2 = Some (zr, o) ->
  0 <= off - offset o < 2 ^ 63 ->
  acquireReader Continue ord1 ord2 r off =
    if off - offset o <=? Z.of_nat (length (pending o))
    then (Ok zr, set_obj (set_busy r zr true) zr
                   (advance o (Z.to_nat (off - offset o))))
    else (Err (final o), set_obj (set_busy r zr true) zr
                           (advance o (length (pending o)))).
Proof.
  intros H1 H2 H3 Hr. unfold acquireReader. rewrite H1, H2, H3.
  unfold Offset. rewrite wrap64_id by lia. rewrite CopyN_Discard_spec by lia.
  by destruct (off - offset o <=? Z.of_nat (length (pending o))).
Qed.

Lemma acquire_fail r off :
  find_exact r off ord1 = None ->
  find_highest (checkpoints r) off None = None ->
  find_idle r off ord2 = None ->
  acquireReader Continue ord1 ord2 r off = (Err (ErrNoCheckpoint off), r).
Proof. intros H1 H2 H3. unfold acquireReader. by rewrite H1, H2, H3. Qed.

(** Whatever the searches find, a reader that is handed out is in the pool,
    marked busy, and has its object in place. *)
Lemma acquire_Ok_busy r off zr r' :
  acquireReader Continue ord1 ord2 r off = (Ok zr, r') ->
  readers r' !! zr = Some false /\ is_Some (objs r' !! zr) /\
  size r' = size r /\ checkpoints r' = checkpoints r.
Proof.
  unfold acquireReader.
  destruct (find_exact r off ord1) as [k|] eqn:E1.
  { intros [= <- <-]. apply find_exact_Some in E1 as (_ & o & [_ Ho] & _).
    simpl. rewrite lookup_insert_eq. eauto. }
  destruct (find_highest (checkpoints r) off None) as [h|] eqn:E2.
  - destruct (Continue h) as [o|e|m]; try done.
    destruct (CopyN_Discard o _) as [o' [e|]]; [done|].
    intros [= <- <-]. simpl. rewrite !lookup_insert_eq. eauto.
  - destruct (find_idle r off ord2) as [[k o]|] eqn:E3; [|done].
    destruct (CopyN_Discard o _) as [o' [e|]]; [done|].
    intros [= <- <-]. simpl. rewrite !lookup_insert_eq. eauto.
Qed.

End Acquire.






Lemma sample_indexed_visits : visits_pool [0%nat] sample_indexed.
Proof.
  intros zr [x Hx]. simpl in Hx.
  destruct (decide (zr = 0%nat)) as [->|Hne]; [by left|].
  by rewrite lookup_singleton_ne in Hx.
Qed.

Lemma sample_indexed_idle zr o :
  idle sample_indexed zr o -> o = reader_at sample_data 0.
Proof.
  intros [_ Ho]. simpl in Ho.
  destruct (decide (zr = 0%nat)) as [->|Hne].
  - rewrite lookup_singleton_eq in Ho. by injection Ho.
  - by rewrite lookup_singleton_ne in Ho.
Qed.


(** *** [ReadAt] *)

Lemma ReadFull_length o len :
  length (fst (fst (ReadFull o len))) = Nat.min len (length (pending o)).
Proof.
  unfold ReadFull. destruct (Nat.leb_spec len (length (pending o))); simpl.
  - rewrite length_take. lia.
  - lia.
Qed.

(** C6 (amended): [ReadAt] passes on the error of a failed acquisition and
    fills nothing; on an acquired reader it either fills all [len] bytes and
    returns a nil error, or fills the bytes the stream still had and returns
    an error: [io.ErrUnexpectedEOF] if the stream ended cleanly after at
    least one byte, [io.EOF] if it ended cleanly with no byte read, and the
    decoder's own error otherwise. *)
Theorem ReadAt_fills_or_errors Continue ord1 ord2 r len off :
  (forall e r1,
     acquireReader Continue ord1 ord2 r off = (Err e, r1) ->
     ReadAt Continue ord1 ord2 r len off = (Ok ([], Some e), r1)) /\
  (forall zr r1,
     acquireReader Continue ord1 ord2 r off = (Ok zr, r1) ->
     exists o r',
       objs r1 !! zr = Some o /\
       ReadAt Continue ord1 ord2 r len off =
         (Ok (if (len <=? length (pending o))%nat
              then (take len (pending o), None)
              else (pending o,
                    Some (match pending o, final o with
                          | _ :: _, EOF => ErrUnexpectedEOF
                          | _, e => e
                          end))), r')) /\
  (forall bytes err r',
     ReadAt Continue ord1 ord2 r len off = (Ok (bytes, err), r') ->
     (err = None /\ length bytes = len) \/
     (exists e, err = Some e /\
        ((bytes = [] /\
          exists r1, acquireReader Continue ord1 ord2 r off = (Err e, r1)) \/
         (exists zr r1 o,
            acquireReader Continue ord1 ord2 r off = (Ok zr, r1) /\
            objs r1 !! zr = Some o /\ bytes = pending o /\
            (length bytes < len)%nat /\
            e = match pending o, final o with
                | _ :: _, EOF => ErrUnexpectedEOF
                | _, e => e
                end)))).
Proof.
  split; [|split].
  - intros e r1 H. unfold ReadAt. by rewrite H.
  - intros zr r1 H. unfold ReadAt. rewrite H.
    destruct (acquire_Ok_busy _ _ _ _ _ _ _ H) as (_ & [o Ho] & _).
    rewrite Ho. exists o. unfold ReadFull.
    destruct (len <=? length (pending o))%nat; eauto.
  - intros bytes err r'. unfold ReadAt.
    destruct (acquireReader Continue ord1 ord2 r off) as [[zr|e|m] r1] eqn:E.
    + destruct (acquire_Ok_busy _ _ _ _ _ _ _ E) as (_ & [o Ho] & _).
      rewrite Ho. unfold ReadFull.
      destruct (Nat.leb_spec len (length (pending o))).
      * intros [= <- <- <-]. left. split; [done|]. rewrite length_take. lia.
      * intros [= <- <- <-]. right. eexists. split; [done|]. right.
        exists zr, r1, o. repeat split; done.
    + intros [= <- <- <-]. right. exists e. split; [done|]. left. eauto.
    + done.
Qed.

Lemma ReadAt_fills_or_errors_witness :
  ReadAt (Continue_from sample_data) [0%nat] [0%nat] sample_after_read 1 0 =
    (Ok ([], Some (ErrNoCheckpoint 0)), sample_after_read).
Proof.
  destruct (ReadAt_fills_or_errors (Continue_from sample_data) [0%nat] [0%nat]
              sample_after_read 1 0) as (Hfail & _ & _).
  apply Hfail. vm_compute. reflexivity.
Defined.

(** C6, as stated, fails at the end of the stream: a read of two bytes at
    offset 4 of a four-byte stream fills nothing and returns [io.EOF], not
    [io.ErrUnexpectedEOF]. *)
Lemma ReadAt_at_end_returns_EOF :
  fst (ReadAt (Continue_from sample_data) [0%nat] [0%nat] sample_Reader 2 4)
    = Ok ([], Some EOF) /\
  length (@nil Z) <> 2%nat /\ EOF <> ErrUnexpectedEOF.
Proof. split; [by vm_compute|]. split; done. Qed.



(** *** Round trip through faithful decoders *)

Lemma find_highest_In cs off highest :
  find_highest cs off None = Some highest ->
  List.In highest cs /\ Out highest <= off.
Proof.
  intros H.
  destruct (find_highest_prefix cs off None) as (pre & post & -> & Hpre & _ & Hres).
  rewrite H in Hres. simpl in Hres.
  destruct pre as [|p pre _] using rev_ind; [done|].
  rewrite last_snoc in Hres. injection Hres as ->.
  apply Forall_app in Hpre as [_ Hp]. apply Forall_inv in Hp.
  split; [|done]. apply in_app_iff; left; apply in_app_iff; right; by left.
Qed.

Lemma faithful_advance data o n : faithful data o -> faithful data (advance o n).
Proof.
  intros (H0 & Hp & Hf). unfold faithful, advance. simpl.
  split; [lia|]. split; [|done].
  rewrite Hp, drop_drop. f_equal. lia.
Qed.

Lemma faithful_ReadFull data o len :
  faithful data o ->
  offset o + Z.of_nat len <= Z.of_nat (length data) ->
  ReadFull o len =
    (take len (drop (Z.to_nat (offset o)) data), None, advance o len).
Proof.
  intros (H0 & Hp & Hf) Hlen. unfold ReadFull.
  destruct (Nat.leb_spec len (length (pending o))) as [_|Hlt].
  - by rewrite Hp.
  - rewrite Hp, length_drop in Hlt. lia.
Qed.

Lemma faithful_discard data o off :
  faithful data o -> offset o <= off <= Z.of_nat (length data) ->
  (off - offset o <=? Z.of_nat (length (pending o))) = true /\
  faithful data (advance o (Z.to_nat (off - offset o))) /\
  offset (advance o (Z.to_nat (off - offset o))) = off.
Proof.
  intros Hf Hoff. split; [|split].
  - destruct Hf as (H0 & Hp & _). rewrite Hp, length_drop.
    apply Z.leb_le. lia.
  - by apply faithful_advance.
  - rewrite advance_offset. lia.
Qed.

(** X16.  [ReadAt] relative to its decoders.  Let every idle decoder of the
    pool be a decoder of the stream [data], and let [gzip.Continue], for the
    checkpoint that [acquireReader] picks for [off], return a decoder of
    [data] standing at the checkpoint's [Out].  For [0 <= off] and
    [off + len] within [data]: if some idle decoder stands at or before
    [off], or the first checkpoint lies at or before [off], [ReadAt] returns
    exactly [data[off : off+len]] with a nil error and leaves a pool of
    decoders of [data]; otherwise it fails with the no-checkpoint error.
    Whether the decoders that [flate.Continue] resumes are such decoders is
    not part of this statement. *)
Theorem ReadAt_round_trip Continue ord1 ord2 r data len off :
  (forall ck, find_highest (checkpoints r) off None = Some ck ->
     0 <= Out ck /\
     exists o, Continue ck = Ok o /\ faithful data o /\ offset o = Out ck) ->
  (forall zr o, idle r zr o -> faithful data o) ->
  visits_pool ord1 r -> visits_pool ord2 r ->
  0 <= off -> off + Z.of_nat len <= Z.of_nat (length data) ->
  Z.of_nat (length data) < 2 ^ 63 ->
  ((exists zr o, idle r zr o /\ offset o <= off) \/
   (exists ck, head (checkpoints r) = Some ck /\ Out ck <= off) ->
   exists r',
     ReadAt Continue ord1 ord2 r len off =
       (Ok (take len (drop (Z.to_nat off) data), None), r') /\
     checkpoints r' = checkpoints r /\
     (forall zr o, idle r' zr o -> faithful data o)) /\
  (~ ((exists zr o, idle r zr o /\ offset o <= off) \/
      (exists ck, head (checkpoints r) = Some ck /\ Out ck <= off)) ->
   ReadAt Continue ord1 ord2 r len off =
     (Ok ([], Some (ErrNoCheckpoint off)), r)).
Proof.
  intros Hck Hpool Hv1 Hv2 H0 Hlen Hmax.
  destruct (find_exact r off ord1) as [zr|] eqn:E1.
  { (* an idle decoder stands at off *)
    pose proof (find_exact_Some _ _ _ _ E1) as (_ & o & Hi & Ho).
    pose proof (Hpool zr o Hi) as Hf.
    split.
    - intros _. unfold ReadAt.
      rewrite (acquire_exact Continue ord1 ord2 r off zr E1). simpl.
      destruct Hi as [_ Hi]. rewrite Hi.
      rewrite (faithful_ReadFull data o len Hf) by lia. rewrite Ho.
      eexists. split; [done|]. split; [done|]. simpl.
      intros k o' [Hr Hk]. simpl in *.
      destruct (decide (k = zr)) as [->|Hne].
      + rewrite lookup_insert_eq in Hk. injection Hk as <-.
        by apply faithful_advance.
      + rewrite !lookup_insert_ne in Hr by done.
        rewrite lookup_insert_ne in Hk by done. by apply (Hpool k).
    - intros Hn. exfalso. apply Hn. left. exists zr, o. split; [done|lia]. }
  destruct (find_highest (checkpoints r) off None) as [h|] eqn:E2.
  { (* resume from a checkpoint *)
    pose proof (find_highest_In _ _ _ E2) as (Hin & Hle).
    destruct (Hck h eq_refl) as (Hh0 & o & HC & Hf & Ho).
    destruct (faithful_discard data o off Hf) as (Hd1 & Hd2 & Hd3); [lia|].
    split.
    - intros _. unfold ReadAt.
      rewrite (acquire_resume Continue ord1 ord2 r off h E1 E2) by lia.
      rewrite HC. rewrite <- Ho, Hd1. simpl. rewrite lookup_insert_eq.
      rewrite (faithful_ReadFull data _ len Hd2) by lia. rewrite Hd3.
      eexists. split; [done|]. split; [done|]. simpl.
      intros k o' [Hr Hk]. simpl in *.
      destruct (decide (k = fresh (dom (objs r)))) as [->|Hne].
      + rewrite lookup_insert_eq in Hk. injection Hk as <-.
        by apply faithful_advance.
      + rewrite !lookup_insert_ne in Hr by done.
        rewrite !lookup_insert_ne in Hk by done. by apply (Hpool k).
    - intros Hn. exfalso. apply Hn. right.
      destruct (checkpoints r) as [|c cs]; [done|]. exists c. split; [done|].
      simpl in E2. destruct (Z.gtb_spec (Out c) off); [done|lia]. }
  destruct (find_idle r off ord2) as [[zr o]|] eqn:E3.
  { (* advance an idle decoder *)
    pose proof (find_idle_Some _ _ _ _ _ E3) as (_ & Hi & Hle).
    pose proof (Hpool zr o Hi) as Hf.
    destruct (faithful_discard data o off Hf) as (Hd1 & Hd2 & Hd3); [lia|].
    split.
    - intros _. unfold ReadAt.
      rewrite (acquire_fallback Continue ord1 ord2 r off zr o E1 E2 E3)
        by (destruct Hf; lia).
      rewrite Hd1. simpl. rewrite lookup_insert_eq.
      rewrite (faithful_ReadFull data _ len Hd2) by lia. rewrite Hd3.
      eexists. split; [done|]. split; [done|]. simpl.
      intros k o' [Hr Hk]. simpl in *.
      destruct (decide (k = zr)) as [->|Hne].
      + rewrite lookup_insert_eq in Hk. injection Hk as <-.
        by apply faithful_advance.
      + rewrite !lookup_insert_ne in Hr by done.
        rewrite !lookup_insert_ne in Hk by done. by apply (Hpool k).
    - intros Hn. exfalso. apply Hn. left. eauto. }
  (* nothing to start from *)
  split.
  - intros [(zr & o & Hi & Hle)|(ck & Hhd & Hle)]; exfalso.
    + assert (off < offset o); [|lia].
      apply (find_idle_None r off ord2 E3 zr o); [|done].
      apply Hv2. destruct Hi as [-> _]. eauto.
    + apply find_highest_None in E2.
      destruct (checkpoints r) as [|c cs]; [done|].
      injection Hhd as ->. lia.
  - intros _. unfold ReadAt.
    by rewrite (acquire_fail Continue ord1 ord2 r off E1 E2 E3).
Qed.

Lemma sample_Reader_visits : visits_pool [0%nat] sample_Reader.
Proof.
  intros zr [x Hx]. simpl in Hx.
  destruct (decide (zr = 0%nat)) as [->|Hne]; [by left|].
  by rewrite lookup_singleton_ne in Hx.
Qed.

Lemma ReadAt_round_trip_witness :
  find_highest (checkpoints sample_indexed) 3 None = Some (sample_checkpoint 2) /\
  exists r',
    ReadAt (Continue_from sample_data) [0%nat] [0%nat] sample_indexed 1 3 =
      (Ok ([40], None), r').
Proof.
  split; [by vm_compute|].
  destruct (ReadAt_round_trip (Continue_from sample_data) [0%nat] [0%nat]
              sample_indexed sample_data 1 3) as [Hok _].
  - intros ck Hck. vm_compute in Hck. injection Hck as <-.
    split; [by vm_compute|]. eexists. split; [reflexivity|].
    split; [|reflexivity]. unfold faithful. simpl. split; [lia|done].
  - intros zr o Hi. apply sample_indexed_idle in Hi as ->.
    unfold faithful. simpl. split; [lia|done].
  - apply sample_indexed_visits.
  - apply sample_indexed_visits.
  - lia.
  - simpl. lia.
  - simpl. lia.
  - destruct Hok as (r' & Hr & _).
    + left. exists 0%nat, (reader_at sample_data 0). split; [|simpl; lia].
      split; by vm_compute.
    + exists r'. exact Hr.
Defined.

(** A read can arrive behind the frontier: after [ReadAt(p, 0)] with
    [len(p) = 3] the only decoder stands at 3, no checkpoint has been
    appended, and [ReadAt(p, 0)] with [len(p) = 1], well inside the
    four-byte stream, returns the no-checkpoint error instead of the first
    byte. *)
Lemma ReadAt_behind_frontier_fails :
  ReadAt (Continue_from sample_data) [0%nat] [0%nat] sample_Reader 3 0 =
    (Ok ([10; 20; 30], None), sample_after_read) /\
  ReadAt (Continue_from sample_data) [0%nat] [0%nat] sample_after_read 1 0 =
    (Ok ([], Some (ErrNoCheckpoint 0)), sample_after_read) /\
  take 1 (drop (Z.to_nat 0) sample_data) = [10] /\
  0 + 1 <= Z.of_nat (length sample_data).
Proof. repeat split; by vm_compute. Qed.

End GsipFacts.

(** * Facts about the decoder *)

Module FlateFacts.
Import Flate.

(** ** Reasoning about methods *)

Lemma bind_Ok {A B} (m : M A) (k : A -> M B) w b w' :
  (m ≫= k) w = Ok (b, w') ->
  exists a w1, m w = Ok (a, w1) /\ k a w1 = Ok (b, w').
Proof.
  unfold mbind, M_bind. destruct (m w) as [[a w1]| |]; try discriminate.
  intros H. by exists a, w1.
Qed.

Lemma hoare_bind {A B} P (m : M A) (k : A -> M B) (phi : A -> Prop) J Q :
  hoare P m (fun a w => phi a /\ J w) ->
  (forall a, phi a -> hoare J (k a) Q) ->
  hoare P (m ≫= k) Q.
Proof.
  intros Hm Hk w b w' HP H. apply bind_Ok in H as (a & w1 & H1 & H2).
  destruct (Hm _ _ _ HP H1) as [Hphi HJ]. exact (Hk a Hphi _ _ _ HJ H2).
Qed.

Lemma hoare_conseq {A} (P P' : World -> Prop) (m : M A) (Q Q' : A -> World -> Prop) :
  hoare P' m Q' -> (forall w, P w -> P' w) ->
  (forall a w, Q' a w -> Q a w) -> hoare P m Q.
Proof. intros H HP HQ w a w' Hw Hr. apply HQ, (H w); auto. Qed.

Lemma hoare_ret {A} (P : World -> Prop) (a : A) (Q : A -> World -> Prop) :
  (forall w, P w -> Q a w) -> hoare P (mret a) Q.
Proof. intros H w a' w' HP [= <- <-]. auto. Qed.

Lemma hoare_panic {A} P msg (Q : A -> World -> Prop) : hoare P (panic msg) Q.
Proof. intros w a w' _ H. discriminate. Qed.

Lemma hoare_gets {A} P (p : Decompressor -> A) (Q : A -> World -> Prop) :
  (forall w, P w -> Q (p (dec w)) w) -> hoare P (gets p) Q.
Proof. intros H w a w' HP [= <- <-]. auto. Qed.

Lemma hoare_modify P g (Q : unit -> World -> Prop) :
  (forall w, P w -> Q tt (upd g w)) -> hoare P (modify g) Q.
Proof. intros H w a w' HP [= <- <-]. exact (H _ HP). Qed.

Lemma hoare_lift {A} P (x : result A) (Q : A -> World -> Prop) :
  (forall a w, x = Ok a -> P w -> Q a w) -> hoare P (lift x) Q.
Proof.
  intros H w a w' HP. unfold lift. destruct x; intros [= <- <-]. auto.
Qed.

Lemma hoare_load P a (Q : list Z -> World -> Prop) :
  (forall l w, heap w !! a = Some l -> P w -> Q l w) -> hoare P (load a) Q.
Proof.
  intros H w l w' HP. unfold load.
  destruct (heap w !! a) eqn:E; intros [= <- <-]. auto.
Qed.

Lemma hoare_store P a l (Q : unit -> World -> Prop) :
  (forall w, P w ->
     Q tt {| dec := dec w; heap := <[a := l]> (heap w); chan := chan w |}) ->
  hoare P (store a l) Q.
Proof. intros H w u w' HP [= <- <-]. auto. Qed.

Lemma hoare_send P ck (Q : unit -> World -> Prop) :
  (forall w, P w ->
     Q tt {| dec := dec w; heap := heap w; chan := chan w ++ [ck] |}) ->
  hoare P (send ck) Q.
Proof. intros H w u w' HP [= <- <-]. auto. Qed.

Lemma hoare_make P n (Q : loc -> World -> Prop) :
  (forall w, P w ->
     Q (fresh (dom (heap w)))
       {| dec := dec w;
          heap := <[fresh (dom (heap w)) := repeat 0 (Z.to_nat n)]> (heap w);
          chan := chan w |}) ->
  hoare P (make n) Q.
Proof. intros H w u w' HP [= <- <-]. auto. Qed.

Lemma keeps_bind {A B} I (m : M A) (k : A -> M B) phi psi :
  keeps I m phi -> (forall a, phi a -> keeps I (k a) psi) ->
  keeps I (m ≫= k) psi.
Proof. apply hoare_bind. Qed.

Lemma keeps_weaken {A} I (m : M A) (phi psi : A -> Prop) :
  keeps I m phi -> (forall a, phi a -> psi a) -> keeps I m psi.
Proof.
  intros H Hi w a w' HI Hr. destruct (H _ _ _ HI Hr). split; auto.
Qed.

Lemma keeps_ret {A} (I : World -> Prop) (a : A) :
  keeps I (mret a) (fun x => x = a).
Proof. apply hoare_ret. auto. Qed.

Lemma keeps_gets {A} (I : World -> Prop) (p : Decompressor -> A) :
  keeps I (gets p) (fun _ => True).
Proof. apply hoare_gets. auto. Qed.

Lemma keeps_lift {A} (I : World -> Prop) (x : result A) :
  keeps I (lift x) (fun a => x = Ok a).
Proof. apply hoare_lift. auto. Qed.

Lemma keeps_panic {A} (I : World -> Prop) msg (phi : A -> Prop) :
  keeps I (panic msg) phi.
Proof. apply hoare_panic. Qed.

Lemma keeps_modify (I : World -> Prop) g :
  (forall w, I w -> I (upd g w)) -> keeps I (modify g) (fun _ => True).
Proof. intros H. apply hoare_modify. auto. Qed.

(** ** The invariant, step by step *)

Ltac unfold_M :=
  unfold gets_dict, modify_dict, gets, modify, load, store, make, send, lift,
    panic, mbind, M_bind, mret, M_ret in *.

Ltac inv_destruct H :=
  let h := fresh "hw" in
  unfold Inv, InvD in H;
  destruct H as (Hh & (h & Hw & Hlen) & Hk & Hcur & Htr & Hro & Hsp & Hla &
                 Hwo & Hpre & Hinc & Hck & HN & HC).

Ltac inv_build :=
  try unfold Inv; unfold InvD; simpl;
  repeat lazymatch goal with |- _ /\ _ => split end.

(** The parts of the invariant that follow from those of the state before. *)
Ltac inv_auto :=
  inv_build;
  try first
    [ eassumption
    | lia
    | solve [eauto]
    | lazymatch goal with
      | Hck : forall ck, ck ∈ _ -> _ /\ _ |- forall ck, ck ∈ _ -> _ =>
          let ck := fresh "ck" in
          let Hin := fresh "Hin" in
          intros ck Hin; destruct (Hck ck Hin); split; lia
      end ].

Section Invariant.

Variables (hloc : loc) (N : nat) (C : Z) (keep : gmap loc (list Z))
  (sent0 : list Checkpoint) (W : Z).

#[local] Abbreviation I := (Inv hloc N C keep sent0 W).

Lemma moreBits_Inv : keeps I moreBits (fun _ => True).
Proof.
  intros w a w' HI H. unfold moreBits in H. unfold_M.
  destruct (r (dec w)) as [|c inp'] eqn:E; injection H as <- <-;
    (split; [done|]); [exact HI|].
  inv_destruct HI. rewrite E in Hro. simpl in Hro.
  assert (Hr : wrap64 (roffset (dec w) + 1) = roffset (dec w) + 1)
    by (apply GsipFacts.wrap64_id; lia).
  rewrite Hr. inv_auto.
Qed.

(** One step of a proof that a method keeps the invariant: through a bind,
    a conditional or a match, or by a method already dealt with. *)
Create HintDb inv discriminated.

Ltac kprim :=
  first
    [ apply keeps_gets
    | apply keeps_lift
    | apply keeps_panic
    | apply keeps_ret
    | apply keeps_modify; let HH := fresh in intros ? HH; exact HH
    | eassumption
    | solve [eauto with inv] ].

Ltac kgo :=
  lazymatch goal with
  | |- keeps _ (mbind _ _) _ =>
      first [ eapply keeps_bind; [kprim | intros ? ?]
            | eapply (keeps_bind _ _ _ (fun _ => True)); [ | intros ? _] ]
  | |- keeps _ (if ?c then _ else _) _ => destruct c eqn:?
  | |- keeps _ (match ?x with _ => _ end) _ => destruct x eqn:?
  | |- keeps _ _ _ =>
      first [ kprim | eapply keeps_weaken; [kprim | done]
            | progress cbv zeta ]
  end.

Lemma hist_len_Inv : keeps I hist_len (fun n => n = Z.of_nat N).
Proof.
  intros w a w' HI H. unfold hist_len in H. unfold_M. simpl in H.
  inv_destruct HI. rewrite Hh, Hw in H. injection H as <- <-.
  split; [by rewrite Hlen|]. inv_auto.
Qed.
#[local] Hint Resolve hist_len_Inv : inv.

Lemma histSize_Inv : keeps I histSize (fun _ => True).
Proof. unfold histSize, gets_dict. repeat kgo. Qed.

Lemma availRead_Inv : keeps I availRead (fun _ => True).
Proof. unfold availRead, gets_dict. repeat kgo. Qed.

Lemma availWrite_Inv : keeps I availWrite (fun _ => True).
Proof. unfold availWrite, gets_dict. repeat kgo. Qed.
#[local] Hint Resolve moreBits_Inv histSize_Inv availRead_Inv availWrite_Inv : inv.

Lemma set_index_length {A} (l l' : list A) i x :
  set_index l i x = Ok l' ->
  length l' = length l /\ 0 <= i < Z.of_nat (length l).
Proof.
  unfold set_index.
  destruct (Z.leb_spec 0 i), (Z.ltb_spec i (Z.of_nat (length l)));
    simpl; intros [= <-]. rewrite length_insert. lia.
Qed.

Lemma writeByte_Inv c : keeps I (writeByte c) (fun _ => True).
Proof.
  intros w a w' HI H. unfold writeByte in H. unfold_M. simpl in H.
  inv_destruct HI. rewrite Hh, Hw in H.
  destruct (set_index hw (wrPos (dict (dec w))) c) as [h'| |] eqn:E;
    try discriminate.
  injection H as <- <-. apply set_index_length in E as [E1 E2].
  split; [done|]. inv_auto.
  - exists h'. rewrite lookup_insert_eq. split; [done|lia].
  - intros a v Ha. destruct (Hk a v Ha). by rewrite lookup_insert_ne.
Qed.

Lemma copy_within_spec h dlo dhi slo shi h' n :
  copy_within h dlo dhi slo shi = Ok (h', n) ->
  length h' = length h /\ 0 <= n /\ dlo + n <= dhi /\
  n = Z.min (dhi - dlo) (shi - slo) /\
  0 <= dlo /\ dhi <= Z.of_nat (length h).
Proof.
  unfold copy_within.
  destruct (Z.leb_spec 0 dlo), (Z.leb_spec dlo dhi),
    (Z.leb_spec dhi (Z.of_nat (length h))), (Z.leb_spec 0 slo),
    (Z.leb_spec slo shi), (Z.leb_spec shi (Z.of_nat (length h)));
    simpl; intros [= <- <-].
  rewrite !length_app, !length_take, !length_drop. lia.
Qed.

Lemma copy_forward_spec fuel : forall h d e s h' d',
  copy_forward fuel h d e s = Ok (h', d') ->
  length h' = length h /\ d <= d' /\ d' <= Z.max d e.
Proof.
  induction fuel as [|fuel IH]; intros h d e s h' d'; simpl;
    destruct (Z.ltb_spec d e); try discriminate;
    try (intros [= <- <-]; lia).
  unfold mbind, result_bind.
  destruct (copy_within h d e s d) as [[h1 n]| |] eqn:E; try discriminate.
  intros Hc. apply copy_within_spec in E. apply IH in Hc. lia.
Qed.

(** Writing to the window and moving its write cursor forward. *)
Lemma Inv_write w h' wr' :
  I w -> length h' = N -> wrPos (dict (dec w)) <= wr' <= Z.of_nat N ->
  I {| dec := set_dict (set_wrPos wr' (dict (dec w))) (dec w);
       heap := <[hloc := h']> (heap w); chan := chan w |}.
Proof.
  intros HI Hl Hwr. inv_destruct HI. inv_auto.
  - exists h'. by rewrite lookup_insert_eq.
  - intros a v Ha. destruct (Hk a v Ha). by rewrite lookup_insert_ne.
Qed.

Lemma writeCopy_Inv dist len : keeps I (writeCopy dist len) (fun _ => True).
Proof.
  intros w a w' HI H. unfold writeCopy in H. unfold_M. simpl in H.
  pose proof HI as HI'. inv_destruct HI'. rewrite Hh, Hw in H.
  split; [done|].
  set (wr := wrPos (dict (dec w))) in *.
  set (e := if wr + len >? Z.of_nat (length hw) then Z.of_nat (length hw)
            else wr + len) in *.
  assert (He : e <= Z.of_nat N)
    by (subst e; destruct (Z.gtb_spec (wr + len) (Z.of_nat (length hw))); lia).
  destruct (wr - dist <? 0).
  - destruct (copy_within hw wr e _ _) as [[h1 n]| |] eqn:E1;
      try discriminate.
    simpl in H. apply copy_within_spec in E1.
    destruct (copy_forward _ h1 (wr + n) e 0) as [[h2 d2]| |] eqn:E2;
      try discriminate.
    apply copy_forward_spec in E2. injection H as <- <-.
    apply (Inv_write w h2 d2 HI); fold wr; lia.
  - simpl in H.
    destruct (copy_forward _ hw wr e (wr - dist)) as [[h2 d2]| |] eqn:E2;
      try discriminate.
    apply copy_forward_spec in E2. injection H as <- <-.
    apply (Inv_write w h2 d2 HI); fold wr; lia.
Qed.

Lemma tryWriteCopy_Inv dist len :
  keeps I (tryWriteCopy dist len) (fun _ => True).
Proof.
  intros w a w' HI H. unfold tryWriteCopy in H. unfold_M. simpl in H.
  pose proof HI as HI'. inv_destruct HI'. rewrite Hh, Hw in H.
  split; [done|].
  set (wr := wrPos (dict (dec w))) in *.
  destruct (wr <? dist); simpl in H; [by injection H as <- <-|].
  destruct (Z.gtb_spec (wr + len) (Z.of_nat (length hw)));
    [by injection H as <- <-|].
  destruct (copy_forward _ hw wr (wr + len) (wr - dist)) as [[h2 d2]| |] eqn:E2;
    try discriminate.
  apply copy_forward_spec in E2. injection H as <- <-.
  apply (Inv_write w h2 d2 HI); fold wr; lia.
Qed.

Lemma readFlush_Inv :
  keeps I readFlush (fun tr => 0 <= fst tr <= snd tr /\ snd tr <= Z.of_nat N).
Proof.
  intros w a w' HI H. unfold readFlush, hist_len in H. unfold_M. simpl in H.
  inv_destruct HI. rewrite Hh, Hw in H.
  destruct (Z.leb_spec 0 (rdPos (dict (dec w)))),
    (Z.leb_spec (rdPos (dict (dec w))) (wrPos (dict (dec w)))),
    (Z.leb_spec (wrPos (dict (dec w))) (Z.of_nat (length hw)));
    simpl in H; try discriminate.
  destruct (wrPos (dict (dec w)) =? Z.of_nat (length hw));
    injection H as <- <-; simpl; (split; [lia|]); inv_auto.
Qed.

Lemma set_toRead_Inv tr :
  0 <= fst tr <= snd tr /\ snd tr <= Z.of_nat N ->
  keeps I (modify (set_toRead tr)) (fun _ => True).
Proof.
  intros Htr'. apply keeps_modify. intros w HI. inv_destruct HI. inv_auto.
Qed.
#[local] Hint Resolve writeByte_Inv writeCopy_Inv tryWriteCopy_Inv
  readFlush_Inv set_toRead_Inv : inv.

Lemma fill_bits_Inv fuel k : keeps I (fill_bits fuel k) (fun _ => True).
Proof. induction fuel as [|fuel IH]; simpl; repeat kgo. Qed.

Lemma need_bits_Inv k : keeps I (need_bits k) (fun _ => True).
Proof. apply fill_bits_Inv. Qed.

Lemma take_bits_Inv k : keeps I (take_bits k) (fun _ => True).
Proof. unfold take_bits. repeat kgo. Qed.

Lemma deref_Inv p : keeps I (deref p) (fun _ => True).
Proof. destruct p; simpl; repeat kgo. Qed.

(** Taking one byte from the input. *)
Lemma Inv_byte w c inp' :
  I w -> r (dec w) = c :: inp' ->
  I (upd (fun f => set_roffset (wrap64 (roffset f + 1)) f)
       (upd (set_r inp') w)).
Proof.
  intros HI E. inv_destruct HI. rewrite E in Hro. simpl in Hro.
  unfold upd. simpl.
  rewrite GsipFacts.wrap64_id by lia. inv_auto.
Qed.

Lemma huffSym_fill_Inv fuel : forall n nb0 b0,
  keeps I (huffSym_fill fuel n nb0 b0) (fun _ => True).
Proof.
  induction fuel as [|fuel IH]; intros n nb0 b0; simpl.
  - repeat kgo.
  - destruct (nb0 <? n); [|repeat kgo].
    intros w a w' HI H. apply bind_Ok in H as (inp & w1 & [= <- <-] & H).
    destruct (r (dec w)) as [|c inp'] eqn:E.
    + injection H as <- <-. by split.
    + apply bind_Ok in H as ([] & w2 & [= <-] & H).
      apply bind_Ok in H as ([] & w3 & [= <-] & H).
      eapply IH; [|exact H]. exact (Inv_byte w c inp' HI E).
Qed.
#[local] Hint Resolve fill_bits_Inv need_bits_Inv take_bits_Inv deref_Inv
  huffSym_fill_Inv : inv.

Lemma huffSym_loop_Inv fuel : forall h n nb0 b0,
  keeps I (huffSym_loop fuel h n nb0 b0) (fun _ => True).
Proof.
  induction fuel as [|fuel IH]; intros h n nb0 b0; simpl; repeat kgo.
Qed.
#[local] Hint Resolve huffSym_loop_Inv : inv.

Lemma huffSym_Inv p : keeps I (huffSym p) (fun _ => True).
Proof. unfold huffSym. repeat kgo. Qed.
#[local] Hint Resolve huffSym_Inv : inv.

Lemma increasing_snoc cs ck :
  increasing cs ->
  (forall c, c ∈ cs -> Out c < Out ck /\ In c <= In ck) ->
  increasing (cs ++ [ck]).
Proof.
  intros Hs Hall. apply StronglySorted_app_2; [|done|repeat constructor].
  intros x1 x2 H1 H2. apply list_elem_of_singleton in H2 as ->. by apply Hall.
Qed.

(** The arrays to keep can be forgotten. *)
Lemma InvD_keep_weaken d keep' w :
  keep ⊆ keep' ->
  InvD d hloc N C keep' sent0 W w -> InvD d hloc N C keep sent0 W w.
Proof.
  intros Hsub HI. inv_destruct HI. inv_auto.
  intros a v Ha. apply Hk. by eapply lookup_weaken.
Qed.

(** The first part of [finishBlock] returns the offset the second compares
    with [f.last]; it changes neither the store nor the channel. *)
Lemma finishBlock_flush_run w :
  I w -> 0 <= W < 2 ^ 62 ->
  exists w1,
    finishBlock_flush w = Ok (finish_offset w, w1) /\ I w1 /\
    heap w1 = heap w /\ chan w1 = chan w /\
    last (dec w1) = last (dec w) /\ span (dec w1) = span (dec w) /\
    updates (dec w1) = updates (dec w) /\ roffset (dec w1) = roffset (dec w) /\
    b (dec w1) = b (dec w) /\ nb (dec w1) = nb (dec w) /\
    W <= finish_offset w <= W + Z.of_nat N.
Proof.
  intros HI HW. pose proof HI as HI'. inv_destruct HI'.
  unfold finishBlock_flush, finish_offset, availRead, readFlush, hist_len.
  unfold_M. simpl. rewrite Hwo.
  destruct (final (dec w)) eqn:Hfin; simpl;
    [|exists w; repeat (split; [done|]); lia].
  destruct (Z.gtb_spec (wrPos (dict (dec w)) - rdPos (dict (dec w))) 0)
    as [Hav|Hav]; simpl.
  - rewrite Hh, Hw. simpl.
    destruct (Z.leb_spec 0 (rdPos (dict (dec w)))); [|lia].
    destruct (Z.leb_spec (rdPos (dict (dec w))) (wrPos (dict (dec w))));
      [|lia].
    destruct (Z.leb_spec (wrPos (dict (dec w))) (Z.of_nat (length hw)));
      [|lia].
    simpl.
    destruct (Z.eqb_spec (wrPos (dict (dec w))) (Z.of_nat (length hw))); simpl;
      rewrite GsipFacts.wrap64_id by lia;
      eexists; (split; [reflexivity|]); simpl;
      (split; [inv_auto|repeat (split; [done|]); lia]).
  - eexists; (split; [reflexivity|]); simpl.
    split; [inv_auto|repeat (split; [done|]); lia].
Qed.

(** The second part sends a checkpoint exactly when [woffset - f.last]
    exceeds [f.span]; the checkpoint holds a fresh array with the contents
    of the window. *)
Lemma finishBlock_send_run o w h :
  I w -> heap w !! hloc = Some h -> 0 <= o <= 2 ^ 62 + Z.of_nat N ->
  exists w',
    finishBlock_send o w = Ok (tt, w') /\
    ((updates (dec w) = true /\ span (dec w) < o - last (dec w) /\
      exists c,
        heap w !! c = None /\ c <> hloc /\
        InvD 0 hloc N C (<[c := h]> keep) sent0 W w' /\
        w' = {| dec := set_last o (dec w); heap := <[c := h]> (heap w);
                chan := chan w ++
                  [{| In := roffset (dec w); Out := o; B := b (dec w);
                      NB := nb (dec w); Hist := c;
                      WrPos := wrPos (dict (dec w));
                      RdPos := rdPos (dict (dec w));
                      Full := full (dict (dec w));
                      Empty := false; GzipHeader := None |}] |}) \/
     (~ (updates (dec w) = true /\ span (dec w) < o - last (dec w)) /\
      w' = w)).
Proof.
  intros HI Hwh Ho. inv_destruct HI. rewrite Hw in Hwh. injection Hwh as ->.
  unfold finishBlock_send. unfold_M. simpl.
  rewrite (GsipFacts.wrap64_id (o - last (dec w))) by lia.
  destruct (updates (dec w)) eqn:Hup; simpl;
    [|exists w; split; [done|right; split; [intros []|]; done]].
  destruct (Z.gtb_spec (o - last (dec w)) (span (dec w))) as [Hgt|Hgt]; simpl;
    [|exists w; split; [done|right; split; [intros []; lia|done]]].
  rewrite Hh, Hw. simpl. rewrite insert_insert_eq.
  set (c := fresh (dom (heap w))).
  assert (Hc : heap w !! c = None) by apply not_elem_of_dom, is_fresh.
  assert (Hne : c <> hloc) by congruence.
  eexists. split; [reflexivity|]. left. split; [done|]. split; [lia|].
  exists c. split; [done|]. split; [done|]. split; [|done].
  inv_auto.
  - exists h. by rewrite lookup_insert_ne.
  - intros a v Ha. destruct (decide (c = a)) as [<-|Hca].
    + rewrite lookup_insert_eq in Ha. injection Ha as <-.
      by rewrite lookup_insert_eq.
    + rewrite lookup_insert_ne in Ha by done. destruct (Hk a v Ha).
      by rewrite lookup_insert_ne.
  - by apply prefix_app_r.
  - apply increasing_snoc; [done|]. intros c0 Hin. simpl.
    destruct (Hck c0 Hin). lia.
  - intros ck Hin. apply elem_of_app in Hin as [Hin|Hin].
    + destruct (Hck ck Hin). lia.
    + apply list_elem_of_singleton in Hin as ->. simpl. lia.
Qed.

(** From here on the output is below 2^62 bytes when a step starts. *)
Hypothesis HW : 0 <= W < 2 ^ 62.

(** [finishBlock] returns; it sends a checkpoint exactly when the output
    has advanced by more than [span] since [last], and the checkpoint holds
    a fresh array with the contents of the window. *)
Lemma finishBlock_run w :
  I w ->
  exists w' h,
    finishBlock w = Ok (tt, w') /\ heap w !! hloc = Some h /\
    ((updates (dec w) = true /\
      span (dec w) < finish_offset w - last (dec w) /\
      exists c,
        heap w !! c = None /\ c <> hloc /\
        InvD 0 hloc N C (<[c := h]> keep) sent0 W w' /\
        chan w' = chan w ++
          [{| In := roffset (dec w); Out := finish_offset w; B := b (dec w);
              NB := nb (dec w); Hist := c; WrPos := wrPos (dict (dec w'));
              RdPos := rdPos (dict (dec w')); Full := full (dict (dec w'));
              Empty := false; GzipHeader := None |}] /\
        last (dec w') = finish_offset w /\
        heap w' = <[c := h]> (heap w)) \/
     (~ (updates (dec w) = true /\
         span (dec w) < finish_offset w - last (dec w)) /\
      I w' /\ chan w' = chan w /\ last (dec w') = last (dec w) /\
      heap w' = heap w)).
Proof.
  intros HI.
  destruct (finishBlock_flush_run w HI HW)
    as (w1 & Hf & HI1 & Hhp & Hch & Hl & Hs & Hu & Hr & Hb & Hnb & Hfo).
  assert (exists h, heap w !! hloc = Some h) as [h Hwh]
    by (inv_destruct HI; eauto).
  assert (Hwh1 : heap w1 !! hloc = Some h) by (by rewrite Hhp).
  assert (HN : Z.of_nat N <= 2 ^ 32) by (inv_destruct HI; done).
  destruct (finishBlock_send_run (finish_offset w) w1 h HI1 Hwh1)
    as (w2 & Hsnd & Hcase); [lia|].
  exists (upd (set_step step_nextBlock) w2), h.
  split.
  { unfold finishBlock, mbind, M_bind. rewrite Hf, Hsnd. reflexivity. }
  split; [done|].
  rewrite Hu, Hs, Hl in Hcase.
  destruct Hcase as [(Hup & Hgt & c & Hc & Hne & HI2 & ->)|(Hno & ->)].
  - left. split; [done|]. split; [done|]. exists c.
    rewrite Hhp in Hc. split; [done|]. split; [done|]. split; [exact HI2|].
    simpl. rewrite Hch, Hr, Hb, Hnb, Hhp. done.
  - right. split; [done|]. split; [exact HI1|]. simpl. done.
Qed.

Lemma finishBlock_Inv : keeps I finishBlock (fun _ => True).
Proof.
  intros w a w' HI H. split; [done|].
  destruct (finishBlock_run w HI) as (w2 & h & Hr & _ & Hcase).
  assert (w' = w2) as -> by congruence.
  destruct Hcase as [(_ & _ & c & Hc & _ & HI2 & _)|(_ & HI2 & _)]; [|done].
  eapply InvD_keep_weaken; [|exact HI2].
  apply insert_subseteq. destruct (keep !! c) as [v|] eqn:E; [|done].
  inv_destruct HI. destruct (Hk c v E). congruence.
Qed.
#[local] Hint Resolve finishBlock_Inv : inv.

(** Taking [length got] bytes from the input, writing them to the window at
    its write cursor and advancing the cursor and [f.roffset] by their
    number, as [copyData] does. *)
Lemma Inv_copy w hw0 got rest :
  I w -> heap w !! hloc = Some hw0 ->
  r (dec w) = got ++ rest ->
  wrPos (dict (dec w)) + Z.of_nat (length got) <= Z.of_nat N ->
  I (upd (fun f => set_dict (set_wrPos (wrPos (dict f) + Z.of_nat (length got))
                               (dict f)) f)
      (upd (fun f => set_copyLen (copyLen f - Z.of_nat (length got)) f)
        (upd (fun f => set_roffset
                         (wrap64 (roffset f + Z.of_nat (length got))) f)
           {| dec := set_r rest (dec w);
              heap := <[hloc :=
                 take (Z.to_nat (wrPos (dict (dec w)))) hw0 ++ got ++
                 drop (Z.to_nat (wrPos (dict (dec w)) + Z.of_nat (length got)))
                   hw0]> (heap w);
              chan := chan w |}))).
Proof.
  intros HI Hw0 Hr Hfit. inv_destruct HI. rewrite Hw in Hw0.
  injection Hw0 as ->. rewrite Hr, length_app in Hro.
  unfold upd. simpl. rewrite GsipFacts.wrap64_id by lia. inv_auto.
  - eexists. rewrite lookup_insert_eq. split; [done|].
    rewrite !length_app, length_take, length_drop. lia.
  - intros a v Ha. destruct (Hk a v Ha). by rewrite lookup_insert_ne.
Qed.

Lemma copyData_Inv : keeps I copyData (fun _ => True).
Proof.
  intros w a w' HI H. unfold copyData in H.
  apply bind_Ok in H as (a0 & w0 & [= <- <-] & H).
  apply bind_Ok in H as (h & w0 & Hl & H).
  pose proof HI as HI'. inv_destruct HI'. unfold load in Hl.
  rewrite Hh, Hw in Hl. injection Hl as <- <-.
  apply bind_Ok in H as (wr & w0 & [= <- <-] & H).
  apply bind_Ok in H as (cl & w0 & [= <- <-] & H).
  set (wr := wrPos (dict (dec w))) in *.
  destruct (Z.leb_spec 0 wr); [|discriminate].
  destruct (Z.leb_spec wr (Z.of_nat (length hw))); [|discriminate].
  simpl in H.
  destruct ((Z.of_nat (length hw) - wr >? copyLen (dec w)) &&
            (copyLen (dec w) <? 0)); [discriminate|].
  set (blen := if Z.of_nat (length hw) - wr >? copyLen (dec w)
               then copyLen (dec w) else Z.of_nat (length hw) - wr) in *.
  assert (Hblen : blen <= Z.of_nat (length hw) - wr)
    by (subst blen;
        destruct (Z.gtb_spec (Z.of_nat (length hw) - wr) (copyLen (dec w)));
        lia).
  apply bind_Ok in H as ([got e] & w1 & Hrf & H).
  unfold ReadFull_input in Hrf.
  apply bind_Ok in Hrf as (inp & w0 & [= <- <-] & Hrf).
  apply bind_Ok in Hrf as ([] & w0 & [= <-] & [= <- <- <-]).
  apply bind_Ok in H as ([] & w2 & [= <-] & H).
  apply bind_Ok in H as ([] & w3 & [= <-] & H).
  apply bind_Ok in H as ([] & w4 & [= <-] & H).
  apply bind_Ok in H as ([] & w5 & [= <-] & H).
  assert (Htail : forall e : option error,
    keeps I (match e with
             | Some err => modify (set_err (Some (noEOF err)))
             | None =>
                 avail ← availWrite;
                 cl ← gets copyLen;
                 if (avail =? 0) || (cl >? 0) then
                   tr ← readFlush;
                   modify (set_toRead tr);;
                   modify (set_step step_copyData)
                 else finishBlock
             end) (fun _ => True))
    by (intros e0; repeat kgo).
  eapply Htail; [|exact H]. rewrite Hh.
  apply (Inv_copy w hw _ (drop (Z.to_nat blen) (r (dec w))) HI Hw).
  - by rewrite take_drop.
  - fold wr. rewrite length_take. lia.
Qed.
#[local] Hint Resolve copyData_Inv : inv.

(** Taking [got] from the input and advancing [f.roffset] by its length. *)
Lemma Inv_take w got rest g :
  I w -> r (dec w) = got ++ rest ->
  (forall f, r (g f) = r f /\ roffset (g f) = roffset f /\
             woffset (g f) = woffset f /\ dict (g f) = dict f /\
             toRead (g f) = toRead f /\ span (g f) = span f /\
             last (g f) = last f) ->
  I (upd (fun f => set_roffset (wrap64 (roffset f + Z.of_nat (length got))) f)
       (upd g (upd (set_r rest) w))).
Proof.
  intros HI Hr Hg. inv_destruct HI. rewrite Hr, length_app in Hro.
  destruct (Hg (set_r rest (dec w))) as (E1 & E2 & E3 & E4 & E5 & E6 & E7).
  unfold Inv, InvD, upd. simpl. rewrite E1, E2, E3, E4, E5, E6, E7. simpl.
  rewrite GsipFacts.wrap64_id by lia. inv_auto.
Qed.

Lemma dataBlock_Inv : keeps I dataBlock (fun _ => True).
Proof.
  intros w a w' HI H. unfold dataBlock in H.
  apply bind_Ok in H as ([] & w1 & [= <-] & H).
  apply bind_Ok in H as ([] & w2 & [= <-] & H).
  apply bind_Ok in H as ([got e] & w3 & Hrf & H).
  unfold ReadFull_input in Hrf.
  apply bind_Ok in Hrf as (inp & w0 & [= <- <-] & Hrf).
  apply bind_Ok in Hrf as ([] & w0 & [= <-] & [= <- <- <-]).
  apply bind_Ok in H as ([] & w4 & [= <-] & H).
  apply bind_Ok in H as ([] & w5 & [= <-] & H).
  assert (Htail : forall e : option error,
    keeps I (match e with
             | Some err => modify (set_err (Some (noEOF err)))
             | None =>
                 bf ← gets buf;
                 b0 ← lift (at_index bf 0);
                 b1 ← lift (at_index bf 1);
                 b2 ← lift (at_index bf 2);
                 b3 ← lift (at_index bf 3);
                 let n := Z.lor b0 (Z.shiftl b1 8) in
                 let nn := Z.lor b2 (Z.shiftl b3 8) in
                 if negb (uint16 nn =? uint16 (Z.lnot n)) then
                   off ← gets roffset;
                   modify (set_err (Some (CorruptInputError off)))
                 else if n =? 0 then
                   tr ← readFlush;
                   modify (set_toRead tr);;
                   finishBlock
                 else
                   modify (set_copyLen n);;
                   copyData
             end) (fun _ => True))
    by (intros e0; repeat kgo).
  eapply Htail; [|exact H].
  assert (HI2 : I (upd (set_b 0) (upd (set_nb 0) w))) by exact HI.
  apply (Inv_take _ (take (Z.to_nat 4) (r (dec w)))
           (drop (Z.to_nat 4) (r (dec w)))
           (fun f => set_buf (take (Z.to_nat 4) (r (dec w)) ++
              drop (length (take (Z.to_nat 4) (r (dec w)))) (buf f)) f) HI2).
  - simpl. by rewrite take_drop.
  - intros f. simpl. done.
Qed.
#[local] Hint Resolve dataBlock_Inv : inv.

Lemma readHuffman_codebits_Inv order :
  keeps I (readHuffman_codebits order) (fun _ => True).
Proof. induction order as [|o order IH]; simpl; repeat kgo. Qed.

Lemma readHuffman_zero_Inv order :
  keeps I (readHuffman_zero order) (fun _ => True).
Proof. induction order as [|o order IH]; simpl; repeat kgo. Qed.

Lemma readHuffman_repeat_Inv rep : forall i v,
  keeps I (readHuffman_repeat rep i v) (fun _ => True).
Proof. induction rep as [|rep IH]; intros i v; simpl; repeat kgo. Qed.
#[local] Hint Resolve readHuffman_codebits_Inv readHuffman_zero_Inv
  readHuffman_repeat_Inv : inv.

Lemma readHuffman_lengths_Inv fuel : forall i n,
  keeps I (readHuffman_lengths fuel i n) (fun _ => True).
Proof. induction fuel as [|fuel IH]; intros i n; simpl; repeat kgo. Qed.

Lemma init_h1_Inv lengths : keeps I (init_h1 lengths) (fun _ => True).
Proof. unfold init_h1. repeat kgo. Qed.

Lemma init_h2_Inv lengths : keeps I (init_h2 lengths) (fun _ => True).
Proof. unfold init_h2. repeat kgo. Qed.
#[local] Hint Resolve readHuffman_lengths_Inv init_h1_Inv init_h2_Inv : inv.

Lemma readHuffman_Inv : keeps I readHuffman (fun _ => True).
Proof.
  unfold readHuffman. repeat kgo.
  apply keeps_modify. intros w HI.
  unfold upd. destruct (hmin (h1 (dec w)) <? _); [exact HI|].
  by destruct w.
Qed.
#[local] Hint Resolve readHuffman_Inv : inv.

Lemma fail_with_Inv e : keeps I (fail_with e) (fun _ => True).
Proof. unfold fail_with. repeat kgo. Qed.

Lemma fail_corrupt_Inv : keeps I fail_corrupt (fun _ => True).
Proof. unfold fail_corrupt, fail_with. repeat kgo. Qed.
#[local] Hint Resolve fail_with_Inv fail_corrupt_Inv : inv.

Lemma huffmanBlock_from_Inv fuel : forall lbl,
  keeps I (huffmanBlock_from fuel lbl) (fun _ => True).
Proof.
  induction fuel as [|fuel IH]; intros lbl; simpl; [repeat kgo|].
  destruct lbl; repeat kgo.
Qed.
#[local] Hint Resolve huffmanBlock_from_Inv : inv.

Lemma huffmanBlock_Inv : keeps I huffmanBlock (fun _ => True).
Proof. unfold huffmanBlock. repeat kgo. Qed.

Lemma nextBlock_fill_Inv fuel : keeps I (nextBlock_fill fuel) (fun _ => True).
Proof. induction fuel as [|fuel IH]; simpl; repeat kgo. Qed.
#[local] Hint Resolve huffmanBlock_Inv nextBlock_fill_Inv : inv.

Lemma nextBlock_Inv : keeps I nextBlock (fun _ => True).
Proof. unfold nextBlock. repeat kgo. Qed.
#[local] Hint Resolve nextBlock_Inv : inv.

Lemma run_step_Inv : keeps I run_step (fun _ => True).
Proof. unfold run_step. repeat kgo. Qed.

End Invariant.

(** ** [Read] and the invariant *)

Lemma Inv_set_woffset hloc N C keep sent0 W W' w :
  Inv hloc N C keep sent0 W w ->
  Inv hloc N C keep sent0 W' (upd (set_woffset W') w).
Proof. intros HI. inv_destruct HI. unfold upd. inv_auto. Qed.

Lemma toRead_bytes_state n w bs w' :
  toRead_bytes n w = Ok (bs, w') -> w' = w.
Proof.
  unfold toRead_bytes. unfold_M. simpl.
  destruct (heap w !! hist (dict (dec w))); [|discriminate].
  by intros [= _ <-].
Qed.

Lemma toRead_len_bounds hloc N C keep sent0 W w :
  Inv hloc N C keep sent0 W w ->
  0 <= toRead_len (dec w) <= Z.of_nat N /\ Z.of_nat N <= 2 ^ 32.
Proof. intros HI. inv_destruct HI. unfold toRead_len. lia. Qed.

Lemma Read_loop_Inv hloc N C keep sent0 len fuel :
  0 <= len ->
  forall w W res w',
    Inv hloc N C keep sent0 W w -> 0 <= W ->
    W < 2 ^ 62 \/ 0 < toRead_len (dec w) ->
    Read_loop fuel len w = Ok (res, w') ->
    exists W', Inv hloc N C keep sent0 W' w' /\ 0 <= W'.
Proof.
  intros Hl0.
  induction fuel as [|fuel IH]; intros w W res w' HI HW0 HW H; simpl in H;
    [discriminate|].
  apply bind_Ok in H as (pending & w0 & [= <- <-] & H).
  destruct (toRead_len_bounds _ _ _ _ _ _ _ HI) as [Hp HNb].
  destruct (Z.gtb_spec (toRead_len (dec w)) 0) as [Hpos|Hzero].
  - apply bind_Ok in H as (bytes & w1 & Hb & H).
    apply toRead_bytes_state in Hb as ->.
    apply bind_Ok in H as ([] & w2 & [= <-] & H).
    assert (HI2 : Inv hloc N C keep sent0 W
              (upd (fun f => set_toRead
                 (fst (toRead f) + Z.min len (toRead_len (dec w)),
                  snd (toRead f)) f) w)).
    { pose proof HI as HI'. inv_destruct HI'. unfold toRead_len in *.
      unfold upd. inv_auto. }
    exists W. split; [|done].
    apply bind_Ok in H as (p2 & w3 & [= <- <-] & H).
    destruct (_ =? 0).
    + apply bind_Ok in H as (e & w3 & [= <- <-] & [= <- <-]). exact HI2.
    + injection H as <- <-. exact HI2.
  - assert (toRead_len (dec w) = 0) as Hz by lia.
    destruct HW as [HW|HW]; [|lia].
    apply bind_Ok in H as (e & w0 & [= <- <-] & H).
    destruct (err (dec w)) as [e|] eqn:Ee.
    { injection H as <- <-. by exists W. }
    apply bind_Ok in H as ([] & w1 & Hstep & H).
    destruct (run_step_Inv hloc N C keep sent0 W (conj HW0 HW) _ _ _ HI Hstep)
      as [_ HI1].
    apply bind_Ok in H as ([] & w2 & [= <-] & H).
    destruct (toRead_len_bounds _ _ _ _ _ _ _ HI1) as [Hp1 _].
    assert (Hwo1 : woffset (dec w1) = W)
      by (pose proof HI1 as HI'; inv_destruct HI'; done).
    pose proof (Inv_set_woffset _ _ _ _ _ _
                  (W + toRead_len (dec w1)) _ HI1) as HI2.
    apply bind_Ok in H as (e1 & w3 & [= <- <-] & H).
    apply bind_Ok in H as (p1 & w3 & [= <- <-] & H).
    apply bind_Ok in H as ([] & w3 & Hfl & H).
    simpl in Hfl. rewrite Hwo1, (GsipFacts.wrap64_id (W + _)) in Hfl by lia.
    destruct (is_Some_b _ && _) eqn:Ec.
    + apply andb_prop in Ec as [_ Ez]. apply Z.eqb_eq in Ez.
      change (toRead_len (dec w1) = 0) in Ez.
      apply bind_Ok in Hfl as (tr & w4 & Hrf & Hfl).
      destruct (readFlush_Inv _ _ _ _ _ _ _ _ _ HI2 Hrf) as [Htr0 HI4].
      apply bind_Ok in Hfl as ([] & w5 & [= <-] & [= <-]).
      destruct (set_toRead_Inv hloc N C keep sent0 _ tr Htr0 w4 tt _ HI4 eq_refl)
        as [_ HI5].
      assert (Hwo4 : woffset (dec w4) = W + toRead_len (dec w1))
        by (pose proof HI4 as HI'; inv_destruct HI'; done).
      eapply (IH _ (W + (snd tr - fst tr))); [| |
        |exact H].
      * simpl. rewrite Hwo4, Ez, Z.add_0_r.
        unfold toRead_len. simpl.
        rewrite GsipFacts.wrap64_id by lia.
        apply (Inv_set_woffset _ _ _ _ _ _ (W + (snd tr - fst tr)) _ HI5).
      * lia.
      * simpl. unfold toRead_len. simpl. lia.
    + injection Hfl as <-.
      eapply (IH _ (W + toRead_len (dec w1))); [exact HI2|lia| |exact H].
      simpl. unfold toRead_len in *. simpl. lia.
Qed.

Lemma Read_Inv hloc N C keep sent0 W len w res w' :
  Inv hloc N C keep sent0 W w -> 0 <= W < 2 ^ 62 -> 0 <= len ->
  Read len w = Ok (res, w') ->
  exists W', Inv hloc N C keep sent0 W' w' /\ 0 <= W'.
Proof.
  intros HI HW Hl H. unfold Read in H.
  apply bind_Ok in H as (inp & w0 & [= <- <-] & H).
  apply bind_Ok in H as (have & w0 & [= <- <-] & H).
  eapply Read_loop_Inv; [exact Hl|exact HI|lia|left; lia|exact H].
Qed.

Lemma frontier_pass_Inv hloc N C keep sent0 W0 w0 w :
  Inv hloc N C keep sent0 W0 w0 -> 0 <= W0 ->
  frontier_pass w0 w ->
  exists W, Inv hloc N C keep sent0 W w /\ 0 <= W.
Proof.
  intros HI0 HW0 Hp. induction Hp as [|w len res w' Hp IH Hlt Hl Hr].
  - by exists W0.
  - destruct IH as (W & HI & HW).
    assert (woffset (dec w) = W) as Hwo
      by (pose proof HI as HI'; inv_destruct HI'; done).
    eapply Read_Inv; [exact HI|lia|exact Hl|exact Hr].
Qed.

(** The decoder [NewReaderWithSpans] returns satisfies the invariant, for
    every array of the store it was made in. *)
Lemma NewReaderWithSpans_Inv input span0 start up hp :
  0 <= span0 < 2 ^ 62 -> 0 <= start ->
  start + Z.of_nat (length input) < 2 ^ 62 ->
  Inv (fresh (dom hp)) (Z.to_nat maxMatchOffset)
    (start + Z.of_nat (length input)) hp [] 0
    (NewReaderWithSpans input span0 start up hp []).
Proof.
  intros Hs Hst Hin. unfold NewReaderWithSpans.
  assert (HN : Z.of_nat (Z.to_nat maxMatchOffset) <= 2 ^ 32)
    by (unfold maxMatchOffset; lia).
  generalize dependent (Z.to_nat maxMatchOffset). intros N HN.
  assert (Hwin : length (repeat 0 N) = N) by apply repeat_length.
  generalize dependent (repeat 0 N). intros win Hwin.
  inv_auto.
  - exists win. by rewrite lookup_insert_eq.
  - intros a v Ha.
    assert (a <> fresh (dom hp)).
    { intros ->. apply (is_fresh (dom hp)). by apply elem_of_dom. }
    by rewrite lookup_insert_ne.
  - constructor.
  - intros ck Hin'. by apply elem_of_nil in Hin'.
Qed.

Lemma checkpoints_consume r cs :
  Gsip.checkpoints (foldl Gsip.consume r cs) = Gsip.checkpoints r ++ cs.
Proof.
  revert r. induction cs as [|c cs IH]; intros r; simpl.
  - by rewrite app_nil_r.
  - rewrite IH. simpl. by rewrite <- app_assoc.
Qed.

(** ** Checkpoints *)

(** C2 (as amended).  At [finishBlock], in a state that satisfies the
    decoder's invariant, with fewer than 2^62 bytes out and a non-nil
    [updates] channel: the method returns, and it sends a checkpoint if and
    only if the uncompressed offset, counting what the final block flushes,
    exceeds [f.last] by MORE than [f.span].  The checkpoint sent carries
    that offset, the compressed offset, the bit buffer and the cursor of the
    window, and a deep copy of the window: a fresh array, not the window's,
    with the window's contents, which no later [Read] changes. *)
Theorem finishBlock_checkpoint hloc N C keep sent0 W w :
  Inv hloc N C keep sent0 W w -> 0 <= W < 2 ^ 62 ->
  updates (dec w) = true ->
  exists w' h,
    finishBlock w = Ok (tt, w') /\
    heap w !! hloc = Some h /\ length h = N /\
    (finish_offset w - last (dec w) <= span (dec w) ->
       chan w' = chan w /\ last (dec w') = last (dec w)) /\
    (span (dec w) < finish_offset w - last (dec w) ->
       exists ck,
         chan w' = chan w ++ [ck] /\
         Out ck = finish_offset w /\ In ck = roffset (dec w) /\
         B ck = b (dec w) /\ NB ck = nb (dec w) /\
         WrPos ck = wrPos (dict (dec w')) /\
         RdPos ck = rdPos (dict (dec w')) /\
         Full ck = full (dict (dec w')) /\
         last (dec w') = Out ck /\
         Hist ck <> hist (dict (dec w')) /\
         heap w !! Hist ck = None /\
         heap w' !! Hist ck = Some h /\
         heap w' !! hist (dict (dec w')) = Some h /\
         forall w2, frontier_pass w' w2 -> heap w2 !! Hist ck = Some h).
Proof.
  intros HI HW Hup.
  destruct (finishBlock_run hloc N C keep sent0 W HW w HI)
    as (w' & h & Hrun & Hwh & Hcase).
  exists w', h. split; [done|]. split; [done|].
  split. { inv_destruct HI. congruence. }
  destruct Hcase as [(_ & Hgt & c & Hc & Hne & HI2 & Hch & Hl & Hhp)|
                     (Hno & HI2 & Hch & Hl & Hhp)].
  - split; [lia|]. intros _. eexists. split; [exact Hch|]. simpl.
    assert (Hh' : hist (dict (dec w')) = hloc)
      by (pose proof HI2 as HI'; inv_destruct HI'; done).
    rewrite Hh', Hhp, lookup_insert_eq, lookup_insert_ne by done.
    repeat (split; [done|]).
    intros w2 Hp.
    destruct (frontier_pass_Inv _ _ _ _ _ _ _ _ HI2 (proj1 HW) Hp)
      as (W2 & HI3 & _).
    inv_destruct HI3. apply (Hk c h). by rewrite lookup_insert_eq.
  - split; [done|]. intros Hgt. destruct Hno. done.
Qed.

(** X15.  The checkpoints of one flate decoder.  While a decoder made by
    [NewReaderWithSpans] is read, on a channel that nothing else writes to
    and without [Reset], every prefix [cs] of what it has sent, as the
    goroutine of [gsip.NewReader] appends it, is strictly increasing in
    [Out] and weakly increasing in [In]. *)
Theorem frontier_checkpoints_increasing input span0 start hp size zr w cs :
  0 <= span0 < 2 ^ 62 -> 0 <= start ->
  start + Z.of_nat (length input) < 2 ^ 62 ->
  frontier_pass (NewReaderWithSpans input span0 start true hp []) w ->
  cs `prefix_of` chan w ->
  increasing (Gsip.checkpoints (foldl Gsip.consume (Gsip.NewReader size zr) cs)).
Proof.
  intros Hs Hst Hin Hp [k Hcs].
  rewrite checkpoints_consume. simpl.
  pose proof (NewReaderWithSpans_Inv input span0 start true hp Hs Hst Hin)
    as HI0.
  destruct (frontier_pass_Inv _ _ _ _ _ _ _ _ HI0 (Z.le_refl 0) Hp)
    as (W & HI & _).
  inv_destruct HI. rewrite Hcs in Hinc.
  by apply StronglySorted_app_1_l in Hinc.
Qed.

Lemma pass_reads n len w0 :
  0 <= len -> reads_ok n len w0 = true -> frontier_pass w0 (reads n len w0).
Proof.
  intros Hl. induction n as [|n IH]; simpl; intros Hok; [constructor|].
  apply andb_prop in Hok as [Hok Hr]. apply andb_prop in Hok as [Hok Hw].
  apply Z.ltb_lt in Hw. unfold read_once at 1. fold (reads n len w0).
  destruct (Read len (reads n len w0)) as [[res w']| |] eqn:E;
    try discriminate.
  eapply pass_Read; [by apply IH|done|done|exact E].
Qed.

Lemma frontier_checkpoints_increasing_witness :
  length (chan (reads 3 100 (flushed_frontier 0))) = 2%nat /\
  increasing
    (Gsip.checkpoints
       (foldl Gsip.consume
          (Gsip.NewReader 55
             {| Gsip.offset := 0; Gsip.pending := []; Gsip.final := EOF |})
          (chan (reads 3 100 (flushed_frontier 0))))).
Proof.
  split; [by vm_compute|].
  apply (frontier_checkpoints_increasing flushed_stream 0 0 ∅ 55 _
           (reads 3 100 (flushed_frontier 0))).
  - lia.
  - lia.
  - by vm_compute.
  - apply pass_reads; [lia|by vm_compute].
  - reflexivity.
Defined.

(** The frontier decoder of [flushed_stream] keeps the invariant through
    calls of [Read]. *)
Lemma flushed_Inv n sp :
  0 <= sp < 2 ^ 62 -> reads_ok n 100 (flushed_frontier sp) = true ->
  Inv (fresh (dom (∅ : gmap loc (list Z)))) (Z.to_nat maxMatchOffset)
    (0 + Z.of_nat (length flushed_stream)) ∅ []
    (woffset (dec (reads n 100 (flushed_frontier sp))))
    (reads n 100 (flushed_frontier sp)) /\
  0 <= woffset (dec (reads n 100 (flushed_frontier sp))).
Proof.
  intros Hsp0 Hok.
  assert (Hin : 0 + Z.of_nat (length flushed_stream) < 2 ^ 62)
    by (vm_compute; reflexivity).
  destruct (frontier_pass_Inv _ _ _ _ _ _ _ (reads n 100 (flushed_frontier sp))
              (NewReaderWithSpans_Inv flushed_stream sp 0 true ∅
                 Hsp0 (Z.le_refl 0) Hin) (Z.le_refl 0)) as (W & HI & HW1).
  - apply (pass_reads n 100); [lia|exact Hok].
  - assert (woffset (dec (reads n 100 (flushed_frontier sp))) = W) as ->
      by (pose proof HI as HI'; inv_destruct HI'; exact Hwo).
    split; [exact HI|exact HW1].
Qed.

Lemma finishBlock_checkpoint_witness :
  exists w' ck,
    finishBlock emitting_state = Ok (tt, w') /\
    chan emitting_state = [] /\ chan w' = [ck] /\
    span (dec emitting_state) = 39 /\ last (dec emitting_state) = 0 /\
    Out ck = 40 /\ last (dec w') = 40 /\
    Hist ck <> hist (dict (dec w')) /\
    heap w' !! Hist ck = heap w' !! hist (dict (dec w')) /\
    length <$> heap w' !! Hist ck = Some (Z.to_nat maxMatchOffset).
Proof.
  destruct (flushed_Inv 1 39) as [HI HW0];
    [lia|vm_compute; reflexivity|].
  assert (HW : 0 <= woffset (dec (reads 1 100 (flushed_frontier 39))) < 2 ^ 62)
    by (vm_compute; split; [discriminate|reflexivity]).
  assert (Hup : updates (dec emitting_state) = true)
    by (vm_compute; reflexivity).
  destruct (finishBlock_checkpoint _ _ _ _ _ _ emitting_state HI HW Hup)
    as (w' & h & Hrun & Hwh & Hlen & _ & Hemit).
  assert (Hgt : span (dec emitting_state) <
                finish_offset emitting_state - last (dec emitting_state))
    by (vm_compute; reflexivity).
  destruct (Hemit Hgt)
    as (ck & Hch & Hout & _ & _ & _ & _ & _ & _ & Hl & Hne & _ & Hc & Hw & _).
  assert (Hce : chan emitting_state = []) by (vm_compute; reflexivity).
  assert (Hfo : finish_offset emitting_state = 40)
    by (vm_compute; reflexivity).
  rewrite Hce in Hch. rewrite Hfo in Hout. rewrite Hout in Hl.
  exists w', ck.
  split; [exact Hrun|]. split; [exact Hce|]. split; [exact Hch|].
  split; [vm_compute; reflexivity|]. split; [vm_compute; reflexivity|].
  split; [exact Hout|]. split; [exact Hl|]. split; [exact Hne|].
  split; [rewrite Hc, Hw; reflexivity|].
  rewrite Hc. cbn [fmap option_fmap option_map]. rewrite Hlen. reflexivity.
Defined.

(** C2 as stated fails.  After the first [Read] of the frontier decoder of
    [flushed_stream] with [span = 40], 40 bytes are out and none was
    checkpointed, so that the uncompressed offset has advanced by [span]
    exactly; [finishBlock] returns and sends no checkpoint. *)
Lemma finishBlock_at_span_sends_nothing :
  updates (dec boundary_state) = true /\
  span (dec boundary_state) = 40 /\
  finish_offset boundary_state - last (dec boundary_state) = 40 /\
  exists w',
    finishBlock boundary_state = Ok (tt, w') /\
    chan w' = chan boundary_state.
Proof.
  split; [vm_compute; reflexivity|]. split; [vm_compute; reflexivity|].
  split; [vm_compute; reflexivity|].
  destruct (flushed_Inv 1 40) as [HI HW0];
    [lia|vm_compute; reflexivity|].
  assert (HW : 0 <= woffset (dec (reads 1 100 (flushed_frontier 40))) < 2 ^ 62)
    by (vm_compute; split; [discriminate|reflexivity]).
  destruct (finishBlock_run _ _ _ _ _ _ HW boundary_state HI)
    as (w' & h & Hrun & _ & [(_ & Hgt & _)|(_ & _ & Hch & _)]).
  - vm_compute in Hgt. discriminate.
  - exists w'. split; [exact Hrun|exact Hch].
Qed.

(** ** Huffman tables with no symbol or a single one *)

Lemma init_count_app_zeros i rest count mn mx :
  init_count (repeat 0 i ++ rest) count mn mx = init_count rest count mn mx.
Proof. induction i as [|i IH]; simpl; done. Qed.

Lemma init_count_zeros lengths count mn mx :
  Forall (fun n => n = 0) lengths ->
  init_count lengths count mn mx = Ok (count, mn, mx).
Proof.
  induction 1 as [|n lengths -> _ IH]; simpl; done.
Qed.

Lemma init_codes_app_zeros i : forall rest j nc h,
  init_codes (repeat 0 i ++ rest) j nc h =
  init_codes rest (j + Z.of_nat i) nc h.
Proof.
  induction i as [|i IH]; intros rest j nc h.
  - simpl. by rewrite Z.add_0_r.
  - cbn [repeat app init_codes]. rewrite IH. f_equal. lia.
Qed.

Lemma init_codes_zeros k : forall j nc h,
  init_codes (repeat 0 k) j nc h = Ok h.
Proof. induction k as [|k IH]; intros j nc h; simpl; done. Qed.

Lemma init_fill_single c :
  init_fill 512 (repeat 0 512) 0 2 c = Ok (concat (repeat [c; 0] 256)).
Proof. vm_compute. reflexivity. Qed.

Lemma init_check_chunks_single c k : forall i,
  c <> 0 -> i mod 2 = 0 ->
  init_check_chunks (concat (repeat [c; 0] k)) i 1 = Ok tt.
Proof.
  induction k as [|k IH]; intros i Hc Hi; [done|].
  cbn [repeat concat app init_check_chunks].
  destruct (Z.eqb_spec c 0); [done|]. cbn [andb].
  replace ((i + 1) mod 2) with 1
    by (rewrite <- Zplus_mod_idemp_l, Hi; reflexivity).
  cbn. apply IH; [done|].
  replace (i + 1 + 1) with (i + 1 * 2) by lia.
  by rewrite Z_mod_plus_full.
Qed.

Lemma single_chunk_nonzero i :
  uint32 (Z.lor (Z.shiftl i huffmanValueShift) 1) <> 0.
Proof.
  intros H.
  assert (Hb : Z.testbit (uint32 (Z.lor (Z.shiftl i huffmanValueShift) 1)) 0
               = true).
  { unfold uint32, huffmanValueShift.
    rewrite Z.mod_pow2_bits_low by lia.
    rewrite Z.lor_spec, Z.shiftl_spec_low by lia. reflexivity. }
  rewrite H in Hb. discriminate.
Qed.

Lemma lookup_repeat {A} (x : A) n k :
  (k < n)%nat -> repeat x n !! k = Some x.
Proof.
  revert k. induction n as [|n IH]; intros [|k] Hk; simpl; try lia; [done|].
  apply IH. lia.
Qed.

(** An empty code: [init] accepts it and leaves the zero table. *)
Lemma init_empty h lengths :
  Forall (fun n => n = 0) lengths ->
  init h lengths =
  Ok (true, if negb (hmin h =? 0) then zero_huffmanDecoder else h).
Proof.
  intros Hz. unfold init. rewrite (init_count_zeros _ _ _ _ Hz). reflexivity.
Qed.

(** A single symbol with a code of length 1: [init] accepts it. *)
Lemma init_single h i k :
  (hmin h = 0 -> h = zero_huffmanDecoder) ->
  exists h',
    init h (repeat 0 i ++ 1 :: repeat 0 k) = Ok (true, h') /\ hmin h' = 1.
Proof.
  intros Hh.
  assert ((if negb (hmin h =? 0) then zero_huffmanDecoder else h)
          = zero_huffmanDecoder) as Hz.
  { destruct (Z.eqb_spec (hmin h) 0); simpl; auto. }
  set (zeros := repeat 0 (Z.to_nat maxCodeLen)).
  set (c := uint32 (Z.lor (Z.shiftl (0 + Z.of_nat i) huffmanValueShift) 1)).
  assert (Hc : init_count (1 :: repeat 0 k) zeros 0 0
               = Ok (<[1%nat := 1]> zeros, 1, 1)).
  { cbn [init_count]. change (1 =? 0) with false. cbv iota.
    change (at_index zeros 1) with (Ok 0 : result Z).
    unfold mbind, result_bind. cbv beta iota.
    replace (set_index zeros 1 (0 + 1))
      with (Ok (<[1%nat := 1]> zeros) : result (list Z))
      by (vm_compute; reflexivity).
    change (if (0 =? 0) || (1 <? 0) then 1 else 0) with 1.
    change (if 1 >? 0 then 1 else 0) with 1.
    rewrite init_count_zeros; [reflexivity|].
    apply Forall_forall. intros x Hx%list_elem_of_In.
    by apply repeat_spec in Hx. }
  assert (Hn : init_nextcode (seqZ 1 (1 - 1 + 1)) (<[1%nat := 1]> zeros)
                 zeros 0 = Ok (zeros, 1))
    by (vm_compute; reflexivity).
  assert (Hcd : init_codes (repeat 0 i ++ 1 :: repeat 0 k) 0 zeros
                  {| hmin := 1; chunks := chunks zero_huffmanDecoder;
                     links := links zero_huffmanDecoder;
                     linkMask := linkMask zero_huffmanDecoder |}
                = Ok {| hmin := 1; chunks := concat (repeat [c; 0] 256);
                        links := []; linkMask := 0 |}).
  { rewrite init_codes_app_zeros. cbn [init_codes].
    change (1 =? 0) with false. cbv iota.
    change (at_index zeros 1) with (Ok 0 : result Z).
    unfold mbind, result_bind. cbv beta iota.
    replace (set_index zeros 1 (0 + 1))
      with (Ok (<[1%nat := 1]> zeros) : result (list Z))
      by (vm_compute; reflexivity).
    cbv beta iota zeta.
    change (1 <=? huffmanChunkBits) with true. cbv iota.
    change (Z.shiftr (Reverse16 0) (16 - 1)) with 0.
    change (Z.shiftl 1 1) with 2.
    change (chunks zero_huffmanDecoder) with (repeat 0 512).
    change (length (repeat 0 512)) with 512%nat.
    fold c. rewrite init_fill_single. cbv beta iota.
    by rewrite init_codes_zeros. }
  eexists. split.
  - unfold init. rewrite Hz, init_count_app_zeros. fold zeros. rewrite Hc.
    unfold mbind, result_bind. cbv beta iota.
    change (1 =? 0) with false. cbv iota. rewrite Hn. cbv beta iota.
    change (negb (1 =? Z.shiftl 1 1) && negb ((1 =? 1) && (1 =? 1)))
      with false.
    cbv iota. change (1 >? huffmanChunkBits) with false. cbv iota.
    rewrite Hcd. cbv beta iota. unfold sanity.
    cbn [chunks links init_check_links].
    rewrite init_check_chunks_single;
      [reflexivity|apply single_chunk_nonzero|reflexivity].
  - reflexivity.
Qed.

Lemma zero_chunk b0 :
  at_index (chunks zero_huffmanDecoder) (Z.land b0 (huffmanNumChunks - 1))
  = Ok 0.
Proof.
  change (huffmanNumChunks - 1) with (Z.ones 9).
  rewrite Z.land_ones by lia.
  pose proof (Z.mod_pos_bound b0 (2 ^ 9)) as Hb.
  unfold at_index.
  destruct (Z.ltb_spec (b0 mod 2 ^ 9) 0); [lia|].
  cbn [chunks zero_huffmanDecoder]. rewrite lookup_repeat; [done|].
  change (Z.to_nat huffmanNumChunks) with (Z.to_nat (2 ^ 9)). lia.
Qed.

Lemma huffSym_loop_empty fuel nb0 b0 w :
  0 <= nb0 ->
  huffSym_loop (S fuel) zero_huffmanDecoder 0 nb0 b0 w =
  Ok ((0, Some (CorruptInputError (roffset (dec w)))),
      upd (set_err (Some (CorruptInputError (roffset (dec w)))))
        (upd (set_nb nb0) (upd (set_b b0) w))).
Proof.
  intros Hnb. cbn [huffSym_loop]. change (Z.to_nat 0) with 0%nat.
  cbn [huffSym_fill]. destruct (Z.ltb_spec nb0 0) as [|_]; [lia|].
  unfold mbind at 1, M_bind at 1, mret at 1, M_ret at 1. cbv beta iota.
  rewrite zero_chunk.
  unfold_M. cbv beta iota.
  change (Z.land 0 huffmanCountMask) with 0.
  change (0 >? huffmanChunkBits) with false. cbv beta iota.
  destruct (Z.leb_spec 0 nb0); [|lia].
  reflexivity.
Qed.

(** Decoding a symbol with the zero table fails: [huffSym] reads no input,
    sets [f.err] and returns the corrupt-input error at [f.roffset]. *)
Lemma huffSym_empty p w :
  0 <= nb (dec w) -> deref p w = Ok (zero_huffmanDecoder, w) ->
  huffSym p w =
  Ok ((0, Some (CorruptInputError (roffset (dec w)))),
      upd (set_err (Some (CorruptInputError (roffset (dec w)))))
        (upd (set_nb (nb (dec w))) (upd (set_b (b (dec w))) w))).
Proof.
  intros Hnb Hd. unfold huffSym. unfold mbind at 1, M_bind at 1.
  rewrite Hd. unfold mbind, M_bind, gets. cbv beta iota.
  change (hmin zero_huffmanDecoder) with 0.
  by rewrite huffSym_loop_empty.
Qed.

(** C4 (as amended).  A code-length assignment with no symbol is accepted
    when its table is built, and so is the degenerate coding of a single
    symbol with a code of length 1, wherever the symbol stands; the table
    here is the zero value or one with [min <> 0], as [init] leaves every
    table.  A corrupt-input error at the current compressed offset comes
    only when a symbol is decoded with the empty table: [huffSym] returns it
    and sets [f.err], without reading input. *)
Theorem init_accepts_empty_and_single h lengths i k p w :
  Forall (fun n => n = 0) lengths ->
  (hmin h = 0 -> h = zero_huffmanDecoder) ->
  0 <= nb (dec w) ->
  deref p w = Ok (zero_huffmanDecoder, w) ->
  init h lengths = Ok (true, zero_huffmanDecoder) /\
  (exists h',
     init h (repeat 0 i ++ 1 :: repeat 0 k) = Ok (true, h') /\ hmin h' = 1) /\
  (exists w',
     huffSym p w = Ok ((0, Some (CorruptInputError (roffset (dec w)))), w') /\
     err (dec w') = Some (CorruptInputError (roffset (dec w))) /\
     roffset (dec w') = roffset (dec w) /\ r (dec w') = r (dec w)).
Proof.
  intros Hz Hh Hnb Hd. split; [|split].
  - rewrite (init_empty h lengths Hz).
    destruct (Z.eqb_spec (hmin h) 0) as [E|E]; simpl; [|done].
    by rewrite (Hh E).
  - by apply init_single.
  - eexists. split; [by apply huffSym_empty|]. done.
Qed.

Lemma init_accepts_empty_and_single_witness :
  init zero_huffmanDecoder [0] = Ok (true, zero_huffmanDecoder) /\
  (exists h',
     init zero_huffmanDecoder (repeat 0 97 ++ 1 :: repeat 0 159)
       = Ok (true, h') /\ hmin h' = 1) /\
  (exists w',
     huffSym ref_h2 fresh_decoder
       = Ok ((0, Some (CorruptInputError (roffset (dec fresh_decoder)))), w') /\
     err (dec w') = Some (CorruptInputError (roffset (dec fresh_decoder))) /\
     roffset (dec w') = roffset (dec fresh_decoder) /\
     r (dec w') = r (dec fresh_decoder)).
Proof.
  apply (init_accepts_empty_and_single zero_huffmanDecoder [0] 97 159 ref_h2
           fresh_decoder).
  - repeat constructor.
  - reflexivity.
  - vm_compute. discriminate.
  - reflexivity.
Defined.

(** C4 as stated fails.  The distance code of [empty_distance_block] has no
    symbol: its one length is zero, a coding that is neither complete nor
    the degenerate one.  [Read] decodes the block and ends with [io.EOF];
    the distance table is the zero table. *)
Lemma empty_distance_tree_accepted :
  returned (Read 10 (NewReader empty_distance_block ∅ []))
    = Ok ([97; 97; 97], Some EOF) /\
  subslice (bits (dec empty_distance_read)) 257 258 = Ok [0] /\
  err (dec empty_distance_read) = Some EOF /\
  h2 (dec empty_distance_read) = zero_huffmanDecoder.
Proof.
  split; [|split; [|split]]; vm_compute; reflexivity.
Qed.

(** X1.  An incomplete coding does not get as far as an error: with
    [sanity = true], [init] panics on the code lengths 1 and 2, and so does
    [Read] on a block whose code-length code has just these. *)
Lemma incomplete_coding_panics :
  init zero_huffmanDecoder [1; 2] = Panic "coding incomplete" /\
  returned (Read 10 (NewReader incomplete_block ∅ []))
    = Panic "coding incomplete".
Proof. split; vm_compute; reflexivity. Qed.

(** X2.  A frontier pass leaves the arrays of the store the decoder was made
    in as they were, keeps its window where the constructor put it, and
    keeps [f.roffset] within the input. *)
Theorem frontier_pass_keeps_store input span0 start up hp w :
  0 <= span0 < 2 ^ 62 -> 0 <= start ->
  start + Z.of_nat (length input) < 2 ^ 62 ->
  frontier_pass (NewReaderWithSpans input span0 start up hp []) w ->
  (forall a v, hp !! a = Some v -> heap w !! a = Some v) /\
  hist (dict (dec w)) = fresh (dom hp) /\
  0 <= roffset (dec w) <= start + Z.of_nat (length input).
Proof.
  intros Hs Hst Hin Hp.
  pose proof (NewReaderWithSpans_Inv input span0 start up hp Hs Hst Hin)
    as HI0.
  destruct (frontier_pass_Inv _ _ _ _ _ _ _ _ HI0 (Z.le_refl 0) Hp)
    as (W & HI & _).
  inv_destruct HI. split; [|split; [done|lia]].
  intros a v Ha. by destruct (Hk a v Ha).
Qed.

Lemma frontier_pass_keeps_store_witness :
  (forall a v, ({[ 7%nat := [1; 2; 3] ]} : gmap loc (list Z)) !! a = Some v ->
     heap (reads 3 100
             (NewReaderWithSpans flushed_stream 0 0 true
                {[ 7%nat := [1; 2; 3] ]} [])) !! a = Some v) /\
  hist (dict (dec (reads 3 100
                     (NewReaderWithSpans flushed_stream 0 0 true
                        {[ 7%nat := [1; 2; 3] ]} []))))
    = fresh (dom ({[ 7%nat := [1; 2; 3] ]} : gmap loc (list Z))) /\
  0 <= roffset (dec (reads 3 100
                       (NewReaderWithSpans flushed_stream 0 0 true
                          {[ 7%nat := [1; 2; 3] ]} [])))
    <= 0 + Z.of_nat (length flushed_stream).
Proof.
  apply (frontier_pass_keeps_store flushed_stream 0 0 true
           {[ 7%nat := [1; 2; 3] ]}).
  - lia.
  - lia.
  - vm_compute. reflexivity.
  - apply pass_reads; [lia|vm_compute; reflexivity].
Defined.
End FlateFacts.

(** * More facts about tarfs *)

Module TarfsMore.
Import GoPath Tarfs.

(** ** Lookups in a file system built by [New] *)

Lemma named_snoc name hdrs h :
  named name (hdrs ++ [h]) =
  named name hdrs ++ (if decide (normalize (Name (fst h)) = name) then [h] else []).
Proof.
  unfold named. rewrite filter_app. f_equal.
Qed.

(** After the scanning loop, a name is indexed exactly when some member has
    it, and its index is that of the last such member. *)
Lemma New_scan_index hdrs name :
  let st := fst (fold_left New_scan hdrs
                   ({| files := []; index := ∅; dirs := ∅ |}, ∅)) in
  files st = map entry_of hdrs /\
  match list.last (named name hdrs) with
  | Some h =>
      exists i : nat,
        index st !! name = Some (Z.of_nat i) /\
        files st !! i = Some (entry_of h)
  | None => index st !! name = None
  end.
Proof.
  induction hdrs as [|h hdrs IH] using rev_ind; [done|].
  rewrite fold_left_app. simpl.
  destruct (fold_left New_scan hdrs _) as [fsys dc] eqn:E.
  simpl in IH. destruct IH as [Hf IH]. destruct h as [hdr n]. simpl.
  split. { rewrite Hf, map_app. done. }
  rewrite named_snoc. simpl. case_decide as Hn.
  - rewrite last_snoc. exists (length (files fsys)).
    rewrite Hn, lookup_insert_eq. split; [done|].
    rewrite lookup_app_r by lia. rewrite Nat.sub_diag. simpl.
    unfold entry_of. simpl. by rewrite Hn.
  - rewrite app_nil_r, lookup_insert_ne by done.
    destruct (list.last (named name hdrs)) as [h|]; [|done].
    destruct IH as (i & Hi & Hfi). exists i. split; [done|].
    by rewrite lookup_app_l by (by eapply lookup_lt_Some).
Qed.

Lemma New_state hdrs fsys :
  New hdrs None = Ok fsys ->
  files fsys = files (fst (fold_left New_scan hdrs
                             ({| files := []; index := ∅; dirs := ∅ |}, ∅))) /\
  index fsys = index (fst (fold_left New_scan hdrs
                             ({| files := []; index := ∅; dirs := ∅ |}, ∅))).
Proof.
  unfold New. destruct (fold_left New_scan hdrs _) as [fsys0 dc].
  by intros [= <-].
Qed.

(** X3.  In a file system built by [New], [Entry] finds a name exactly when
    some member of the archive has it once normalized, and returns the LAST
    such member, with the offset of its payload; [Stat] returns that
    member's file information, and falls back to the synthetic root for
    [.] only.  Neither panics. *)
Theorem New_lookup hdrs fsys name :
  New hdrs None = Ok fsys ->
  FS_Entry fsys name =
    match list.last (named name hdrs) with
    | Some h => Ok (entry_of h)
    | None => Err ErrNotExist
    end /\
  FS_Stat fsys name =
    match list.last (named name hdrs) with
    | Some h => Ok (headerFileInfo (fst h))
    | None => if String.eqb name "." then Ok root else Err ErrNotExist
    end.
Proof.
  intros HN. destruct (New_state hdrs fsys HN) as [Hf Hi].
  destruct (New_scan_index hdrs name) as [_ Hl].
  unfold FS_Entry, FS_Stat. rewrite Hi, Hf.
  destruct (list.last (named name hdrs)) as [h|].
  - destruct Hl as (i & -> & Hfi).
    destruct (Z.ltb_spec (Z.of_nat i) 0); [lia|].
    rewrite Nat2Z.id, Hfi. done.
  - by rewrite Hl.
Qed.

Lemma New_lookup_witness :
  FS_Entry colliding_FS "a" =
    match list.last (named "a" colliding_hdrs) with
    | Some h => Ok (entry_of h)
    | None => Err ErrNotExist
    end /\
  FS_Stat colliding_FS "a" =
    match list.last (named "a" colliding_hdrs) with
    | Some h => Ok (headerFileInfo (fst h))
    | None => if String.eqb "a" "." then Ok root else Err ErrNotExist
    end.
Proof.
  apply (New_lookup colliding_hdrs colliding_FS "a").
  vm_compute. reflexivity.
Defined.

(** ** What [Open] returns *)

Lemma New_Entry_cases hdrs fsys name :
  New hdrs None = Ok fsys ->
  (exists e, FS_Entry fsys name = Ok e /\ List.In e (files fsys)) \/
  FS_Entry fsys name = Err ErrNotExist.
Proof.
  intros HN. destruct (New_lookup hdrs fsys name HN) as [-> _].
  destruct (list.last (named name hdrs)) as [h|] eqn:E; [|by right].
  left. exists (entry_of h). split; [done|].
  destruct (New_state hdrs fsys HN) as [-> _].
  destruct (New_scan_index hdrs name) as [-> _].
  apply in_map. apply last_Some_elem_of in E.
  apply list_elem_of_In. unfold named in E.
  by apply list_elem_of_filter in E as [_ E].
Qed.

Lemma symlinked_dir_Ok hdrs fsys name ds :
  New hdrs None = Ok fsys ->
  exists t, symlinked_dir fsys name ds = Ok t.
Proof.
  intros HN. induction ds as [|d ds IH]; simpl; [by eexists|].
  destruct (New_Entry_cases hdrs fsys d HN) as [(e & -> & _)| ->]; [|done].
  destruct (negb _); [done|]. destruct (IsAbs _); by eexists.
Qed.

(** A call of [open] that returns without a further hop returns a handle on
    a member that is not a link, or the error of the lookup. *)
Lemma open_once_Done hdrs fsys name r :
  New hdrs None = Ok fsys ->
  open_once fsys name = Done r ->
  r = Err ErrNotExist \/
  exists e, List.In e (files fsys) /\ is_link e = false /\
            r = Ok {| fEntry := e; sr := (Offset e, Size (eHeader e));
                      cursor := 0 |}.
Proof.
  intros HN. unfold open_once.
  destruct (New_Entry_cases hdrs fsys name HN) as [(e & -> & He)| ->].
  - destruct (is_link e) eqn:El; [done|]. intros [= <-]. right. eauto.
  - destruct (symlinked_dir_Ok hdrs fsys name (dirs_of name) HN) as [t ->].
    destruct t; [done|]. intros [= <-]. by left.
Qed.

(** X4.  In a file system built by [New], [Open] never panics.  It fails
    only because the name is absent or because more than [maxHops] links
    were chased; and the handle it returns is the synthetic root, for [.],
    or a handle on a member that is not itself a link, placed on the
    section of the transport that holds this member's payload, with its
    directory cursor at 0. *)
Theorem Open_result hdrs fsys name :
  New hdrs None = Ok fsys ->
  match Open fsys name with
  | Ok f =>
      (name = "." /\ f = root_File) \/
      (name <> "." /\ List.In (fEntry f) (files fsys) /\
       is_link (fEntry f) = false /\
       sr f = (Offset (fEntry f), Size (eHeader (fEntry f))) /\
       cursor f = 0)
  | Err e => e = ErrNotExist \/ exists n, e = ErrTooManySymlinks n
  | Panic _ => False
  end.
Proof.
  intros HN. unfold Open.
  destruct (String.eqb_spec name ".") as [->|Hne]; [by left|].
  destruct (TarfsFacts.open_dichotomy fsys 256 name 0)
    as [(k & name' & r & _ & _ & Ho & ->)|(name' & _ & ->)]; [lia|lia| |].
  - destruct (open_once_Done hdrs fsys name' r HN Ho)
      as [->|(e & He & El & ->)]; [by left|].
    right. done.
  - right. by eexists.
Qed.

Lemma Open_result_witness :
  match Open sample_FS "weird/relative/binary" with
  | Ok f =>
      ("weird/relative/binary" = "." /\ f = root_File) \/
      ("weird/relative/binary" <> "." /\
       List.In (fEntry f) (files sample_FS) /\
       is_link (fEntry f) = false /\
       sr f = (Offset (fEntry f), Size (eHeader (fEntry f))) /\
       cursor f = 0)
  | Err e => e = ErrNotExist \/ exists n, e = ErrTooManySymlinks n
  | Panic _ => False
  end.
Proof.
  apply (Open_result sample_hdrs sample_FS "weird/relative/binary").
  vm_compute. reflexivity.
Defined.

(** ** The iterator [dirs] *)

Lemma append_nil_r (s : string) : s +:+ "" = s.
Proof.
  induction s as [|c s IH]; [done|].
  change (String c s +:+ "") with (String c (s +:+ "")). by rewrite IH.
Qed.

Lemma append_assoc (a b c : string) : (a +:+ b) +:+ c = a +:+ (b +:+ c).
Proof.
  induction a as [|x a IH]; [done|].
  change (String x ((a +:+ b) +:+ c) = String x (a +:+ (b +:+ c))).
  by rewrite IH.
Qed.

Lemma dirs_from_spec rest : forall pre d,
  d ∈ dirs_from pre rest <->
  exists a b, rest = a +:+ "/" +:+ b /\ d = pre +:+ a.
Proof.
  induction rest as [|c rest IH]; intros pre d; cbn [dirs_from].
  - split; [by intros ?%elem_of_nil|].
    intros (a & b & H & _). by destruct a.
  - rewrite elem_of_app, IH. split.
    + intros [H|(a & b & -> & ->)].
      * destruct (Ascii.eqb_spec c "/") as [->|]; [|by apply elem_of_nil in H].
        apply list_elem_of_singleton in H as ->.
        exists "", rest. split; [done|]. by rewrite append_nil_r.
      * exists (String c a), b. split; [done|].
        by rewrite append_assoc.
    + intros (a & b & H & ->). destruct a as [|x a].
      * left. injection H as -> ->. rewrite append_nil_r.
        rewrite Ascii.eqb_refl. by apply list_elem_of_singleton.
      * right. injection H as -> ->. exists a, b. split; [done|].
        by rewrite append_assoc.
Qed.

(** X5.  The iterator [dirs(name)] yields exactly the prefixes of [name]
    that end just before one of its slashes. *)
Theorem dirs_of_spec name d :
  d ∈ dirs_of name <-> exists rest, name = d +:+ "/" +:+ rest.
Proof.
  unfold dirs_of. rewrite dirs_from_spec. split.
  - intros (a & b & -> & ->). by exists b.
  - intros (rest & ->). by exists d, rest.
Qed.

(** ** [Index] *)

Lemma Index_fold hdrs acc :
  fold_left (fun (files : list Entry) (next : Header * Z) =>
               files ++
               [{| eHeader := fst next; Offset := snd next;
                   Filename := normalize (Name (fst next));
                   dir := Dir (normalize (Name (fst next)));
                   fi := headerFileInfo (fst next) |}])
            hdrs acc = acc ++ map entry_of hdrs.
Proof.
  revert acc. induction hdrs as [|h hdrs IH]; intros acc; cbn [fold_left map].
  - by rewrite app_nil_r.
  - rewrite IH, <- app_assoc. done.
Qed.

(** X7.  [Index] returns what [New] keeps as its entries, member by member
    and with the same offsets, and it fails when [New] fails, with the same
    error. *)
Theorem Index_New hdrs fail :
  Index hdrs fail =
  match New hdrs fail with
  | Ok fsys => Ok (files fsys)
  | Err e => Err e
  | Panic m => Panic m
  end.
Proof.
  unfold Index, New. rewrite Index_fold.
  pose proof (TarfsFacts.New_scan_files hdrs
                {| files := []; index := ∅; dirs := ∅ |} ∅) as Hf.
  destruct (fold_left New_scan hdrs _) as [fsys dc].
  destruct fail; [done|]. cbn in *. by rewrite Hf.
Qed.

End TarfsMore.

(** * More facts about gsip *)

Module GsipMore.
Import Flate Gsip.

Lemma find_exact_no_idle r off ord :
  (forall zr, readers r !! zr <> Some true) -> find_exact r off ord = None.
Proof.
  intros Hn. induction ord as [|k ord IH]; simpl; [done|].
  destruct (readers r !! k) as [[|]|] eqn:E; try done. by destruct (Hn k).
Qed.

Lemma find_idle_no_idle r off ord :
  (forall zr, readers r !! zr <> Some true) -> find_idle r off ord = None.
Proof.
  intros Hn. induction ord as [|k ord IH]; simpl; [done|].
  destruct (readers r !! k) as [[|]|] eqn:E; try done. by destruct (Hn k).
Qed.

(** X8.  When no decoder of the pool is idle and no checkpoint lies at or
    before [off] (the list is empty, or starts beyond [off]), [ReadAt]
    reads nothing, returns the no-checkpoint error and leaves the reader as
    it was, whatever the order of the loops. *)
Theorem ReadAt_without_decoder Continue ord1 ord2 r len off :
  (forall zr, readers r !! zr <> Some true) ->
  match checkpoints r with c :: _ => off < Out c | [] => True end ->
  ReadAt Continue ord1 ord2 r len off
    = (Ok ([], Some (ErrNoCheckpoint off)), r).
Proof.
  intros Hn Hc. unfold ReadAt, acquireReader.
  rewrite find_exact_no_idle by done.
  apply GsipFacts.find_highest_None in Hc. rewrite Hc.
  by rewrite find_idle_no_idle.
Qed.

Lemma ReadAt_without_decoder_witness :
  ReadAt (Continue_from sample_data) [] [] (Decode 4 []) 3 0
    = (Ok ([], Some (ErrNoCheckpoint 0)), Decode 4 []).
Proof.
  apply (ReadAt_without_decoder (Continue_from sample_data) [] []
           (Decode 4 []) 3 0).
  - intros zr. cbn. by rewrite lookup_empty.
  - exact Logic.I.
Defined.

(** Replacing or adding the decoder at one pointer that was not busy. *)
Lemma pool_insert r k b o rs os :
  dom (readers r) ⊆ dom (objs r) ->
  readers r !! k <> Some false ->
  rs = <[k := b]> (readers r) -> os = <[k := o]> (objs r) ->
  dom (readers r) ⊆ dom rs /\
  dom rs ⊆ dom os /\
  (forall zr, readers r !! zr = Some false ->
     rs !! zr = Some false /\ os !! zr = objs r !! zr) /\
  (forall zr zr', zr ∈ dom rs -> zr' ∈ dom rs ->
     zr ∉ dom (readers r) -> zr' ∉ dom (readers r) -> zr = zr').
Proof.
  intros Hwf Hk -> ->. rewrite !dom_insert_L.
  split; [apply union_subseteq_r|]. split; [by apply union_mono_l|]. split.
  - intros zr Hz. assert (k <> zr) by congruence.
    by rewrite !lookup_insert_ne.
  - intros zr zr' H1 H2 H3 H4.
    apply elem_of_union in H1 as [H1%elem_of_singleton|H1]; [|done].
    apply elem_of_union in H2 as [H2%elem_of_singleton|H2]; [|done].
    congruence.
Qed.

Lemma pool_same r :
  dom (readers r) ⊆ dom (objs r) ->
  dom (readers r) ⊆ dom (readers r) /\
  dom (readers r) ⊆ dom (objs r) /\
  (forall zr, readers r !! zr = Some false ->
     readers r !! zr = Some false /\ objs r !! zr = objs r !! zr) /\
  (forall zr zr', zr ∈ dom (readers r) -> zr' ∈ dom (readers r) ->
     zr ∉ dom (readers r) -> zr' ∉ dom (readers r) -> zr = zr').
Proof. intros Hwf. split; [done|]. split; [done|]. split; [done|]. done. Qed.

(** X9.  [ReadAt] and the pool.  In a pool whose pointers all have an
    object, a call of [ReadAt], whatever it returns, keeps the size and the
    checkpoints of the reader, removes no decoder from the pool, adds at
    most one, and leaves every decoder that was busy as it was: busy, with
    its object untouched. *)
Theorem ReadAt_pool Continue ord1 ord2 r len off res r' :
  dom (readers r) ⊆ dom (objs r) ->
  ReadAt Continue ord1 ord2 r len off = (res, r') ->
  checkpoints r' = checkpoints r /\ Gsip.size r' = Gsip.size r /\
  dom (readers r) ⊆ dom (readers r') /\
  dom (readers r') ⊆ dom (objs r') /\
  (forall zr, readers r !! zr = Some false ->
     readers r' !! zr = Some false /\ objs r' !! zr = objs r !! zr) /\
  (forall zr zr', zr ∈ dom (readers r') -> zr' ∈ dom (readers r') ->
     zr ∉ dom (readers r) -> zr' ∉ dom (readers r) -> zr = zr').
Proof.
  intros Hwf. unfold ReadAt, acquireReader.
  destruct (find_exact r off ord1) as [k|] eqn:E1.
  { apply GsipFacts.find_exact_Some in E1 as (_ & o & [Hr Ho] & _).
    cbn. rewrite Ho. destruct (ReadFull o len) as [[bytes err] o'].
    intros [= <- <-]. cbn. split; [done|]. split; [done|].
    eapply (pool_insert r k true o'); [done|congruence| |done].
    by rewrite insert_insert_eq. }
  destruct (find_highest (checkpoints r) off None) as [h|] eqn:E2.
  - destruct (Continue h) as [o|e|m].
    + destruct (CopyN_Discard o _) as [o' [e|]].
      { intros [= <- <-]. split; [done|]. split; [done|]. by apply pool_same. }
      cbn. rewrite lookup_insert_eq.
      destruct (ReadFull o' len) as [[bytes err] o''].
      intros [= <- <-]. cbn. split; [done|]. split; [done|].
      set (k := fresh (dom (objs r))).
      assert (Hk : k ∉ dom (objs r)) by apply is_fresh.
      eapply (pool_insert r k true o''); [done| | |].
      * intros Hs. apply Hk, Hwf, elem_of_dom. eauto.
      * by rewrite insert_insert_eq.
      * by rewrite insert_insert_eq.
    + intros [= <- <-]. split; [done|]. split; [done|]. by apply pool_same.
    + intros [= <- <-]. split; [done|]. split; [done|]. by apply pool_same.
  - destruct (find_idle r off ord2) as [[k o]|] eqn:E3.
    2:{ intros [= <- <-]. split; [done|]. split; [done|]. by apply pool_same. }
    apply GsipFacts.find_idle_Some in E3 as (_ & [Hr Ho] & _).
    destruct (CopyN_Discard o _) as [o' [e|]].
    + intros [= <- <-]. cbn. split; [done|]. split; [done|].
      eapply (pool_insert r k false o'); [done|congruence|done|done].
    + cbn. rewrite lookup_insert_eq.
      destruct (ReadFull o' len) as [[bytes err] o''].
      intros [= <- <-]. cbn. split; [done|]. split; [done|].
      eapply (pool_insert r k true o''); [done|congruence| |].
      * by rewrite insert_insert_eq.
      * by rewrite insert_insert_eq.
Qed.

Lemma ReadAt_pool_witness :
  checkpoints sample_after_read = checkpoints sample_Reader /\
  Gsip.size sample_after_read = Gsip.size sample_Reader /\
  dom (readers sample_Reader) ⊆ dom (readers sample_after_read) /\
  dom (readers sample_after_read) ⊆ dom (objs sample_after_read) /\
  (forall zr, readers sample_Reader !! zr = Some false ->
     readers sample_after_read !! zr = Some false /\
     objs sample_after_read !! zr = objs sample_Reader !! zr) /\
  (forall zr zr', zr ∈ dom (readers sample_after_read) ->
     zr' ∈ dom (readers sample_after_read) ->
     zr ∉ dom (readers sample_Reader) -> zr' ∉ dom (readers sample_Reader) ->
     zr = zr').
Proof.
  apply (ReadAt_pool (Continue_from sample_data) [0%nat] [0%nat]
           sample_Reader 3 0
           (fst (ReadAt (Continue_from sample_data) [0%nat] [0%nat]
                   sample_Reader 3 0))).
  - cbn. by rewrite !dom_singleton_L.
  - apply surjective_pairing.
Defined.

Lemma find_exact_single r off zr o ord :
  readers r = {[ zr := true ]} -> objs r !! zr = Some o -> offset o <> off ->
  find_exact r off ord = None.
Proof.
  intros Hr Ho Hne. induction ord as [|k ord IH]; simpl; [done|].
  rewrite Hr. destruct (decide (zr = k)) as [<-|Hk].
  - rewrite lookup_singleton_eq, Ho. unfold Offset.
    by destruct (Z.eqb_spec (offset o) off).
  - by rewrite lookup_singleton_ne.
Qed.

Lemma find_idle_single r off zr o ord :
  readers r = {[ zr := true ]} -> objs r !! zr = Some o -> offset o <= off ->
  List.In zr ord -> find_idle r off ord = Some (zr, o).
Proof.
  intros Hr Ho Hle. induction ord as [|k ord IH]; simpl; [done|].
  intros Hin. rewrite Hr. destruct (decide (zr = k)) as [<-|Hk].
  - rewrite lookup_singleton_eq, Ho. unfold Offset.
    by destruct (Z.gtb_spec (offset o) off); [lia|].
  - rewrite lookup_singleton_ne by done. apply IH. by destruct Hin.
Qed.

(** X10.  A reader whose pool is its one idle decoder and that has no
    checkpoint yet: a [ReadAt] beyond the end of the stream returns the
    stream's error, and its early return leaves the decoder marked busy.
    As long as no checkpoint is appended, every later [ReadAt], at any
    offset, fails with the no-checkpoint error. *)
Theorem ReadAt_past_end_strands_decoder Continue ord1 ord2 r zr o len off :
  readers r = {[ zr := true ]} -> objs r !! zr = Some o ->
  checkpoints r = [] -> List.In zr ord2 ->
  Z.of_nat (length (pending o)) < off - offset o < 2 ^ 63 ->
  exists r1,
    ReadAt Continue ord1 ord2 r len off = (Ok ([], Some (final o)), r1) /\
    readers r1 !! zr = Some false /\
    forall ord1' ord2' len' off',
      ReadAt Continue ord1' ord2' r1 len' off'
        = (Ok ([], Some (ErrNoCheckpoint off')), r1).
Proof.
  intros Hr Ho Hc Hin Hoff.
  exists (set_obj (set_busy r zr true) zr (advance o (length (pending o)))).
  split; [|split].
  - unfold ReadAt.
    rewrite (GsipFacts.acquire_fallback Continue ord1 ord2 r off zr o).
    + by destruct (Z.leb_spec (off - offset o) (Z.of_nat (length (pending o))));
        [lia|].
    + apply (find_exact_single r off zr o); [done|done|lia].
    + by rewrite Hc.
    + apply find_idle_single; [done|done|lia|done].
    + lia.
  - cbn. by rewrite lookup_insert_eq.
  - intros ord1' ord2' len' off'. apply ReadAt_without_decoder.
    + intros k. cbn. rewrite Hr. destruct (decide (zr = k)) as [<-|Hk].
      * by rewrite lookup_insert_eq.
      * rewrite lookup_insert_ne, lookup_singleton_ne by done. done.
    + cbn. by rewrite Hc.
Qed.

Lemma ReadAt_past_end_strands_decoder_witness :
  exists r1,
    ReadAt (Continue_from sample_data) [0%nat] [0%nat] sample_Reader 1 10
      = (Ok ([], Some (final (reader_at sample_data 0))), r1) /\
    readers r1 !! 0%nat = Some false /\
    forall ord1' ord2' len' off',
      ReadAt (Continue_from sample_data) ord1' ord2' r1 len' off'
        = (Ok ([], Some (ErrNoCheckpoint off')), r1).
Proof.
  apply (ReadAt_past_end_strands_decoder (Continue_from sample_data)
           [0%nat] [0%nat] sample_Reader 0%nat (reader_at sample_data 0) 1 10).
  - reflexivity.
  - reflexivity.
  - reflexivity.
  - by left.
  - vm_compute. split; reflexivity.
Defined.

End GsipMore.

(** * More facts about the decoder *)

Module FlateMore.
Import Flate FlateFacts.

(** ** Table construction *)

(** X11.  With [sanity = true], [init] never returns false: it accepts the
    code lengths or panics.  The branches of [readHuffman] that turn a
    false into a corrupt-input error are never taken. *)
Theorem init_never_false h lengths :
  match init h lengths with
  | Ok (ok, _) => ok = true
  | _ => True
  end.
Proof.
  unfold init, mbind, result_bind, sanity.
  destruct (init_count lengths _ 0 0) as [[[count mn] mx]| |]; [|done|done].
  destruct (mx =? 0); [done|].
  destruct (init_nextcode _ _ _ _) as [[nextcode code]| |]; [|done|done].
  destruct (negb _ && negb _); [done|].
  repeat (match goal with
          | |- context [match ?x with _ => _ end] =>
              lazymatch x with
              | context [match _ with _ => _ end] => fail
              | _ => destruct x
              end
          end; try done).
Qed.

(** ** What the steps of the decoder leave alone

    Only [finishBlock] touches the channel and [f.last], and nothing
    changes [f.span] and [f.updates]: a property [Q] of these four is kept
    by every method, once the second part of [finishBlock] keeps it. *)

Create HintDb frame discriminated.

Ltac fprim :=
  first
    [ apply keeps_gets
    | apply keeps_lift
    | apply keeps_panic
    | apply keeps_ret
    | apply keeps_modify; let HH := fresh in intros ? HH; exact HH
    | apply hoare_load; let HH := fresh in intros ? ? _ HH; split; [exact Logic.I|exact HH]
    | apply hoare_store; let HH := fresh in intros ? HH; split; [exact Logic.I|exact HH]
    | apply hoare_make; let HH := fresh in intros ? HH; split; [exact Logic.I|exact HH]
    | eassumption
    | solve [eauto with frame] ].

Ltac fgo :=
  lazymatch goal with
  | |- keeps _ (mbind _ _) _ =>
      first [ eapply keeps_bind; [fprim | intros ? ?]
            | eapply (keeps_bind _ _ _ (fun _ => True)); [ | intros ? _] ]
  | |- keeps _ (if ?c then _ else _) _ => destruct c eqn:?
  | |- keeps _ (match ?x with _ => _ end) _ => destruct x eqn:?
  | |- keeps _ _ _ =>
      first [ fprim | eapply keeps_weaken; [fprim | done]
            | progress cbv zeta ]
  end.

Section Frame.

Variable Q : list Checkpoint -> Z -> Z -> bool -> Prop.

#[local] Abbreviation J :=
  (fun w : World => Q (chan w) (last (dec w)) (span (dec w)) (updates (dec w))).

Lemma moreBits_frame : keeps J moreBits (fun _ => True).
Proof. unfold moreBits. repeat fgo. Qed.

Lemma hist_len_frame : keeps J hist_len (fun _ => True).
Proof. unfold hist_len, gets_dict. repeat fgo. Qed.
#[local] Hint Resolve moreBits_frame hist_len_frame : frame.

Lemma histSize_frame : keeps J histSize (fun _ => True).
Proof. unfold histSize, gets_dict. repeat fgo. Qed.

Lemma availRead_frame : keeps J availRead (fun _ => True).
Proof. unfold availRead, gets_dict. repeat fgo. Qed.

Lemma availWrite_frame : keeps J availWrite (fun _ => True).
Proof. unfold availWrite, gets_dict. repeat fgo. Qed.

Lemma writeByte_frame c : keeps J (writeByte c) (fun _ => True).
Proof. unfold writeByte, gets_dict, modify_dict. repeat fgo. Qed.

Lemma writeCopy_frame dist len : keeps J (writeCopy dist len) (fun _ => True).
Proof. unfold writeCopy, gets_dict, modify_dict. repeat fgo. Qed.

Lemma tryWriteCopy_frame dist len :
  keeps J (tryWriteCopy dist len) (fun _ => True).
Proof. unfold tryWriteCopy, gets_dict, modify_dict. repeat fgo. Qed.

Lemma readFlush_frame : keeps J readFlush (fun _ => True).
Proof. unfold readFlush, gets_dict, modify_dict. repeat fgo. Qed.
#[local] Hint Resolve histSize_frame availRead_frame availWrite_frame
  writeByte_frame writeCopy_frame tryWriteCopy_frame readFlush_frame : frame.

Lemma fill_bits_frame fuel k : keeps J (fill_bits fuel k) (fun _ => True).
Proof. induction fuel as [|fuel IH]; simpl; repeat fgo. Qed.

Lemma need_bits_frame k : keeps J (need_bits k) (fun _ => True).
Proof. apply fill_bits_frame. Qed.

Lemma take_bits_frame k : keeps J (take_bits k) (fun _ => True).
Proof. unfold take_bits. repeat fgo. Qed.

Lemma deref_frame p : keeps J (deref p) (fun _ => True).
Proof. destruct p; simpl; repeat fgo. Qed.

Lemma huffSym_fill_frame fuel : forall n nb0 b0,
  keeps J (huffSym_fill fuel n nb0 b0) (fun _ => True).
Proof. induction fuel as [|fuel IH]; intros n nb0 b0; simpl; repeat fgo. Qed.
#[local] Hint Resolve fill_bits_frame need_bits_frame take_bits_frame
  deref_frame huffSym_fill_frame : frame.

Lemma huffSym_loop_frame fuel : forall h n nb0 b0,
  keeps J (huffSym_loop fuel h n nb0 b0) (fun _ => True).
Proof.
  induction fuel as [|fuel IH]; intros h n nb0 b0; simpl; repeat fgo.
Qed.
#[local] Hint Resolve huffSym_loop_frame : frame.

Lemma huffSym_frame p : keeps J (huffSym p) (fun _ => True).
Proof. unfold huffSym. repeat fgo. Qed.

Lemma ReadFull_input_frame n : keeps J (ReadFull_input n) (fun _ => True).
Proof. unfold ReadFull_input. repeat fgo. Qed.
#[local] Hint Resolve huffSym_frame ReadFull_input_frame : frame.

Lemma readHuffman_codebits_frame order :
  keeps J (readHuffman_codebits order) (fun _ => True).
Proof. induction order as [|o order IH]; simpl; repeat fgo. Qed.

Lemma readHuffman_zero_frame order :
  keeps J (readHuffman_zero order) (fun _ => True).
Proof. induction order as [|o order IH]; simpl; repeat fgo. Qed.

Lemma readHuffman_repeat_frame rep : forall i v,
  keeps J (readHuffman_repeat rep i v) (fun _ => True).
Proof. induction rep as [|rep IH]; intros i v; simpl; repeat fgo. Qed.
#[local] Hint Resolve readHuffman_codebits_frame readHuffman_zero_frame
  readHuffman_repeat_frame : frame.

Lemma readHuffman_lengths_frame fuel : forall i n,
  keeps J (readHuffman_lengths fuel i n) (fun _ => True).
Proof. induction fuel as [|fuel IH]; intros i n; simpl; repeat fgo. Qed.

Lemma init_h1_frame lengths : keeps J (init_h1 lengths) (fun _ => True).
Proof. unfold init_h1. repeat fgo. Qed.

Lemma init_h2_frame lengths : keeps J (init_h2 lengths) (fun _ => True).
Proof. unfold init_h2. repeat fgo. Qed.
#[local] Hint Resolve readHuffman_lengths_frame init_h1_frame init_h2_frame
  : frame.

Lemma readHuffman_frame : keeps J readHuffman (fun _ => True).
Proof.
  unfold readHuffman. repeat fgo.
  apply keeps_modify. intros w HJ.
  unfold upd. by destruct (hmin (h1 (dec w)) <? _).
Qed.

Lemma fail_with_frame e : keeps J (fail_with e) (fun _ => True).
Proof. unfold fail_with. repeat fgo. Qed.

Lemma fail_corrupt_frame : keeps J fail_corrupt (fun _ => True).
Proof. unfold fail_corrupt, fail_with. repeat fgo. Qed.

Lemma nextBlock_fill_frame fuel :
  keeps J (nextBlock_fill fuel) (fun _ => True).
Proof. induction fuel as [|fuel IH]; simpl; repeat fgo. Qed.

Lemma finishBlock_flush_frame : keeps J finishBlock_flush (fun _ => True).
Proof. unfold finishBlock_flush. repeat fgo. Qed.
#[local] Hint Resolve readHuffman_frame fail_with_frame fail_corrupt_frame
  nextBlock_fill_frame finishBlock_flush_frame : frame.

(** From here on the second part of [finishBlock] keeps [Q]. *)
Hypothesis Hsend : forall o, keeps J (finishBlock_send o) (fun _ => True).

Lemma finishBlock_frame : keeps J finishBlock (fun _ => True).
Proof. unfold finishBlock. repeat fgo. Qed.
#[local] Hint Resolve finishBlock_frame : frame.

Lemma copyData_frame : keeps J copyData (fun _ => True).
Proof. unfold copyData, gets_dict, modify_dict. repeat fgo. Qed.
#[local] Hint Resolve copyData_frame : frame.

Lemma dataBlock_frame : keeps J dataBlock (fun _ => True).
Proof. unfold dataBlock. repeat fgo. Qed.

Lemma huffmanBlock_from_frame fuel : forall lbl,
  keeps J (huffmanBlock_from fuel lbl) (fun _ => True).
Proof.
  induction fuel as [|fuel IH]; intros lbl; simpl; [repeat fgo|].
  destruct lbl; repeat fgo.
Qed.
#[local] Hint Resolve dataBlock_frame huffmanBlock_from_frame : frame.

Lemma huffmanBlock_frame : keeps J huffmanBlock (fun _ => True).
Proof. unfold huffmanBlock. repeat fgo. Qed.
#[local] Hint Resolve huffmanBlock_frame : frame.

Lemma nextBlock_frame : keeps J nextBlock (fun _ => True).
Proof. unfold nextBlock. repeat fgo. Qed.
#[local] Hint Resolve nextBlock_frame : frame.

Lemma run_step_frame : keeps J run_step (fun _ => True).
Proof. unfold run_step. repeat fgo. Qed.

Lemma toRead_bytes_frame n : keeps J (toRead_bytes n) (fun _ => True).
Proof. unfold toRead_bytes, gets_dict. repeat fgo. Qed.
#[local] Hint Resolve run_step_frame toRead_bytes_frame : frame.

Lemma Read_loop_frame fuel len :
  keeps J (Read_loop fuel len) (fun _ => True).
Proof. induction fuel as [|fuel IH]; simpl; repeat fgo. Qed.
#[local] Hint Resolve Read_loop_frame : frame.

Lemma Read_frame len : keeps J (Read len) (fun _ => True).
Proof. unfold Read. repeat fgo. Qed.

End Frame.

(** X12.  A call of [Read], from any state, only appends to the channel,
    and changes neither [f.span] nor [f.updates]; a decoder whose channel
    is nil sends nothing and keeps [f.last]. *)
Theorem Read_keeps_channel len w :
  match Read len w with
  | Ok (_, w') =>
      chan w `prefix_of` chan w' /\
      span (dec w') = span (dec w) /\
      updates (dec w') = updates (dec w) /\
      (updates (dec w) = false ->
       chan w' = chan w /\ last (dec w') = last (dec w))
  | _ => True
  end.
Proof.
  destruct (Read len w) as [[res w']| |] eqn:E; [|done|done].
  refine (proj2 (Read_frame
    (fun c l s u =>
       chan w `prefix_of` c /\ s = span (dec w) /\ u = updates (dec w) /\
       (updates (dec w) = false -> c = chan w /\ l = last (dec w)))
    _ len w res w' _ E)); [|done].
  intros o w0 a w1 (Hp & Hs & Hu & Hn) H. split; [done|].
  unfold finishBlock_send in H. unfold_M. cbn in H.
  destruct (updates (dec w0)) eqn:Eu; cbn in H.
  - destruct (wrap64 (o - last (dec w0)) >? span (dec w0)).
    + destruct (heap w0 !! hist (dict (dec w0))); [|done].
      injection H as <- <-. cbn.
      split; [by apply prefix_app_r|]. split; [done|].
      split; [by rewrite Eu|]. intros Hf. congruence.
    + injection H as <- <-. by rewrite Eu.
  - injection H as <- <-. by rewrite Eu.
Qed.

(** ** Errors of [Read] *)

Lemma Read_loop_error fuel len : forall w bytes e w',
  Read_loop fuel len w = Ok ((bytes, Some e), w') ->
  err (dec w') = Some e /\ toRead_len (dec w') <= 0.
Proof.
  induction fuel as [|fuel IH]; intros w bytes e w' H; simpl in H;
    [discriminate|].
  apply bind_Ok in H as (pending & w0 & [= <- <-] & H).
  destruct (Z.gtb_spec (toRead_len (dec w)) 0) as [Hpos|Hzero].
  - apply bind_Ok in H as (bs & w1 & Hb & H).
    apply toRead_bytes_state in Hb as ->.
    apply bind_Ok in H as ([] & w2 & [= <-] & H).
    apply bind_Ok in H as (p2 & w3 & [= <- <-] & H).
    match type of H with context [?a =? 0] =>
      destruct (Z.eqb_spec a 0) as [Ez|Ez]; [|discriminate] end.
    apply bind_Ok in H as (e1 & w3 & [= <- <-] & [= <- <- <-]).
    split; [done|exact (Z.eq_le_incl _ _ Ez)].
  - apply bind_Ok in H as (e0 & w0 & [= <- <-] & H).
    destruct (err (dec w)) as [e1|] eqn:Ee.
    { injection H as <- <- <-. done. }
    apply bind_Ok in H as ([] & w1 & _ & H).
    apply bind_Ok in H as ([] & w2 & _ & H).
    apply bind_Ok in H as (e1 & w3 & _ & H).
    apply bind_Ok in H as (p1 & w4 & _ & H).
    apply bind_Ok in H as ([] & w5 & _ & H).
    by apply IH in H.
Qed.

Lemma Read_loop_stuck fuel len w e :
  err (dec w) = Some e -> toRead_len (dec w) <= 0 ->
  Read_loop (S fuel) len w = Ok (([], Some e), w).
Proof.
  intros He Hp. cbn [Read_loop]. unfold_M. cbn.
  destruct (Z.gtb_spec (toRead_len (dec w)) 0); [lia|].
  rewrite He. by destruct w.
Qed.

(** X13.  Errors are final.  When [Read] returns an error, no output is
    pending and the error is the one kept in [f.err]; every further [Read],
    with a buffer of any length, returns no byte and the same error, and
    leaves the decoder as it is. *)
Theorem Read_error_is_final len w :
  match Read len w with
  | Ok ((_, Some e), w') =>
      err (dec w') = Some e /\
      forall len', Read len' w' = Ok (([], Some e), w')
  | _ => True
  end.
Proof.
  destruct (Read len w) as [[[bytes [e|]] w']| |] eqn:E; try done.
  unfold Read in E.
  apply bind_Ok in E as (inp & w0 & [= <- <-] & E).
  apply bind_Ok in E as (have & w0 & [= <- <-] & E).
  apply Read_loop_error in E as [He Hp]. split; [done|].
  intros len'. unfold Read. unfold_M.
  match goal with |- Read_loop ?n _ _ = _ =>
    replace n with (S (n - 1)) by lia end.
  by apply Read_loop_stuck.
Qed.
End FlateMore.

(** * Resuming from a checkpoint *)

Module FlateResume.
Import Flate FlateFacts.

(** ** Two runs side by side *)

Lemma rel_bind {A B} P (m1 m2 : M A) (k1 k2 : A -> M B) V Q V' Q' :
  rel P m1 m2 V Q ->
  (forall x1 x2, V x1 x2 -> rel Q (k1 x1) (k2 x2) V' Q') ->
  rel P (m1 ≫= k1) (m2 ≫= k2) V' Q'.
Proof.
  intros Hm Hk w1 w2 HP. specialize (Hm w1 w2 HP).
  unfold mbind, M_bind.
  destruct (m1 w1) as [[x1 w1']|e1|s1], (m2 w2) as [[x2 w2']|e2|s2];
    try done.
  destruct Hm as [HV HQ]. exact (Hk x1 x2 HV w1' w2' HQ).
Qed.

Lemma rel_conseq {A} (P P' : World -> World -> Prop) (m1 m2 : M A)
  (V V' : A -> A -> Prop) (Q Q' : World -> World -> Prop) :
  rel P m1 m2 V Q ->
  (forall w1 w2, P' w1 w2 -> P w1 w2) ->
  (forall x1 x2, V x1 x2 -> V' x1 x2) ->
  (forall w1 w2, Q w1 w2 -> Q' w1 w2) ->
  rel P' m1 m2 V' Q'.
Proof.
  intros Hm HP HV HQ w1 w2 H. specialize (Hm w1 w2 (HP _ _ H)).
  destruct (m1 w1) as [[x1 w1']|e1|s1], (m2 w2) as [[x2 w2']|e2|s2];
    try done.
  destruct Hm. split; auto.
Qed.

Lemma rel_ret {A} P (x1 x2 : A) (V : A -> A -> Prop) :
  V x1 x2 -> rel P (mret x1) (mret x2) V P.
Proof. intros HV w1 w2 HP. unfold mret, M_ret. done. Qed.

Lemma rel_panic {A} P msg (V : A -> A -> Prop) Q :
  rel P (panic msg) (panic msg) V Q.
Proof. intros w1 w2 _. unfold panic. done. Qed.

Lemma rel_lift {A} P (x : result A) : rel P (lift x) (lift x) eq P.
Proof. intros w1 w2 HP. unfold lift. by destruct x. Qed.

Lemma rel_gets {A} P (p : Decompressor -> A) (V : A -> A -> Prop) :
  (forall w1 w2, P w1 w2 -> V (p (dec w1)) (p (dec w2))) ->
  rel P (gets p) (gets p) V P.
Proof. intros H w1 w2 HP. unfold gets. split; auto. Qed.

Lemma rel_modify P (g1 g2 : Decompressor -> Decompressor) Q :
  (forall w1 w2, P w1 w2 -> Q (upd g1 w1) (upd g2 w2)) ->
  rel P (modify g1) (modify g2) (fun _ _ => True) Q.
Proof. intros H w1 w2 HP. unfold modify. split; [done|]. by apply H. Qed.

Lemma rel_gets_eq {A} (P : World -> World -> Prop) (p : Decompressor -> A) :
  (forall w1 w2, P w1 w2 -> p (dec w1) = p (dec w2)) ->
  rel P (gets p) (gets p) eq P.
Proof. apply rel_gets. Qed.

Lemma rel_modify_same (P : World -> World -> Prop)
  (g : Decompressor -> Decompressor) :
  (forall w1 w2, P w1 w2 -> P (upd g w1) (upd g w2)) ->
  rel P (modify g) (modify g) (fun _ _ => True) P.
Proof. apply rel_modify. Qed.

Lemma rel_unit P (m1 m2 : M unit) (V : unit -> unit -> Prop) Q :
  rel P m1 m2 V Q -> rel P m1 m2 eq Q.
Proof.
  intros Hm. eapply rel_conseq; [exact Hm|done| |done]. by intros [] [].
Qed.

(** A fact about the value of the first run, from its run alone. *)
Lemma rel_value {A} P (m1 m2 : M A) V Q (phi : A -> Prop) :
  rel P m1 m2 V Q ->
  (forall w1 w2 x w1', P w1 w2 -> m1 w1 = Ok (x, w1') -> phi x) ->
  rel P m1 m2 (fun x1 x2 => V x1 x2 /\ phi x1) Q.
Proof.
  intros Hm Hphi w1 w2 HP. specialize (Hm w1 w2 HP).
  specialize (Hphi w1 w2).
  destruct (m1 w1) as [[x1 w1']|e1|s1], (m2 w2) as [[x2 w2']|e2|s2];
    try done.
  destruct Hm. split; [split|]; eauto.
Qed.

(** ** The methods that work on the core fields

    Two decoders that agree on the core fields take the same path through
    the bit reader, the symbol decoder and the window, and agree on them
    afterwards; the other fields, related by any [F], are not touched. *)

Create HintDb rel discriminated.

Ltac core_same :=
  let H := fresh in
  intros ? ? H; destruct H as [H ?]; unfold core in H; cbn;
  intuition congruence.

Ltac core_kept :=
  let H := fresh in let HF := fresh in
  intros ? ? H; destruct H as [H HF]; split;
  [ unfold core, upd in *; cbn; intuition congruence | exact HF ].

Ltac rprim :=
  first
    [ apply rel_lift
    | apply rel_panic
    | apply rel_ret; reflexivity
    | apply rel_ret; exact Logic.I
    | eassumption
    | solve [eauto with rel]
    | apply rel_gets_eq; solve [core_same]
    | apply rel_modify_same; solve [core_kept] ].

Ltac rgo :=
  lazymatch goal with
  | |- rel ?P (mbind _ _) (mbind _ _) _ _ =>
      first [ eapply rel_bind; [rprim | ]
            | eapply (rel_bind P _ _ _ _ eq P) ];
      [ .. | let HV := fresh "HV" in
             intros ? ? HV; cbv beta in HV;
             lazymatch type of HV with
             | _ /\ _ => destruct HV as [-> ->]
             | _ => idtac
             end; try subst ]
  | |- rel _ (if ?c then _ else _) (if ?c then _ else _) _ _ =>
      destruct c eqn:?
  | |- rel _ (match ?x with _ => _ end) (match ?x with _ => _ end) _ _ =>
      destruct x eqn:?
  | |- rel _ _ _ _ _ =>
      first [ rprim
            | eapply rel_unit; rprim
            | eapply rel_conseq; [rprim | done | done | done]
            | progress cbv zeta ]
  end.

Section Core.

Variables a1 a2 : loc.
Variable F : Decompressor -> Decompressor -> Prop.

#[local] Abbreviation R :=
  (fun w1 w2 : World => core a1 a2 w1 w2 /\ F (rest (dec w1)) (rest (dec w2))).

#[local] Abbreviation any := (fun _ _ : unit => True).

Lemma rel_hist :
  rel R (gets (fun f => hist (dict f))) (gets (fun f => hist (dict f)))
    (fun x1 x2 => x1 = a1 /\ x2 = a2) R.
Proof. apply rel_gets. intros w1 w2 [HK _]. unfold core in HK. tauto. Qed.

Lemma rel_load : rel R (load a1) (load a2) eq R.
Proof.
  intros w1 w2 [HK HF]. unfold load. pose proof HK as HK'.
  unfold core in HK'. destruct HK' as (_ & _ & Hw & [h Hs] & _).
  rewrite <- Hw, Hs. done.
Qed.

Lemma rel_store h : rel R (store a1 h) (store a2 h) any R.
Proof.
  intros w1 w2 [HK HF]. unfold store. split; [done|]. split; [|exact HF].
  unfold core in *. cbn. rewrite !lookup_insert_eq.
  destruct HK as (? & ? & ? & ? & HK). repeat (split; [done|]). exact HK.
Qed.
#[local] Hint Resolve rel_hist rel_load rel_store : rel.

Lemma moreBits_rel : rel R moreBits moreBits eq R.
Proof. unfold moreBits. repeat rgo. Qed.
#[local] Hint Resolve moreBits_rel : rel.

Lemma fill_bits_rel fuel k : rel R (fill_bits fuel k) (fill_bits fuel k) eq R.
Proof. induction fuel as [|fuel IH]; simpl; repeat rgo. Qed.

Lemma need_bits_rel k : rel R (need_bits k) (need_bits k) eq R.
Proof. apply fill_bits_rel. Qed.

Lemma take_bits_rel k : rel R (take_bits k) (take_bits k) eq R.
Proof. unfold take_bits. repeat rgo. Qed.
#[local] Hint Resolve fill_bits_rel need_bits_rel take_bits_rel : rel.

Lemma hist_len_rel : rel R hist_len hist_len eq R.
Proof. unfold hist_len, gets_dict. repeat rgo. Qed.
#[local] Hint Resolve hist_len_rel : rel.

Lemma histSize_rel : rel R histSize histSize eq R.
Proof. unfold histSize, gets_dict. repeat rgo. Qed.

Lemma availRead_rel : rel R availRead availRead eq R.
Proof. unfold availRead, gets_dict. repeat rgo. Qed.

Lemma availWrite_rel : rel R availWrite availWrite eq R.
Proof. unfold availWrite, gets_dict. repeat rgo. Qed.

Lemma writeByte_rel c : rel R (writeByte c) (writeByte c) any R.
Proof. unfold writeByte, gets_dict, modify_dict. repeat rgo. Qed.

Lemma writeCopy_rel dist len :
  rel R (writeCopy dist len) (writeCopy dist len) eq R.
Proof. unfold writeCopy, gets_dict, modify_dict. repeat rgo. Qed.

Lemma tryWriteCopy_rel dist len :
  rel R (tryWriteCopy dist len) (tryWriteCopy dist len) eq R.
Proof. unfold tryWriteCopy, gets_dict, modify_dict. repeat rgo. Qed.

Lemma readFlush_rel : rel R readFlush readFlush eq R.
Proof. unfold readFlush, gets_dict, modify_dict. repeat rgo. Qed.
#[local] Hint Resolve histSize_rel availRead_rel availWrite_rel
  writeByte_rel writeCopy_rel tryWriteCopy_rel readFlush_rel : rel.

Lemma huffSym_fill_rel fuel : forall n nb0 b0,
  rel R (huffSym_fill fuel n nb0 b0) (huffSym_fill fuel n nb0 b0) eq R.
Proof. induction fuel as [|fuel IH]; intros n nb0 b0; simpl; repeat rgo. Qed.
#[local] Hint Resolve huffSym_fill_rel : rel.

Lemma huffSym_loop_rel fuel : forall h n nb0 b0,
  rel R (huffSym_loop fuel h n nb0 b0) (huffSym_loop fuel h n nb0 b0) eq R.
Proof.
  induction fuel as [|fuel IH]; intros h n nb0 b0; simpl; repeat rgo.
Qed.
#[local] Hint Resolve huffSym_loop_rel : rel.

(** [huffSym] reads a table of the decoder: the two must hold the same. *)
Lemma huffSym_rel p :
  (forall f1 f2, F f1 f2 -> tab f1 p = tab f2 p) ->
  rel R (huffSym p) (huffSym p) eq R.
Proof.
  intros Hp. unfold huffSym.
  eapply (rel_bind R _ _ _ _ eq R).
  { destruct p; simpl; try rprim; apply rel_gets_eq; intros w1 w2 [_ HF];
      apply Hp in HF; unfold tab in HF; simpl in HF; congruence. }
  intros h ? <-. repeat rgo.
Qed.

Lemma ReadFull_input_rel n :
  rel R (ReadFull_input n) (ReadFull_input n) eq R.
Proof. unfold ReadFull_input. repeat rgo. Qed.

Lemma fail_with_rel e : rel R (fail_with e) (fail_with e) any R.
Proof. unfold fail_with. repeat rgo. Qed.
#[local] Hint Resolve fail_with_rel ReadFull_input_rel : rel.

Lemma fail_corrupt_rel : rel R fail_corrupt fail_corrupt any R.
Proof. unfold fail_corrupt. repeat rgo. Qed.

Lemma toRead_bytes_rel n :
  rel (fun w1 w2 => R w1 w2 /\ 0 < toRead_len (dec w1))
    (toRead_bytes n) (toRead_bytes n) eq
    (fun w1 w2 => R w1 w2 /\ 0 < toRead_len (dec w1)).
Proof.
  intros w1 w2 [[HK HF] Hpos]. unfold toRead_bytes, gets_dict. unfold_M.
  pose proof HK as HK'. unfold core in HK'.
  destruct HK' as (-> & -> & Hw & [h Hs] & HK').
  rewrite <- Hw, Hs. split; [|done].
  replace (toRead (dec w2)) with (toRead (dec w1)); [done|].
  apply HK'. exact Hpos.
Qed.

(** Sending a checkpoint changes [f.last], the channel and a fresh array
    only, whatever the two decoders' channels and spans are. *)
Lemma finishBlock_send_core o w :
  is_Some (heap w !! hist (dict (dec w))) ->
  exists w',
    finishBlock_send o w = Ok (tt, w') /\
    (exists l, dec w' = set_last l (dec w)) /\
    heap w' !! hist (dict (dec w)) = heap w !! hist (dict (dec w)).
Proof.
  intros [h Hh]. unfold finishBlock_send, gets_dict. unfold_M. cbn.
  destruct (updates (dec w) && _).
  - rewrite Hh. eexists. split; [reflexivity|]. cbn. split; [by eexists|].
    assert (Hne : fresh (dom (heap w)) <> hist (dict (dec w))).
    { intros E. apply (is_fresh (dom (heap w))). rewrite E.
      apply elem_of_dom. by eexists. }
    by rewrite !lookup_insert_ne.
  - exists w. split; [done|]. split; [|done].
    exists (last (dec w)). by destruct (dec w).
Qed.

Lemma finishBlock_send_rel o1 o2 :
  rel R (finishBlock_send o1) (finishBlock_send o2) any R.
Proof.
  intros w1 w2 [HK HF]. pose proof HK as HK'. unfold core in HK'.
  destruct HK' as (Ha1 & Ha2 & Hw & Hs & HK').
  destruct (finishBlock_send_core o1 w1) as (w1' & -> & [l1 Hd1] & Hh1);
    [by rewrite Ha1|].
  destruct (finishBlock_send_core o2 w2) as (w2' & -> & [l2 Hd2] & Hh2);
    [by rewrite Ha2, <- Hw|].
  split; [done|]. split.
  - unfold core. rewrite Hd1, Hd2. cbn. rewrite Ha1 in Hh1. rewrite Ha2 in Hh2.
    rewrite Hh1, Hh2. tauto.
  - rewrite Hd1, Hd2. exact HF.
Qed.
#[local] Hint Resolve fail_corrupt_rel finishBlock_send_rel : rel.

(** [finishBlock] reads [f.final]. *)
Lemma finishBlock_flush_rel :
  (forall f1 f2, F f1 f2 -> final f1 = final f2) ->
  rel R finishBlock_flush finishBlock_flush eq R.
Proof.
  intros Hfin. unfold finishBlock_flush.
  eapply rel_bind; [rprim|]. intros o ? <-.
  eapply (rel_bind R _ _ _ _ eq R).
  { apply rel_gets_eq. intros w1 w2 [_ HF]. exact (Hfin _ _ HF). }
  intros fin ? <-. repeat rgo.
Qed.

End Core.

#[local] Hint Resolve rel_hist rel_load rel_store moreBits_rel fill_bits_rel
  need_bits_rel take_bits_rel hist_len_rel histSize_rel availRead_rel
  availWrite_rel writeByte_rel writeCopy_rel tryWriteCopy_rel readFlush_rel
  huffSym_fill_rel huffSym_loop_rel fail_with_rel ReadFull_input_rel
  fail_corrupt_rel finishBlock_send_rel : rel.

(** ** The steps

    The other fields are related by [between] from one step to the next,
    and by its refinements inside a step. *)

Ltac frames :=
  unfold with_tables, on_codebits, on_bits, in_copy, in_huffman, in_stored,
    in_header, between, tables_ok, tab, stateInit, stateDict in *.

Ltac rest_same :=
  let HK := fresh in let HF := fresh in
  intros ? ? [HK HF]; frames; cbn in HF; unfold core in HK;
  intuition congruence.

Ltac rest_kept :=
  let HK := fresh in let HF := fresh in
  intros ? ? [HK HF]; split;
  [ unfold core, upd in *; cbn; intuition congruence
  | frames; cbn in *; intuition congruence ].

Ltac weaken :=
  let HK := fresh in let HF := fresh in
  intros ? ? [HK HF]; split; [exact HK|];
  unfold with_tables, on_codebits, on_bits, in_copy, in_huffman, in_stored,
    in_header in *;
  tauto.

Ltac sprim :=
  first
    [ rprim
    | apply rel_gets_eq; solve [rest_same]
    | apply rel_modify_same; solve [rest_kept]
    | apply rel_modify; solve [rest_kept] ].

Ltac sgo :=
  lazymatch goal with
  | |- rel ?P (mbind _ _) (mbind _ _) _ _ =>
      first [ solve [eauto with rel]
            | eapply rel_bind; [sprim | ]
            | eapply (rel_bind P _ _ _ _ eq P) ];
      [ .. | let HV := fresh "HV" in
             intros ? ? HV; cbv beta in HV;
             lazymatch type of HV with
             | _ /\ _ => destruct HV as [-> ->]
             | _ => idtac
             end; try subst ]
  | |- rel _ (if ?c then _ else _) (if ?c then _ else _) _ _ =>
      destruct c eqn:?
  | |- rel _ (match ?x with _ => _ end) (match ?x with _ => _ end) _ _ =>
      destruct x eqn:?
  | |- rel ?P _ _ _ _ =>
      first [ sprim
            | eapply rel_unit; sprim
            | eapply rel_conseq; [sprim | done | done | done]
            | eapply (rel_conseq P P _ _ _ _ P); [sprim | done | done | weaken]
            | progress cbv zeta ]
  end.

Section Steps.

Variables a1 a2 : loc.

#[local] Abbreviation RR F :=
  (fun w1 w2 : World => core a1 a2 w1 w2 /\ F (rest (dec w1)) (rest (dec w2))).

#[local] Abbreviation any := (fun _ _ : unit => True).

Lemma finishBlock_rel (F : Decompressor -> Decompressor -> Prop) :
  (forall f1 f2, F f1 f2 -> final f1 = final f2) ->
  (forall f1 f2, F f1 f2 ->
     between (set_step step_nextBlock f1) (set_step step_nextBlock f2)) ->
  rel (RR F) finishBlock finishBlock any (RR between).
Proof.
  intros Hfin Hstep. unfold finishBlock.
  eapply rel_bind; [by apply finishBlock_flush_rel|]. intros o ? <-.
  eapply rel_bind; [apply finishBlock_send_rel|]. intros _ _ _.
  apply rel_modify. intros w1 w2 [HK HF]. split.
  - unfold core, upd in *. cbn. intuition congruence.
  - exact (Hstep _ _ HF).
Qed.

Lemma finishBlock_stored :
  rel (RR in_stored) finishBlock finishBlock any (RR between).
Proof.
  apply finishBlock_rel; intros f1 f2 HF; frames; cbn; intuition congruence.
Qed.

Lemma finishBlock_header :
  rel (RR in_header) finishBlock finishBlock any (RR between).
Proof.
  apply finishBlock_rel; intros f1 f2 HF; frames; cbn; intuition congruence.
Qed.

Lemma finishBlock_huffman pl pd :
  rel (RR (in_huffman pl pd)) finishBlock finishBlock any (RR between).
Proof.
  apply finishBlock_rel; intros f1 f2 HF; frames; cbn; intuition congruence.
Qed.
#[local] Hint Resolve finishBlock_stored finishBlock_header
  finishBlock_huffman : rel.

Lemma copyData_rel : rel (RR in_stored) copyData copyData any (RR between).
Proof. unfold copyData, gets_dict, modify_dict. repeat sgo. Qed.

Lemma copyData_start n :
  rel (RR in_header) (modify (set_copyLen n);; copyData)
    (modify (set_copyLen n);; copyData) any (RR between).
Proof.
  eapply rel_bind; [|intros _ _ _; apply copyData_rel].
  apply rel_modify. rest_kept.
Qed.
#[local] Hint Resolve copyData_rel copyData_start : rel.

Lemma ReadFull_input_value n w got e w' :
  ReadFull_input n w = Ok ((got, e), w') ->
  (length got <= Z.to_nat n)%nat /\ (e = None -> n <= Z.of_nat (length got)).
Proof.
  unfold ReadFull_input. unfold_M. cbn. intros [= <- <- <-].
  rewrite length_take. split; [lia|].
  by destruct (Z.ltb_spec (Z.of_nat (Z.to_nat n `min` length (r (dec w)))) n).
Qed.

Lemma dataBlock_rel : rel (RR in_header) dataBlock dataBlock any (RR between).
Proof.
  unfold dataBlock. sgo. sgo.
  eapply rel_bind.
  { eapply (rel_value _ _ _ _ _
      (fun x => (length x.1 <= 4)%nat /\ (x.2 = None -> 4 <= Z.of_nat (length x.1)))).
    - apply ReadFull_input_rel.
    - intros w1 w2 [got e] w1' _ Hrun.
      by apply ReadFull_input_value in Hrun. }
  intros [got e] ? [<- [Hle Hfull]]. cbn in Hle, Hfull.
  eapply (rel_bind _ _ _ _ _ any
    (RR (fun f1 f2 => in_header f1 f2 /\ (e = None -> buf f1 = buf f2)))).
  { apply rel_modify. intros w1 w2 [HK HF]. split.
    - unfold core, upd in *. cbn. intuition congruence.
    - frames. cbn in *.
      destruct HF as ((? & ? & ? & (? & ? & ? & Hb1) & (? & ? & ? & Hb2) & ?) & ?).
      rewrite !length_app, !length_drop.
      split; [split; [intuition (try congruence; lia)|done]|].
      intros He. specialize (Hfull He).
      rewrite !drop_ge by lia. done. }
  intros _ _ _. sgo.
  destruct e as [e|].
  - apply rel_modify. rest_kept.
  - eapply (rel_bind _ _ _ _ _ eq).
    { apply rel_gets_eq. intros w1 w2 [_ [_ HF]]. by apply HF. }
    intros bf ? <-.
    eapply rel_conseq with
      (P := RR in_header) (V := fun _ _ => True) (Q := RR between);
      [|by intros w1 w2 [HK [HF _]]|done|done].
    repeat sgo. apply copyData_start.
Qed.

(** Reading one of the other fields, and remembering what was read. *)
Lemma rel_gets_rest {A B} (F : Decompressor -> Decompressor -> Prop)
  (p : Decompressor -> A) (k : A -> M B) V Q :
  (forall f, p (rest f) = p f) ->
  (forall f1 f2, F f1 f2 -> p f1 = p f2) ->
  (forall x, rel (RR (fun f1 f2 => F f1 f2 /\ p f1 = x)) (k x) (k x) V Q) ->
  rel (RR F) (gets p ≫= k) (gets p ≫= k) V Q.
Proof.
  intros Hp Hsame Hk w1 w2 [HK HF]. unfold gets. unfold_M.
  pose proof (Hsame _ _ HF) as E. rewrite !Hp in E. rewrite <- E.
  apply Hk. split; [done|]. split; [done|]. apply Hp.
Qed.

Lemma gets_hl_rel pl pd :
  rel (RR (in_huffman pl pd)) (gets hl) (gets hl)
    (fun x1 x2 => x1 = pl /\ x2 = pl) (RR (in_huffman pl pd)).
Proof. apply rel_gets. intros w1 w2 [_ HF]. frames. cbn in HF. tauto. Qed.

Lemma gets_hd_rel pl pd :
  rel (RR (in_huffman pl pd)) (gets hd) (gets hd)
    (fun x1 x2 => x1 = pd /\ x2 = pd) (RR (in_huffman pl pd)).
Proof. apply rel_gets. intros w1 w2 [_ HF]. frames. cbn in HF. tauto. Qed.

Lemma huffSym_hl pl pd :
  rel (RR (in_huffman pl pd)) (huffSym pl) (huffSym pl) eq
    (RR (in_huffman pl pd)).
Proof. apply huffSym_rel. intros f1 f2 HF. unfold in_huffman in HF. tauto. Qed.

Lemma huffSym_hd pl pd :
  rel (RR (in_huffman pl pd)) (huffSym pd) (huffSym pd) eq
    (RR (in_huffman pl pd)).
Proof. apply huffSym_rel. intros f1 f2 HF. unfold in_huffman in HF. tauto. Qed.
#[local] Hint Resolve gets_hl_rel gets_hd_rel huffSym_hl huffSym_hd : rel.

Lemma copy_start pl pd len dist (m : M unit) :
  rel (RR (in_copy pl pd)) m m any (RR between) ->
  rel (RR (in_huffman pl pd))
    (modify (set_copyLen len);; modify (set_copyDist dist);; m)
    (modify (set_copyLen len);; modify (set_copyDist dist);; m)
    any (RR between).
Proof.
  intros Hm.
  eapply (rel_bind _ _ _ _ _ any
    (RR (fun f1 f2 => in_huffman pl pd f1 f2 /\ copyLen f1 = copyLen f2))).
  { apply rel_modify. rest_kept. }
  intros _ _ _. eapply rel_bind; [|intros _ _ _; exact Hm].
  apply rel_modify. rest_kept.
Qed.

Lemma huffmanBlock_from_rel pl pd fuel : forall lbl,
  rel (RR (match lbl with
           | readLiteral => in_huffman pl pd
           | copyHistory => in_copy pl pd
           end))
    (huffmanBlock_from fuel lbl) (huffmanBlock_from fuel lbl) any
    (RR between).
Proof.
  induction fuel as [|fuel IH]; intros lbl; simpl; [apply rel_panic|].
  destruct lbl;
    repeat first
      [ apply copy_start; exact (IH copyHistory)
      | exact (IH readLiteral)
      | eapply rel_conseq; [exact (IH readLiteral) | weaken | done | done]
      | sgo ].
Qed.

Lemma huffmanBlock_rel pl pd :
  rel (RR (in_huffman pl pd)) huffmanBlock huffmanBlock any (RR between).
Proof.
  unfold huffmanBlock. apply rel_gets_rest; [done| |].
  { intros f1 f2 HF. frames. tauto. }
  intros st.
  eapply rel_bind;
    [apply (availWrite_rel a1 a2
              (fun f1 f2 => in_huffman pl pd f1 f2 /\ stepState f1 = st))|].
  intros avail ? <-.
  destruct (Z.eqb_spec st stateDict) as [->|Hst].
  - eapply rel_conseq; [apply (huffmanBlock_from_rel pl pd _ copyHistory)
                       | |done|done].
    intros w1 w2 [HK [HF Hs]]. split; [exact HK|].
    split; [exact HF|]. frames. cbn in *. tauto.
  - eapply rel_conseq; [apply (huffmanBlock_from_rel pl pd _ readLiteral)
                       | |done|done].
    intros w1 w2 [HK [HF Hs]]. by split.
Qed.

(** *** Tables

    [init] resets a table whose [min] is not 0, and a table whose [min] is
    0 is the zero table: what [init] builds does not depend on the table
    it is given. *)

Lemma init_zero h lengths :
  hclean h -> init h lengths = init zero_huffmanDecoder lengths.
Proof.
  intros [_ Hc]. unfold init.
  destruct (Z.eqb_spec (hmin h) 0) as [E|E]; [by rewrite (Hc E)|done].
Qed.

Lemma init_count_min lengths : forall count mn mx count' mn' mx',
  init_count lengths count mn mx = Ok (count', mn', mx') ->
  0 <= mn /\ (mx <> 0 -> mn <> 0) ->
  0 <= mn' /\ (mx' <> 0 -> mn' <> 0).
Proof.
  induction lengths as [|n lengths IH]; intros count mn mx count' mn' mx' H J;
    simpl in H.
  { by injection H as <- <- <-. }
  destruct (Z.eqb_spec n 0) as [E|E]; [by eapply IH|].
  destruct (at_index count n) as [c| |] eqn:Ec; try done. cbn in H.
  destruct (set_index count n (c + 1)) as [count1| |] eqn:Es; try done.
  cbn in H. eapply IH; [exact H|].
  unfold at_index in Ec. destruct (Z.ltb_spec n 0); [done|].
  destruct ((mn =? 0) || (n <? mn)) eqn:Em.
  - split; [lia|]. intros _. done.
  - apply orb_false_iff in Em as [Em _]. apply Z.eqb_neq in Em.
    split; [lia|done].
Qed.

Lemma result_bind_Ok {A B} (m : result A) (k : A -> result B) y :
  (m ≫= k) = Ok y -> exists x, m = Ok x /\ k x = Ok y.
Proof. destruct m as [x| |]; try done. intros H. by exists x. Qed.

Lemma init_links_cons j js link numLinks h :
  init_links (j :: js) link numLinks h =
      (let reverse := Z.shiftr (Reverse16 j) (16 - huffmanChunkBits) in
      let off := j - link in
      c ← at_index (chunks h) reverse;
      if sanity && negb (c =? 0)
      then Panic "impossible: overwriting existing chunk"
      else
        chunks' ← set_index (chunks h) reverse
                    (uint32 (Z.lor (Z.shiftl off huffmanValueShift)
                                   (huffmanChunkBits + 1)));
        links' ← set_index (links h) off (repeat 0 (Z.to_nat numLinks));
        init_links js link numLinks
          {| hmin := hmin h; chunks := chunks'; links := links';
             linkMask := linkMask h |}).
Proof. reflexivity. Qed.

Lemma init_links_hmin js : forall link numLinks h h',
  init_links js link numLinks h = Ok h' -> hmin h' = hmin h.
Proof.
  induction js as [|j js IH]; intros link numLinks h h' H.
  { by injection H as <-. }
  rewrite init_links_cons in H. cbv zeta in H.
  generalize dependent (Z.shiftr (Reverse16 j) (16 - huffmanChunkBits)).
  intros rv H.
  apply result_bind_Ok in H as (c & _ & H).
  destruct (sanity && negb (c =? 0)); [done|].
  apply result_bind_Ok in H as (chunks' & _ & H).
  apply result_bind_Ok in H as (links' & _ & H).
  by apply IH in H.
Qed.

Lemma init_codes_cons n lengths i nextcode h :
  init_codes (n :: lengths) i nextcode h =
      (if n =? 0 then init_codes lengths (i + 1) nextcode h
      else
        code ← at_index nextcode n;
        nextcode ← set_index nextcode n (code + 1);
        let chunk := uint32 (Z.lor (Z.shiftl i huffmanValueShift) n) in
        let reverse := Z.shiftr (Reverse16 code) (16 - n) in
        if n <=? huffmanChunkBits then
          chunks' ← init_fill (length (chunks h)) (chunks h) reverse
                      (Z.shiftl 1 n) chunk;
          init_codes lengths (i + 1) nextcode
            {| hmin := hmin h; chunks := chunks'; links := links h;
               linkMask := linkMask h |}
        else
          let j := Z.land reverse (huffmanNumChunks - 1) in
          cj ← at_index (chunks h) j;
          if sanity && negb (Z.land cj huffmanCountMask =? huffmanChunkBits + 1)
          then Panic "impossible: not an indirect chunk"
          else
            let value := Z.shiftr cj huffmanValueShift in
            linktab ← at_index (links h) value;
            let reverse := Z.shiftr reverse huffmanChunkBits in
            linktab' ← init_fill (length linktab) linktab reverse
                         (Z.shiftl 1 (n - huffmanChunkBits)) chunk;
            links' ← set_index (links h) value linktab';
            init_codes lengths (i + 1) nextcode
              {| hmin := hmin h; chunks := chunks h; links := links';
                 linkMask := linkMask h |}).
Proof. reflexivity. Qed.

Lemma init_codes_hmin lengths : forall i nextcode h h',
  init_codes lengths i nextcode h = Ok h' -> hmin h' = hmin h.
Proof.
  induction lengths as [|n lengths IH]; intros i nextcode h h' H.
  { by injection H as <-. }
  rewrite init_codes_cons in H.
  destruct (n =? 0); [by apply IH in H|].
  apply result_bind_Ok in H as (code & _ & H).
  apply result_bind_Ok in H as (nextcode' & _ & H).
  cbv zeta in H.
  generalize dependent (Z.shiftr (Reverse16 code) (16 - n)). intros rv H.
  destruct (n <=? huffmanChunkBits).
  - apply result_bind_Ok in H as (chunks' & _ & H). by apply IH in H.
  - apply result_bind_Ok in H as (cj & _ & H).
    destruct (sanity && _); [done|].
    apply result_bind_Ok in H as (linktab & _ & H).
    apply result_bind_Ok in H as (linktab' & _ & H).
    apply result_bind_Ok in H as (links' & _ & H).
    by apply IH in H.
Qed.

Lemma hclean_zero : hclean zero_huffmanDecoder.
Proof. by split. Qed.

Lemma init_hclean h lengths ok h' :
  hclean h -> init h lengths = Ok (ok, h') -> hclean h'.
Proof.
  intros Hc H. rewrite (init_zero h lengths Hc) in H. unfold init in H.
  change (negb (hmin zero_huffmanDecoder =? 0)) with false in H.
  cbv iota zeta in H.
  apply result_bind_Ok in H as ([[count mn] mx] & Ecount & H).
  apply init_count_min in Ecount; [|by split].
  destruct (Z.eqb_spec mx 0) as [Emx|Emx].
  { injection H as <- <-. apply hclean_zero. }
  apply result_bind_Ok in H as ([nextcode code] & _ & H).
  destruct (negb (code =? 1 ≪ mx) && negb ((code =? 1) && (mx =? 1)));
    [unfold sanity in H; discriminate|].
  apply result_bind_Ok in H as (hA & EA & H).
  apply result_bind_Ok in H as (hB & EB & H).
  apply result_bind_Ok in H as (? & _ & H).
  injection H as <- <-.
  apply init_codes_hmin in EB.
  assert (hmin hA = mn) as EhA.
  { destruct (mx >? huffmanChunkBits).
    - apply result_bind_Ok in EA as (link0 & _ & EA).
      destruct (_ <? 0); [done|].
      by apply init_links_hmin in EA.
    - by injection EA as <-. }
  split; [lia|]. intros E. destruct Ecount as [_ Hm]. specialize (Hm Emx).
  lia.
Qed.

(** *** Reading the tables of a dynamic block

    The scratch arrays [f.codebits] and [f.bits] of the two decoders may
    differ where the block has not written yet; what [readHuffman] reads of
    them it has written before.  The lemmas take the rest of the method as
    a continuation, so that what holds afterwards can depend on the value
    returned. *)

Lemma rel_ext {A} P (m1 m1' m2 m2' : M A) V Q :
  (forall w, m1 w = m1' w) -> (forall w, m2 w = m2' w) ->
  rel P m1' m2' V Q -> rel P m1 m2 V Q.
Proof. intros E1 E2 H w1 w2 HP. rewrite E1, E2. by apply H. Qed.

Lemma bind_assoc_pt {A B C} (m : M A) (f : A -> M B) (k : B -> M C) w :
  ((m ≫= f) ≫= k) w = (m ≫= (fun x => f x ≫= k)) w.
Proof. unfold mbind, M_bind. by destruct (m w) as [[x w']| |]. Qed.

Lemma rel_assoc {A B C} P (m1 m2 : M A) (f1 f2 : A -> M B)
  (k1 k2 : B -> M C) V Q :
  rel P (m1 ≫= (fun x => f1 x ≫= k1)) (m2 ≫= (fun x => f2 x ≫= k2)) V Q ->
  rel P ((m1 ≫= f1) ≫= k1) ((m2 ≫= f2) ≫= k2) V Q.
Proof. apply rel_ext; intros w; apply bind_assoc_pt. Qed.

(** Two pure computations that end alike. *)
Lemma rel_lift2 {A} P (x1 x2 : result A) (V : A -> A -> Prop) :
  match x1, x2 with
  | Ok y1, Ok y2 => V y1 y2
  | Err e1, Err e2 => e1 = e2
  | Panic s1, Panic s2 => s1 = s2
  | _, _ => False
  end ->
  rel P (lift x1) (lift x2) V P.
Proof.
  intros H w1 w2 HP. unfold lift.
  destruct x1 as [y1|e1|s1], x2 as [y2|e2|s2]; try done.
Qed.

Lemma rel_ret_l {A B} P (x : A) (k1 k2 : A -> M B) V Q :
  rel P (k1 x) (k2 x) V Q -> rel P (mret x ≫= k1) (mret x ≫= k2) V Q.
Proof. intros H. exact H. Qed.

Lemma set_index_Ok {A} (l : list A) i x l' :
  set_index l i x = Ok l' ->
  0 <= i < Z.of_nat (length l) /\ l' = <[Z.to_nat i := x]> l.
Proof.
  unfold set_index.
  destruct (Z.leb_spec 0 i), (Z.ltb_spec i (Z.of_nat (length l)));
    cbn; try done.
  intros [= <-]. split; [lia|done].
Qed.

Lemma set_index_same_length {A} (l1 l2 : list A) i x :
  length l1 = length l2 ->
  match set_index l1 i x, set_index l2 i x with
  | Ok l1', Ok l2' =>
      0 <= i < Z.of_nat (length l1) /\
      l1' = <[Z.to_nat i := x]> l1 /\ l2' = <[Z.to_nat i := x]> l2
  | Panic s1, Panic s2 => s1 = s2
  | _, _ => False
  end.
Proof.
  intros E. unfold set_index. rewrite <- E.
  destruct (Z.leb_spec 0 i), (Z.ltb_spec i (Z.of_nat (length l1)));
    cbn; done.
Qed.


#[local] Abbreviation agree_on S :=
  (fun c1 c2 : list Z =>
     length c1 = Z.to_nat numCodes /\ length c2 = Z.to_nat numCodes /\
     forall j : Z, j ∈ (S : list Z) -> c1 !! Z.to_nat j = c2 !! Z.to_nat j).

Lemma codebits_gets S :
  rel (RR (on_codebits S)) (gets codebits) (gets codebits) (agree_on S)
    (RR (on_codebits S)).
Proof.
  apply rel_gets. intros w1 w2 [_ HF]. frames. cbn in HF. tauto.
Qed.

Lemma codebits_put S o v c1 c2 :
  agree_on S c1 c2 ->
  0 <= o < Z.of_nat (length c1) ->
  rel (RR (on_codebits S))
    (modify (set_codebits (<[Z.to_nat o := v]> c1)))
    (modify (set_codebits (<[Z.to_nat o := v]> c2)))
    (fun _ _ => True) (RR (on_codebits (o :: S))).
Proof.
  intros (Hl1 & Hl2 & Hag) Ho. apply rel_modify. intros w1 w2 [HK HF].
  split; [unfold core, upd in *; cbn; exact HK|].
  frames. cbn in *. rewrite !length_insert. split; [tauto|].
  intros j Hj. destruct (decide (Z.to_nat j = Z.to_nat o)) as [E|E].
  - rewrite E, !list_lookup_insert_eq by lia. done.
  - rewrite !list_lookup_insert_ne by done.
    apply elem_of_cons in Hj as [->|Hj]; [done|]. by apply Hag.
Qed.

(** One entry of [f.codebits] written, then the rest of the method. *)
Lemma codebits_write {B C} S o v (m : M B) (k1 k2 : B -> M C) V Q :
  rel (RR (on_codebits (o :: S))) (m ≫= k1) (m ≫= k2) V Q ->
  rel (RR (on_codebits S))
    ((cb ← gets codebits; cb' ← lift (set_index cb o v);
      modify (set_codebits cb');; m) ≫= k1)
    ((cb ← gets codebits; cb' ← lift (set_index cb o v);
      modify (set_codebits cb');; m) ≫= k2) V Q.
Proof.
  intros Hk. apply rel_assoc. eapply rel_bind; [apply codebits_gets|].
  intros c1 c2 HV.
  pose proof (set_index_same_length c1 c2 o v) as Hs.
  destruct HV as (Hl1 & Hl2 & Hag). rewrite Hl1, Hl2 in Hs.
  specialize (Hs eq_refl).
  apply rel_assoc.
  eapply (rel_bind _ _ _ _ _
    (fun x1 x2 => 0 <= o < Z.of_nat (length c1) /\
                  x1 = <[Z.to_nat o := v]> c1 /\ x2 = <[Z.to_nat o := v]> c2)).
  { apply rel_lift2.
    destruct (set_index c1 o v) as [x1| |], (set_index c2 o v) as [x2| |];
      try done.
    rewrite Hl1. exact Hs. }
  intros x1 x2 (Ho & -> & ->).
  apply rel_assoc.
  eapply rel_bind; [by apply codebits_put|]. intros _ _ _. exact Hk.
Qed.

Lemma codebits_loop {B} order : forall S (k1 k2 : option error -> M B) V Q,
  (forall e, rel (RR in_header) (k1 (Some e)) (k2 (Some e)) V Q) ->
  rel (RR (on_codebits (rev order ++ S))) (k1 None) (k2 None) V Q ->
  rel (RR (on_codebits S))
    (readHuffman_codebits order ≫= k1) (readHuffman_codebits order ≫= k2)
    V Q.
Proof.
  induction order as [|o order IH]; intros S k1 k2 V Q He Hn;
    cbn [readHuffman_codebits].
  { exact Hn. }
  apply rel_assoc. eapply rel_bind; [apply need_bits_rel|].
  intros e ? <-. destruct e as [err|].
  { apply rel_ret_l. eapply rel_conseq; [apply He|weaken|done|done]. }
  apply rel_assoc. eapply rel_bind; [apply rel_gets_eq; core_same|].
  intros v ? <-.
  apply codebits_write.
  apply rel_assoc. eapply rel_bind; [apply rel_modify_same; core_kept|].
  intros _ _ _.
  apply rel_assoc. eapply rel_bind; [apply rel_modify_same; core_kept|].
  intros _ _ _.
  apply IH; [done|]. cbn [rev] in Hn. by rewrite <- app_assoc in Hn.
Qed.

Lemma zero_loop {B} order : forall S (k1 k2 : unit -> M B) V Q,
  rel (RR (on_codebits (rev order ++ S))) (k1 tt) (k2 tt) V Q ->
  rel (RR (on_codebits S))
    (readHuffman_zero order ≫= k1) (readHuffman_zero order ≫= k2) V Q.
Proof.
  induction order as [|o order IH]; intros S k1 k2 V Q Hn;
    cbn [readHuffman_zero].
  { exact Hn. }
  apply codebits_write. apply IH.
  cbn [rev] in Hn. by rewrite <- app_assoc in Hn.
Qed.

(** After both loops every entry of [f.codebits] has been written. *)
Lemma codebits_all n f1 f2 :
  on_codebits (rev (drop n codeOrder) ++ rev (take n codeOrder) ++ []) f1 f2 ->
  codebits f1 = codebits f2.
Proof.
  intros [HF HS]. frames.
  destruct HF as ((_ & _ & _ & (_ & _ & Hl1 & _) & (_ & _ & Hl2 & _) & _) & _).
  apply list_eq. intros i.
  destruct (decide (i < 19)%nat) as [Hi|Hi].
  - specialize (HS (Z.of_nat i)). rewrite Nat2Z.id in HS. apply HS.
    assert (Hall : Z.of_nat i ∈ codeOrder).
    { do 19 (destruct i as [|i]; [unfold codeOrder; set_solver|]). lia. }
    rewrite <- (take_drop n codeOrder) in Hall.
    rewrite app_nil_r. apply elem_of_app in Hall.
    apply elem_of_app. rewrite !list_elem_of_In, <- !in_rev, <- !list_elem_of_In.
    tauto.
  - rewrite !lookup_ge_None_2; [done| |];
      [rewrite Hl2|rewrite Hl1]; unfold numCodes; lia.
Qed.

#[local] Abbreviation agree_below i :=
  (fun c1 c2 : list Z =>
     length c1 = length c2 /\
     forall j : Z, 0 <= j < i -> c1 !! Z.to_nat j = c2 !! Z.to_nat j).

Lemma bits_gets i :
  rel (RR (on_bits i)) (gets bits) (gets bits) (agree_below i)
    (RR (on_bits i)).
Proof.
  apply rel_gets. intros w1 w2 [_ HF]. frames. cbn in HF. tauto.
Qed.

Lemma bits_put i v c1 c2 :
  agree_below i c1 c2 ->
  0 <= i < Z.of_nat (length c1) ->
  rel (RR (on_bits i))
    (modify (set_bits (<[Z.to_nat i := v]> c1)))
    (modify (set_bits (<[Z.to_nat i := v]> c2)))
    (fun _ _ => True) (RR (on_bits (i + 1))).
Proof.
  intros (Hl & Hag) Hi. apply rel_modify. intros w1 w2 [HK HF].
  split; [unfold core, upd in *; cbn; exact HK|].
  frames. cbn in *. rewrite !length_insert.
  split; [tauto|]. split; [tauto|].
  intros j Hj. destruct (decide (j = i)) as [->|E].
  - rewrite !list_lookup_insert_eq by lia. done.
  - rewrite !list_lookup_insert_ne by lia. apply Hag. lia.
Qed.

(** One entry of [f.bits] written, then the rest of the method. *)
Lemma bits_write {B C} i v (m : M B) (k1 k2 : B -> M C) V Q :
  rel (RR (on_bits (i + 1))) (m ≫= k1) (m ≫= k2) V Q ->
  rel (RR (on_bits i))
    ((bs ← gets bits; bs' ← lift (set_index bs i v);
      modify (set_bits bs');; m) ≫= k1)
    ((bs ← gets bits; bs' ← lift (set_index bs i v);
      modify (set_bits bs');; m) ≫= k2) V Q.
Proof.
  intros Hk. apply rel_assoc. eapply rel_bind; [apply bits_gets|].
  intros c1 c2 HV.
  pose proof (set_index_same_length c1 c2 i v (proj1 HV)) as Hs.
  apply rel_assoc.
  eapply (rel_bind _ _ _ _ _
    (fun x1 x2 => 0 <= i < Z.of_nat (length c1) /\
                  x1 = <[Z.to_nat i := v]> c1 /\ x2 = <[Z.to_nat i := v]> c2)).
  { apply rel_lift2.
    destruct (set_index c1 i v) as [x1| |], (set_index c2 i v) as [x2| |];
      done. }
  intros x1 x2 (Hi & -> & ->).
  apply rel_assoc.
  eapply rel_bind; [by apply bits_put|]. intros _ _ _. exact Hk.
Qed.

Lemma repeat_loop {B} rep : forall i v (k1 k2 : Z -> M B) V Q,
  rel (RR (on_bits (i + Z.of_nat rep)))
    (k1 (i + Z.of_nat rep)) (k2 (i + Z.of_nat rep)) V Q ->
  rel (RR (on_bits i))
    (readHuffman_repeat rep i v ≫= k1) (readHuffman_repeat rep i v ≫= k2)
    V Q.
Proof.
  induction rep as [|rep IH]; intros i v k1 k2 V Q Hn;
    cbn [readHuffman_repeat].
  { rewrite Z.add_0_r in Hn. exact Hn. }
  apply bits_write. apply IH.
  replace (i + 1 + Z.of_nat rep) with (i + Z.of_nat (S rep)) by lia.
  exact Hn.
Qed.

Lemma on_bits_le i n w1 w2 :
  n <= i ->
  core a1 a2 w1 w2 /\ on_bits i (rest (dec w1)) (rest (dec w2)) ->
  core a1 a2 w1 w2 /\ on_bits n (rest (dec w1)) (rest (dec w2)).
Proof.
  intros Hle [HK (Hh & Hh1 & Hag)]. split; [done|].
  split; [done|]. split; [done|]. intros j Hj. apply Hag. lia.
Qed.

Lemma at_index_agree (c1 c2 : list Z) j :
  (0 <= j -> c1 !! Z.to_nat j = c2 !! Z.to_nat j) ->
  at_index c1 j = at_index c2 j.
Proof.
  intros H. unfold at_index. destruct (Z.ltb_spec j 0); [done|].
  by rewrite H.
Qed.

Lemma lengths_loop {B} fuel : forall i n (k1 k2 : option error -> M B) V Q,
  (forall e, rel (RR in_header) (k1 (Some e)) (k2 (Some e)) V Q) ->
  rel (RR (on_bits n)) (k1 None) (k2 None) V Q ->
  rel (RR (on_bits i))
    (readHuffman_lengths fuel i n ≫= k1) (readHuffman_lengths fuel i n ≫= k2)
    V Q.
Proof.
  induction fuel as [|fuel IH]; intros i n k1 k2 V Q He Hn;
    cbn [readHuffman_lengths]; destruct (Z.ltb_spec i n) as [Hin|Hin];
    try (eapply rel_conseq;
           [exact Hn|intros w1 w2; by apply (on_bits_le i n)|done|done]).
  { intros w1 w2 _. reflexivity. }
  assert (Herr : forall e, rel (RR (on_bits i)) (k1 (Some e)) (k2 (Some e)) V Q).
  { intros e. eapply rel_conseq; [apply He|weaken|done|done]. }
  apply rel_assoc. eapply rel_bind.
  { apply huffSym_rel. intros f1 f2 HF. unfold tab, on_bits in *. cbn.
    by destruct HF as (_ & -> & _). }
  intros [x e] ? <-. destruct e as [err|]; [apply rel_ret_l, Herr|].
  destruct (x <? 16).
  { apply bits_write. by apply IH. }
  apply rel_assoc.
  assert (Hrep : forall rep nbits v,
    rel (RR (on_bits i))
      ((e ← need_bits nbits;
        match e with
        | Some err => mret (Some err)
        | None =>
            extra ← take_bits nbits;
            let rep := rep + extra in
            if i + rep >? n then
              off ← gets roffset;
              mret (Some (CorruptInputError off))
            else
              i' ← readHuffman_repeat (Z.to_nat rep) i v;
              readHuffman_lengths fuel i' n
        end) ≫= k1)
      ((e ← need_bits nbits;
        match e with
        | Some err => mret (Some err)
        | None =>
            extra ← take_bits nbits;
            let rep := rep + extra in
            if i + rep >? n then
              off ← gets roffset;
              mret (Some (CorruptInputError off))
            else
              i' ← readHuffman_repeat (Z.to_nat rep) i v;
              readHuffman_lengths fuel i' n
        end) ≫= k2) V Q).
  { intros rep nbits v.
    apply rel_assoc. eapply rel_bind; [apply need_bits_rel|].
    intros e ? <-. destruct e as [err|]; [apply rel_ret_l, Herr|].
    apply rel_assoc. eapply rel_bind; [apply take_bits_rel|].
    intros extra ? <-. cbv zeta. destruct (i + (rep + extra) >? n).
    - apply rel_assoc. eapply rel_bind; [apply rel_gets_eq; core_same|].
      intros off ? <-. apply rel_ret_l, Herr.
    - apply rel_assoc. apply repeat_loop. by apply IH. }
  destruct (x =? 16); [destruct (Z.eqb_spec i 0) as [Ei|Ei]|].
  - apply rel_assoc. eapply rel_bind; [apply rel_gets_eq; core_same|].
    intros off ? <-. apply rel_ret_l. cbv beta iota. apply rel_ret_l, Herr.
  - apply rel_assoc. eapply rel_bind; [apply bits_gets|].
    intros c1 c2 [_ Hag].
    rewrite (at_index_agree c1 c2 (i - 1)) by (intros; apply Hag; lia).
    apply rel_assoc. eapply rel_bind; [apply rel_lift|].
    intros prev ? <-. apply rel_ret_l. cbv beta iota. apply Hrep.
  - destruct (x =? 17); [apply rel_ret_l; cbv beta iota; apply Hrep|].
    destruct (x =? 18); [apply rel_ret_l; cbv beta iota; apply Hrep|].
    apply rel_ret_l. cbv beta iota. apply rel_ret_l, Herr.
Qed.

Lemma subslice_agree (c1 c2 : list Z) lo hi n :
  length c1 = length c2 ->
  (forall j : Z, 0 <= j < n -> c1 !! Z.to_nat j = c2 !! Z.to_nat j) ->
  hi <= n ->
  subslice c1 lo hi = subslice c2 lo hi.
Proof.
  intros Hl Hag Hn. unfold subslice. rewrite <- Hl.
  destruct (Z.leb_spec 0 lo); [|done]. destruct (Z.leb_spec lo hi); [|done].
  destruct (hi <=? _); [|done]. cbn. f_equal. apply list_eq. intros k.
  destruct (decide (k < Z.to_nat (hi - lo))%nat).
  - rewrite !lookup_take_lt, !lookup_drop by done.
    specialize (Hag (lo + Z.of_nat k)).
    replace (Z.to_nat (lo + Z.of_nat k)) with (Z.to_nat lo + k)%nat in Hag
      by lia.
    apply Hag. lia.
  - rewrite !lookup_take_ge by lia. done.
Qed.

(** A table built from lengths that both decoders hold. *)
Lemma init_h1_step {B} lengths (F F' : Decompressor -> Decompressor -> Prop)
  (k1 k2 : bool -> M B) V Q :
  (forall f1 f2, F f1 f2 -> hclean (h1 f1) /\ hclean (h1 f2)) ->
  (forall f1 f2 h', F f1 f2 -> hclean h' -> F' (set_h1 h' f1) (set_h1 h' f2)) ->
  (forall ok, rel (RR F') (k1 ok) (k2 ok) V Q) ->
  rel (RR F) (init_h1 lengths ≫= k1) (init_h1 lengths ≫= k2) V Q.
Proof.
  intros Hc HF' Hk w1 w2 [HK HF]. destruct (Hc _ _ HF) as [Hc1 Hc2].
  cbn in Hc1, Hc2.
  unfold init_h1, gets, lift, modify. unfold_M.
  rewrite (init_zero _ lengths Hc1), (init_zero _ lengths Hc2).
  destruct (init zero_huffmanDecoder lengths) as [[ok h']|e|s] eqn:E;
    [|done|done].
  apply (Hk ok). split.
  - unfold core, upd in *. cbn. exact HK.
  - apply (HF' _ _ h' HF). eapply init_hclean; [apply hclean_zero|exact E].
Qed.

Lemma init_h2_step {B} lengths (F F' : Decompressor -> Decompressor -> Prop)
  (k1 k2 : bool -> M B) V Q :
  (forall f1 f2, F f1 f2 -> hclean (h2 f1) /\ hclean (h2 f2)) ->
  (forall f1 f2 h', F f1 f2 -> hclean h' -> F' (set_h2 h' f1) (set_h2 h' f2)) ->
  (forall ok, rel (RR F') (k1 ok) (k2 ok) V Q) ->
  rel (RR F) (init_h2 lengths ≫= k1) (init_h2 lengths ≫= k2) V Q.
Proof.
  intros Hc HF' Hk w1 w2 [HK HF]. destruct (Hc _ _ HF) as [Hc1 Hc2].
  cbn in Hc1, Hc2.
  unfold init_h2, gets, lift, modify. unfold_M.
  rewrite (init_zero _ lengths Hc1), (init_zero _ lengths Hc2).
  destruct (init zero_huffmanDecoder lengths) as [[ok h']|e|s] eqn:E;
    [|done|done].
  apply (Hk ok). split.
  - unfold core, upd in *. cbn. exact HK.
  - apply (HF' _ _ h' HF). eapply init_hclean; [apply hclean_zero|exact E].
Qed.

Lemma in_header_set_h1 f1 f2 h' :
  in_header f1 f2 -> hclean h' ->
  in_header (set_h1 h' f1) (set_h1 h' f2).
Proof. intros HF Hh'. frames. cbn. intuition congruence. Qed.

Lemma in_header_set_h2 f1 f2 h' :
  in_header f1 f2 -> hclean h' ->
  in_header (set_h2 h' f1) (set_h2 h' f2).
Proof. intros HF Hh'. frames. cbn. intuition congruence. Qed.

Ltac cbind tac := apply rel_assoc; eapply rel_bind; [tac|].
Ltac cneed := cbind ltac:(apply need_bits_rel).
Ltac cget := cbind ltac:(apply rel_gets_eq; core_same).
Ltac cmod := cbind ltac:(apply rel_modify_same; core_kept); intros _ _ _.

(** [readHuffman], then the rest of the method: after an error the
    decoders are as at the head of the block, otherwise they hold the same
    two tables. *)
Lemma readHuffman_cps {B} (k1 k2 : option error -> M B) V Q :
  (forall e, rel (RR in_header) (k1 (Some e)) (k2 (Some e)) V Q) ->
  rel (RR with_tables) (k1 None) (k2 None) V Q ->
  rel (RR in_header) (readHuffman ≫= k1) (readHuffman ≫= k2) V Q.
Proof.
  intros He Hn. unfold readHuffman.
  assert (Hcorrupt : forall F : Decompressor -> Decompressor -> Prop,
    (forall f1 f2, F f1 f2 -> in_header f1 f2) ->
    rel (RR F)
      ((off ← gets roffset; mret (Some (CorruptInputError off))) ≫= k1)
      ((off ← gets roffset; mret (Some (CorruptInputError off))) ≫= k2) V Q).
  { intros F HF. cbind ltac:(apply rel_gets_eq; core_same). intros off ? <-.
    apply rel_ret_l. eapply rel_conseq; [apply He| |done|done].
    intros w1 w2 [HK H]. split; [done|by apply HF]. }
  cneed. intros e ? <-. destruct e as [err|]; [apply rel_ret_l, He|].
  cbind ltac:(eapply (rel_value _ _ _ _ _ (fun x => 257 <= x));
              [apply rel_gets_eq; core_same|]).
  { intros w1 w2 x w1' _ [= <- _].
    pose proof (Z.land_nonneg (b (dec w1)) 31). lia. }
  intros nlit ? [<- Hnlit].
  destruct (nlit >? maxNumLit); [by apply Hcorrupt|].
  cmod.
  cbind ltac:(eapply (rel_value _ _ _ _ _ (fun x => 1 <= x));
              [apply rel_gets_eq; core_same|]).
  { intros w1 w2 x w1' _ [= <- _].
    pose proof (Z.land_nonneg (b (dec w1)) 31). lia. }
  intros ndist ? [<- Hndist].
  destruct (ndist >? maxNumDist); [by apply Hcorrupt|].
  cmod. cget. intros nclen ? <-. cmod. cmod.
  eapply (rel_conseq (RR (on_codebits []))); [| |done|done].
  2:{ intros w1 w2 [HK HF]. split; [done|]. split; [done|].
      intros j Hj. by apply elem_of_nil in Hj. }
  apply rel_assoc. apply codebits_loop; [intros err; apply rel_ret_l, He|].
  apply rel_assoc. apply zero_loop.
  cbind ltac:(apply rel_gets_eq; intros w1 w2 [_ HF];
              exact (codebits_all _ _ _ HF)).
  intros cb ? <-.
  apply rel_assoc.
  apply (init_h1_step cb _ (on_bits 0)).
  { intros f1 f2 HF. frames. tauto. }
  { intros f1 f2 h' [HF _] Hh'. split; [by apply in_header_set_h1|].
    split; [done|]. intros j Hj. lia. }
  intros ok. destruct ok; cbn [negb];
    [|apply Hcorrupt; intros f1 f2 HF; frames; tauto].
  apply rel_assoc.
  apply lengths_loop; [intros err; apply rel_ret_l, He|].
  cbind ltac:(apply bits_gets). intros c1 c2 [Hl Hag].
  rewrite (subslice_agree c1 c2 0 nlit (nlit + ndist)) by (done || lia).
  cbind ltac:(apply rel_lift). intros lit ? <-.
  apply rel_assoc.
  apply (init_h1_step lit _ (on_bits (nlit + ndist))).
  { intros f1 f2 HF. frames. tauto. }
  { intros f1 f2 h' (HF & _ & Hb) Hh'. split; [by apply in_header_set_h1|].
    split; [done|]. exact Hb. }
  intros ok1. apply rel_assoc. destruct ok1.
  2:{ apply rel_ret_l. cbn [negb orb].
      apply Hcorrupt; intros f1 f2 HF; frames; tauto. }
  apply rel_assoc.
  rewrite (subslice_agree c1 c2 nlit (nlit + ndist) (nlit + ndist))
    by (done || lia).
  eapply rel_bind; [apply rel_lift|]. intros dst ? <-.
  apply (init_h2_step dst _ with_tables).
  { intros f1 f2 HF. frames. tauto. }
  { intros f1 f2 h' (HF & Hh1 & _) Hh'. split; [by apply in_header_set_h2|].
    split; [exact Hh1|done]. }
  intros ok2. destruct ok2; cbn [negb orb];
    [|apply Hcorrupt; intros f1 f2 HF; frames; tauto].
  rewrite (at_index_agree c1 c2 endBlockMarker)
    by (intros; apply Hag; unfold endBlockMarker; lia).
  cbind ltac:(apply rel_lift). intros eob ? <-.
  apply rel_assoc.
  eapply rel_bind; [|intros _ _ _; apply rel_ret_l, Hn].
  apply rel_modify. intros w1 w2 [HK HF].
  pose proof HF as (Hhead & Hh1 & Hh2). cbn in Hh1, Hh2.
  unfold upd. cbv beta. rewrite <- Hh1.
  destruct (Z.ltb_spec (hmin (h1 (dec w1))) eob) as [Hlt|Hlt]; [|done].
  split; [unfold core in *; cbn; exact HK|].
  split; [|cbn; split; [congruence|exact Hh2]].
  apply (in_header_set_h1 _ _ _ Hhead).
  destruct Hhead as [(_ & _ & _ & ([Hmin _] & _) & _) _]. cbn in Hmin.
  split; cbn; [lia|intros ->; lia].
Qed.

(** *** A whole step *)

Lemma nextBlock_fill_rel (F : Decompressor -> Decompressor -> Prop) fuel :
  rel (RR F) (nextBlock_fill fuel) (nextBlock_fill fuel) eq (RR F).
Proof. induction fuel; cbn [nextBlock_fill]; repeat sgo. Qed.

Lemma huffman_start pl pd (F : Decompressor -> Decompressor -> Prop) :
  (forall f1 f2, F f1 f2 ->
     in_huffman pl pd (set_hd pd (set_hl pl f1)) (set_hd pd (set_hl pl f2))) ->
  rel (RR F)
    (modify (set_hl pl);; modify (set_hd pd);; huffmanBlock)
    (modify (set_hl pl);; modify (set_hd pd);; huffmanBlock)
    any (RR between).
Proof.
  intros HF.
  eapply (rel_bind _ _ _ _ _ any
    (RR (fun f1 f2 => exists g1 g2,
           F g1 g2 /\ f1 = set_hl pl g1 /\ f2 = set_hl pl g2))).
  { apply rel_modify. intros w1 w2 [HK H]. split.
    - unfold core, upd in *. cbn. exact HK.
    - by exists (rest (dec w1)), (rest (dec w2)). }
  intros _ _ _.
  eapply rel_bind; [|intros _ _ _; apply (huffmanBlock_rel pl pd)].
  apply rel_modify. intros w1 w2 [HK (g1 & g2 & H & E1 & E2)]. split.
  - unfold core, upd in *. cbn. exact HK.
  - specialize (HF _ _ H).
    change (rest (dec (upd (set_hd pd) w1)))
      with (set_hd pd (rest (dec w1))).
    change (rest (dec (upd (set_hd pd) w2)))
      with (set_hd pd (rest (dec w2))).
    by rewrite E1, E2.
Qed.

Lemma rel_done (F : Decompressor -> Decompressor -> Prop) :
  (forall f1 f2, F f1 f2 -> between f1 f2) ->
  rel (RR F) (mret tt) (mret tt) any (RR between).
Proof. intros HF w1 w2 [HK H]. split; [done|]. split; [done|by apply HF]. Qed.

Lemma nextBlock_rel : rel (RR in_header) nextBlock nextBlock any (RR between).
Proof.
  unfold nextBlock.
  eapply rel_bind; [apply nextBlock_fill_rel|]. intros ok ? <-.
  destruct ok; [|apply rel_done; by intros f1 f2 [HF _]].
  eapply (rel_bind _ _ _ _ _ any (RR in_header)).
  { apply rel_modify. intros w1 w2 [HK HF]. split.
    - unfold core, upd in *. cbn. intuition congruence.
    - frames. unfold core in HK. cbn in *. intuition congruence. }
  intros _ _ _. sgo. sgo. sgo. sgo.
  sgo; [apply dataBlock_rel|].
  sgo.
  { apply huffman_start. intros f1 f2 HF. frames. cbn. intuition congruence. }
  sgo; [|sgo].
  apply readHuffman_cps.
  - intros err. eapply rel_bind; [apply rel_modify_same; core_kept|].
    intros _ _ _. apply rel_done. by intros f1 f2 [HF _].
  - eapply rel_bind; [apply rel_modify_same; core_kept|]. intros _ _ _.
    apply huffman_start. intros f1 f2 HF. frames. cbn.
    intuition congruence.
Qed.

Lemma run_step_rel : rel (RR between) run_step run_step any (RR between).
Proof.
  unfold run_step. apply rel_gets_rest; [done| |].
  { intros f1 f2 HF. frames. tauto. }
  intros s. destruct s.
  - eapply rel_conseq; [apply nextBlock_rel| |done|done].
    intros w1 w2 [HK HF]. split; [done|]. exact HF.
  - intros w1 w2 [HK [HF Hs]].
    apply (huffmanBlock_rel (hl (dec w1)) (hd (dec w1))).
    split; [done|]. pose proof HF as HF'. frames. cbn in *.
    intuition congruence.
  - eapply rel_conseq; [apply copyData_rel| |done|done].
    intros w1 w2 [HK [HF Hs]]. split; [done|]. split; [done|].
    frames. tauto.
Qed.

(** *** [Read] *)

Lemma rel_gets_state {A B} (P : World -> World -> Prop)
  (p : Decompressor -> A) (k1 k2 : A -> M B) V Q :
  (forall w1 w2, P w1 w2 -> p (dec w1) = p (dec w2)) ->
  (forall x, rel (fun w1 w2 => P w1 w2 /\ p (dec w1) = x) (k1 x) (k2 x) V Q) ->
  rel P (gets p ≫= k1) (gets p ≫= k2) V Q.
Proof.
  intros Hp Hk w1 w2 HP. unfold gets. unfold_M. rewrite <- (Hp _ _ HP).
  by apply Hk.
Qed.

Lemma toRead_len_rel (F : Decompressor -> Decompressor -> Prop) :
  rel (RR F) (gets toRead_len) (gets toRead_len) eq (RR F).
Proof.
  apply rel_gets_eq. intros w1 w2 [HK _]. unfold core, toRead_len in *.
  tauto.
Qed.

Lemma woffset_add_rel (F : Decompressor -> Decompressor -> Prop) :
  rel (RR F)
    (modify (fun f => set_woffset (wrap64 (woffset f + toRead_len f)) f))
    (modify (fun f => set_woffset (wrap64 (woffset f + toRead_len f)) f))
    any (RR F).
Proof.
  apply rel_modify. intros w1 w2 [HK HF]. split; [|exact HF].
  unfold core, upd, toRead_len in *. cbn. intuition congruence.
Qed.

Lemma Read_loop_rel fuel len :
  rel (RR between) (Read_loop fuel len) (Read_loop fuel len) eq (RR between).
Proof.
  induction fuel as [|fuel IH]; cbn [Read_loop]; [apply rel_panic|].
  apply rel_gets_state.
  { intros w1 w2 [HK _]. unfold core, toRead_len in *. tauto. }
  intros pending. destruct (Z.gtb_spec pending 0) as [Hp|Hp].
  - cbv zeta.
    eapply (rel_bind _ _ _ _ _ eq
      (fun w1 w2 => RR between w1 w2 /\ 0 < toRead_len (dec w1))).
    { eapply rel_conseq; [apply (toRead_bytes_rel a1 a2 between)| |done|done].
      intros w1 w2 [H E]. split; [exact H|lia]. }
    intros bytes ? <-.
    eapply (rel_bind _ _ _ _ _ any (RR between)).
    { apply rel_modify. intros w1 w2 [[HK HF] Hpos]. split; [|exact HF].
      unfold core, upd, toRead_len in *. cbn.
      destruct HK as (?&?&?&?&?&?&?&?&?&?&?&?&?&Hd&Ht).
      specialize (Ht Hpos). rewrite <- Ht.
      repeat (split; [done|]). done. }
    intros _ _ _.
    eapply rel_bind; [apply toRead_len_rel|]. intros p ? <-.
    destruct (p =? 0); repeat sgo.
  - eapply (rel_conseq (RR between) _ _ _ eq _ (RR between));
      [|by intros w1 w2 [H _]|done|done].
    eapply rel_bind; [apply rel_gets_eq; core_same|]. intros e ? <-.
    destruct e as [err|]; [by apply rel_ret|].
    eapply rel_bind; [apply run_step_rel|]. intros _ _ _.
    eapply rel_bind; [apply woffset_add_rel|]. intros _ _ _.
    eapply rel_bind; [apply rel_gets_eq; core_same|]. intros e ? <-.
    eapply rel_bind; [apply toRead_len_rel|]. intros p ? <-.
    eapply (rel_bind _ _ _ _ _ any (RR between));
      [|intros _ _ _; apply IH].
    destruct (is_Some_b e && (p =? 0)).
    + eapply rel_bind; [apply readFlush_rel|]. intros tr ? <-.
      eapply rel_bind; [apply rel_modify_same; core_kept|]. intros _ _ _.
      apply woffset_add_rel.
    + apply rel_ret. exact I.
Qed.

Lemma Read_rel len :
  rel (RR between) (Read len) (Read len) eq (RR between).
Proof.
  unfold Read. sgo. sgo. apply Read_loop_rel.
Qed.

End Steps.

(** ** Resuming *)

Lemma Read_agree len w1 w2 :
  agree w1 w2 ->
  match Read len w1, Read len w2 with
  | Ok (x1, w1'), Ok (x2, w2') => x1 = x2 /\ agree w1' w2'
  | Err e1, Err e2 => e1 = e2
  | Panic s1, Panic s2 => s1 = s2
  | _, _ => False
  end.
Proof.
  intros [HK HB].
  pose proof (Read_rel _ _ len w1 w2 (conj HK HB)) as H.
  destruct (Read len w1) as [[x1 w1']|e1|s1],
           (Read len w2) as [[x2 w2']|e2|s2]; try done.
  destruct H as [-> [HK' HB']]. split; [done|]. split; [|exact HB'].
  pose proof HK' as (E1 & E2 & _). rewrite E1, E2. exact HK'.
Qed.

Lemma outputs_agree lens : forall w1 w2,
  agree w1 w2 -> outputs lens w1 = outputs lens w2.
Proof.
  induction lens as [|len lens IH]; intros w1 w2 H; cbn [outputs]; [done|].
  pose proof (Read_agree len w1 w2 H) as HR.
  destruct (Read len w1) as [[x1 w1']|e1|s1],
           (Read len w2) as [[x2 w2']|e2|s2]; try done.
  - destruct HR as [-> HA]. by rewrite (IH _ _ HA).
  - by rewrite HR.
  - by rewrite HR.
Qed.

Lemma returns_unit (m : result (unit * World)) dflt :
  match m with Ok _ => true | _ => false end = true ->
  m = Ok (tt, match m with Ok (_, w') => w' | _ => dflt end).
Proof. by destruct m as [[[] w']| |]. Qed.

Lemma holds_default (o : option (list Z)) :
  is_Some_b o = true -> o = Some (default [] o).
Proof. by destruct o. Qed.

(** X17.  A decoder resumed from a checkpoint reads what the sender reads.
    Let [finishBlock] end a block that is not the last one and send the
    checkpoint [ck], in a decoder without an error, with nothing left in
    [f.toRead], with [f.stepState = stateInit], whose tables are as [init]
    leaves them and whose window has [maxMatchOffset] bytes.  Then the
    array [ck.Hist] holds the contents of the window, and the decoder that
    [Continue] makes of [ck] on the input the sender has left, whatever
    its span, its channel and the rest of its store, returns from every
    sequence of [Read]s the same bytes and the same errors as the sender
    does from there on. *)
Theorem Continue_resumes w w' ck h :
  finishBlock w = Ok (tt, w') ->
  chan w' = chan w ++ [ck] ->
  final (dec w) = false -> err (dec w) = None ->
  toRead_len (dec w) = 0 -> stepState (dec w) = stateInit ->
  tables_ok (dec w) ->
  length (bits (dec w)) = Z.to_nat (maxNumLit + maxNumDist) ->
  heap w !! hist (dict (dec w)) = Some h ->
  length h = Z.to_nat maxMatchOffset ->
  heap w' !! Hist ck = Some h /\
  forall hp sp up sent lens,
    hp !! Hist ck = Some h ->
    outputs lens (Continue (r (dec w')) ck sp up hp sent) = outputs lens w'.
Proof.
  intros Hrun Hch Hfin Herr Htr Hst Htab Hbits Hh Hlen.
  unfold finishBlock, finishBlock_flush, finishBlock_send in Hrun.
  unfold_M. rewrite Hfin in Hrun. cbn in Hrun.
  destruct (updates (dec w) && _).
  2:{ injection Hrun as <-. cbn in Hch. apply (f_equal length) in Hch.
      rewrite length_app in Hch. cbn in Hch. lia. }
  rewrite Hh in Hrun. injection Hrun as <-. cbn in Hch.
  apply app_inv_head in Hch. injection Hch as <-. cbn.
  assert (Hne : fresh (dom (heap w)) <> hist (dict (dec w))).
  { intros E. apply (is_fresh (dom (heap w))). rewrite E.
    apply elem_of_dom. by eexists. }
  split; [by rewrite lookup_insert_eq|].
  intros hp sp up sent lens Hhp. apply outputs_agree. split.
  - unfold core, Continue. cbn. rewrite Hhp. cbn.
    rewrite !lookup_insert_eq, !lookup_insert_ne, Hh by done.
    unfold toRead_len in Htr.
    assert (copy_into (repeat 0 (Z.to_nat maxMatchOffset)) h = h) as ->.
    { unfold copy_into. rewrite repeat_length, <- Hlen.
      rewrite take_ge, drop_ge by (rewrite ?repeat_length; lia).
      apply app_nil_r. }
    repeat (split; [done || lia|]). intros; lia.
  - unfold Continue. frames. cbn. rewrite Hst, Hfin.
    repeat (split; [done || (apply hclean_zero) || (by rewrite ?repeat_length)
                     || tauto|]).
    done.
Qed.

Lemma Continue_resumes_witness :
  exists ck,
    finishBlock emitting_state = Ok (tt, checkpointed_state) /\
    chan checkpointed_state = [ck] /\ Out ck = 40 /\
    outputs [100; 100]
      (Continue (r (dec checkpointed_state)) ck 0 false
         (heap checkpointed_state) [])
    = outputs [100; 100] checkpointed_state /\
    map (fun x => match x with
                  | Ok (bytes, e) => Some (length bytes, e)
                  | _ => None
                  end) (outputs [100; 100] checkpointed_state)
    = [Some (40%nat, None); Some (5%nat, Some EOF)].
Proof.
  eexists.
  assert (Hrun : finishBlock emitting_state = Ok (tt, checkpointed_state))
    by (apply returns_unit; vm_compute; reflexivity).
  split; [exact Hrun|]. split; [vm_compute; reflexivity|].
  split; [vm_compute; reflexivity|]. split; [|vm_compute; reflexivity].
  match goal with |- outputs _ (Continue _ ?c _ _ _ _) = _ => set (ck := c) end.
  destruct (Continue_resumes emitting_state checkpointed_state ck
              (default [] (heap emitting_state
                             !! hist (dict (dec emitting_state)))))
    as [Hhist Hres].
  - exact Hrun.
  - vm_compute. reflexivity.
  - vm_compute. reflexivity.
  - vm_compute. reflexivity.
  - vm_compute. reflexivity.
  - vm_compute. reflexivity.
  - vm_compute. repeat split; try discriminate; reflexivity.
  - vm_compute. reflexivity.
  - apply holds_default. vm_compute. reflexivity.
  - apply Nat2Z.inj. vm_compute. reflexivity.
  - exact (Hres (heap checkpointed_state) 0 false [] [100; 100] Hhist).
Defined.
End FlateResume.
